(** * DocuTalk: the conversation-turn pipeline

    A shallow embedding of the server's session store
    ([server/services/conversationManager.js]), the tool executor
    ([server/utils/streamProcessor.js], [server/services/tools/toolExecutor.js]),
    the chat route ([server/routes/chat.js]) and the client's protocol bridge
    ([client/src/app/api/chat/route.ts]), with the properties of the
    specification stated over them. *)

From Stdlib Require Import ZArith Lia.
From stdpp Require Import gmap strings list fin_maps pretty.

Set Warnings "-register-all".

Local Open Scope Z_scope.

(* ===================================================================== *)
(** * JavaScript values that cross the wire *)
(* ===================================================================== *)

(** The JSON values the program builds, sends and parses. A JS object is an
    association list: key order is insertion order, keys are unique. *)
Inductive json : Type :=
| JNull
| JBool (b : bool)
| JNum (n : nat)
| JStr (s : string)
| JArr (items : list json)
| JObj (fields : list (string * json)).

Abbreviation jsobject := (list (string * json)).

(** [obj[k]]: [None] is JavaScript's [undefined]. *)
Fixpoint obj_get (k : string) (o : jsobject) : option json :=
  match o with
  | [] => None
  | (k', v) :: o' => if String.eqb k k' then Some v else obj_get k o'
  end.

(** [obj[k] = v]: overwrite in place, or append a new key. *)
Fixpoint obj_set (k : string) (v : json) (o : jsobject) : jsobject :=
  match o with
  | [] => [(k, v)]
  | (k', v') :: o' =>
      if String.eqb k k' then (k, v) :: o' else (k', v') :: obj_set k v o'
  end.

(** [{ ...a, ...b }]: the keys of [b] written over [a], in order. *)
Definition obj_spread (a b : jsobject) : jsobject :=
  foldl (fun acc kv => obj_set kv.1 kv.2 acc) a b.

(** [Array.prototype.slice(start)] with one argument: a negative [start]
    counts from the end, and everything is clamped to the array. *)
Definition js_slice_from {A} (start : Z) (l : list A) : list A :=
  let len := Z.of_nat (length l) in
  let k := if start <? 0 then Z.max (len + start) 0 else Z.min start len in
  drop (Z.to_nat k) l.

(** [Array.prototype.join('')] on strings. *)
Definition join_empty (parts : list string) : string :=
  foldr String.append "" parts.

(* ===================================================================== *)
(** * Messages and tool calls (the LangChain shapes the code builds) *)
(* ===================================================================== *)

(** A completed tool call of the accumulated message: [{ id, name, args }].
    [id] may be undefined, which is why [buildToolMessages] has a fallback. *)
Record ToolCall := mkToolCall {
  tc_id : option string;
  tc_name : string;
  tc_args : jsobject
}.

Inductive BaseMessage : Type :=
| SystemMessage (content : string)
| HumanMessage (content : string)
| AIMessage (content : string) (tool_calls : list ToolCall)
| ToolMessage (content : string) (tool_call_id : string) (name : string).

(* ===================================================================== *)
(** * conversationManager.js *)
(* ===================================================================== *)

Module ConversationManager.

(** One entry of [this.sessions]. [history] is the message array of the
    session's [InMemoryChatMessageHistory]; [context] is [None] for
    [null]. *)
Record Session := mkSession {
  history : list BaseMessage;
  lastAccessed : Z;
  context : option json
}.

Record t := mk {
  sessions : gmap string Session;
  sessionTimeout : Z;
  cleanupInterval : Z;
  maxMessagesPerSession : Z
}.

(** [constructor()] *)
Definition new : t :=
  {| sessions := ∅;
     sessionTimeout := 30 * 60 * 1000;
     cleanupInterval := 5 * 60 * 1000;
     maxMessagesPerSession := 10 |}.

Definition with_sessions (f : gmap string Session → gmap string Session)
    (m : t) : t :=
  {| sessions := f (sessions m);
     sessionTimeout := sessionTimeout m;
     cleanupInterval := cleanupInterval m;
     maxMessagesPerSession := maxMessagesPerSession m |}.

(** [history.addMessage(msg)], [history.clear()] and the two field
    assignments the class makes on a session object. *)
Definition history_addMessage (msg : BaseMessage) (s : Session) : Session :=
  {| history := history s ++ [msg];
     lastAccessed := lastAccessed s; context := context s |}.

Definition history_clear (s : Session) : Session :=
  {| history := []; lastAccessed := lastAccessed s; context := context s |}.

Definition set_lastAccessed (now : Z) (s : Session) : Session :=
  {| history := history s; lastAccessed := now; context := context s |}.

Definition set_context (c : option json) (s : Session) : Session :=
  {| history := history s; lastAccessed := lastAccessed s; context := c |}.

(** The messages of a session, [[]] when there is none. *)
Definition messages_of (m : t) (sid : string) : list BaseMessage :=
  match sessions m !! sid with
  | Some s => history s
  | None => []
  end.

(** [getOrCreateSession(sessionId)]; [now] is what [Date.now()] returns.
    The result is the session's history. *)
Definition getOrCreateSession (sid : string) (now : Z) (m : t)
    : list BaseMessage * t :=
  let m' :=
    match sessions m !! sid with
    | None =>
        with_sessions
          (insert sid {| history := []; lastAccessed := now; context := None |})
          m
    | Some s => with_sessions (insert sid (set_lastAccessed now s)) m
    end in
  (messages_of m' sid, m').

(** [setSessionContext(sessionId, context)] *)
Definition setSessionContext (sid : string) (c : json) (now : Z) (m : t) : t :=
  let m1 := (getOrCreateSession sid now m).2 in
  with_sessions (alter (set_context (Some c)) sid) m1.

(** [getSessionContext(sessionId)]: the context read and the manager
    after the call. *)
Definition getSessionContext (sid : string) (m : t) : option json * t :=
  (match sessions m !! sid with
   | Some s => context s
   | None => None
   end, m).

(** [applyMessageWindowing(sessionId)] *)
Definition applyMessageWindowing (sid : string) (m : t) : t :=
  match sessions m !! sid with
  | None => m
  | Some s =>
      let messages := history s in
      if maxMessagesPerSession m <? Z.of_nat (length messages) then
        let messagesToKeep :=
          js_slice_from (- maxMessagesPerSession m) messages in
        let refilled :=
          foldl (fun s' msg => history_addMessage msg s')
                (history_clear s) messagesToKeep in
        with_sessions (insert sid refilled) m
      else m
  end.

Definition make_message (content : string) (isUser : bool) : BaseMessage :=
  if isUser then HumanMessage content else AIMessage content [].

(** [addMessage(sessionId, content, isUser)] *)
Definition addMessage (sid : string) (content : string) (isUser : bool)
    (now : Z) (m : t) : t :=
  let m1 := (getOrCreateSession sid now m).2 in
  let m2 :=
    with_sessions
      (alter (history_addMessage (make_message content isUser)) sid) m1 in
  applyMessageWindowing sid m2.

(** [getMessages(sessionId, limit)]; [limit = None] is the default
    [null]. A limit of [0] is falsy and returns everything. *)
Definition getMessages (sid : string) (limit : option Z) (now : Z) (m : t)
    : list BaseMessage * t :=
  let '(messages, m') := getOrCreateSession sid now m in
  match limit with
  | Some n =>
      if negb (n =? 0) && (n <? Z.of_nat (length messages))
      then (js_slice_from (- n) messages, m')
      else (messages, m')
  | None => (messages, m')
  end.

(** [clearSession(sessionId)] *)
Definition clearSession (sid : string) (m : t) : t :=
  match sessions m !! sid with
  | Some s =>
      let m1 := with_sessions (insert sid (history_clear s)) m in
      with_sessions (delete sid) m1
  | None => m
  end.

(** [getSessionCount()] *)
Definition getSessionCount (m : t) : nat := size (sessions m).

(** [getSessionInfo(sessionId)]: message count, last access and age in
    minutes, or [None] for [null]. *)
Definition getSessionInfo (sid : string) (now : Z) (m : t)
    : option (string * nat * Z * Z) :=
  match sessions m !! sid with
  | None => None
  | Some s =>
      Some (sid, length (history s), lastAccessed s,
            (now - lastAccessed s) / 60000)
  end.

(** One run of the callback [startCleanup] installs. *)
Definition cleanup (now : Z) (m : t) : t :=
  with_sessions
    (filter (fun kv => negb (sessionTimeout m <? now - lastAccessed kv.2)))
    m.

(** The calls that change the manager, as data. *)
Inductive Mutation : Type :=
| MGetOrCreate (sid : string) (now : Z)
| MSetContext (sid : string) (c : json) (now : Z)
| MAddMessage (sid : string) (content : string) (isUser : bool) (now : Z)
| MGetMessages (sid : string) (limit : option Z) (now : Z)
| MWindow (sid : string)
| MClear (sid : string)
| MCleanup (now : Z).

Definition apply (mu : Mutation) (m : t) : t :=
  match mu with
  | MGetOrCreate sid now => (getOrCreateSession sid now m).2
  | MSetContext sid c now => setSessionContext sid c now m
  | MAddMessage sid content isUser now => addMessage sid content isUser now m
  | MGetMessages sid limit now => (getMessages sid limit now m).2
  | MWindow sid => applyMessageWindowing sid m
  | MClear sid => clearSession sid m
  | MCleanup now => cleanup now m
  end.

(** The invariant of the data model: no session holds more than
    [maxMessagesPerSession] messages. *)
Definition windowed (m : t) : Prop :=
  ∀ sid s, sessions m !! sid = Some s →
           Z.of_nat (length (history s)) ≤ maxMessagesPerSession m.

(** The last [w] elements of a list. *)
Definition last_n {A} (w : nat) (l : list A) : list A :=
  drop (length l - w)%nat l.

(** What the windowing keeps of a message list. *)
Definition window (w : Z) (messages : list BaseMessage) : list BaseMessage :=
  if w <? Z.of_nat (length messages) then js_slice_from (- w) messages
  else messages.

(** A run of mutations, first to last. *)
Definition run (mus : list Mutation) (m : t) : t :=
  foldl (fun acc mu => apply mu acc) m mus.

(** The messages the callers of a run of mutations asked to have
    appended to a session, in order: a user's message where [isUser] was
    given as true, an assistant's with no tool call otherwise, each with
    the content that was passed. *)
Definition appendedTo (sid : string) (mus : list Mutation) : list BaseMessage :=
  omap (fun mu => match mu with
                  | MAddMessage sid' content true _ =>
                      if String.eqb sid' sid
                      then Some (HumanMessage content) else None
                  | MAddMessage sid' content false _ =>
                      if String.eqb sid' sid
                      then Some (AIMessage content []) else None
                  | _ => None
                  end) mus.

(** A mutation that cannot remove the session: anything but a clear of
    that id and a sweep. *)
Definition keeps (sid : string) (mu : Mutation) : bool :=
  match mu with
  | MClear sid' => negb (String.eqb sid' sid)
  | MCleanup _ => false
  | _ => true
  end.

End ConversationManager.

(* ===================================================================== *)
(** * The turn events and [utils/helpers.js] *)
(* ===================================================================== *)

(** The events [sendSSEEvent] is called with, one constructor per call
    site: the type tag and the fields of the data object. *)
Inductive TurnEvent : Type :=
| EvSession (sessionId : string)
| EvToken (content : string)
| EvToolExecuting (tools : list string)
| EvToolResult (tool : string) (result : string)
| EvToolError (tool : string) (error : string)
| EvError (message : string)
| EvDone.

Definition event_type (e : TurnEvent) : string :=
  match e with
  | EvSession _ => "session"
  | EvToken _ => "token"
  | EvToolExecuting _ => "tool_executing"
  | EvToolResult _ _ => "tool_result"
  | EvToolError _ _ => "tool_error"
  | EvError _ => "error"
  | EvDone => "done"
  end.

Definition event_data (e : TurnEvent) : jsobject :=
  match e with
  | EvSession sid => [("sessionId", JStr sid)]
  | EvToken c => [("content", JStr c)]
  | EvToolExecuting ts => [("tools", JArr (map JStr ts))]
  | EvToolResult t r => [("tool", JStr t); ("result", JStr r)]
  | EvToolError t err => [("tool", JStr t); ("error", JStr err)]
  | EvError msg => [("message", JStr msg)]
  | EvDone => []
  end.

(** The object [sendSSEEvent] serialises: [{ type, ...data }]. *)
Definition sse_payload (e : TurnEvent) : json :=
  JObj (obj_spread [("type", JStr (event_type e))] (event_data e)).

Definition is_tool_executing (e : TurnEvent) : bool :=
  match e with EvToolExecuting _ => true | _ => false end.
Definition is_tool_outcome (e : TurnEvent) : bool :=
  match e with EvToolResult _ _ | EvToolError _ _ => true | _ => false end.
Definition is_error_event (e : TurnEvent) : bool :=
  match e with EvError _ => true | _ => false end.
Definition is_done_event (e : TurnEvent) : bool :=
  match e with EvDone => true | _ => false end.

(** The contents of the token events of a list, in order. *)
Definition token_contents (es : list TurnEvent) : list string :=
  omap (fun e => match e with EvToken c => Some c | _ => None end) es.

(** JavaScript truthiness of a parsed JSON value. *)
Definition js_truthy (v : json) : bool :=
  match v with
  | JNull | JBool false | JNum O | JStr EmptyString => false
  | _ => true
  end.

Definition nonempty (s : string) : bool :=
  match s with EmptyString => false | _ => true end.

(** The body of an inbound request: each field may be absent. *)
Record RequestBody := mkBody {
  body_message : option json;
  body_sessionId : option string;
  body_context : option json
}.

Inductive Validation : Type :=
| Invalid (error : string)
| Valid (message : string) (sessionId : string) (context : option json).

(** [validateChatRequest(req)]; [uuid] is what [uuidv4()] would return. *)
Definition validateChatRequest (body : RequestBody) (uuid : string)
    : Validation :=
  match body_message body with
  | Some (JStr message) =>
      if nonempty message then
        Valid message
          (match body_sessionId body with
           | Some sid => if nonempty sid then sid else uuid
           | None => uuid
           end)
          (match body_context body with
           | Some c => if js_truthy c then Some c else None
           | None => None
           end)
      else Invalid "Message is required and must be a string"
  | _ => Invalid "Message is required and must be a string"
  end.

(** The Express response object, as far as the route uses it. *)
Record Response := mkResponse {
  rejected : option (nat * string);   (* [res.status(400).json({ error })] *)
  headers : list (string * string);
  written : list TurnEvent;           (* one [res.write] per event *)
  ended : bool
}.

Definition fresh_response : Response :=
  {| rejected := None; headers := []; written := []; ended := false |}.

(* ===================================================================== *)
(** * Tools and their results *)
(* ===================================================================== *)

(** What an awaited call gives: a value, or a thrown error's message. *)
Inductive Result (A : Type) : Type :=
| Ok (a : A)
| Throw (message : string).
Arguments Ok {A} a.
Arguments Throw {A} message.

(** A registered tool: [{ name, invoke(args) }]. *)
Record Tool := mkTool {
  tool_name : string;
  tool_invoke : jsobject → Result string
}.

(** The result objects the two executors build; an absent field is
    [None]. *)
Record ToolResult := mkToolResult {
  tr_name : string;
  tr_args : option jsobject;
  tr_result : option string;
  tr_error : option string
}.

(** [tools.find((t) => t.name === name)] *)
Definition find_tool (name : string) (tools : list Tool) : option Tool :=
  List.find (fun t => String.eqb (tool_name t) name) tools.

Definition not_found_message (name : string) : string :=
  "Tool '" +:+ name +:+ "' not found".

Module ToolExecutor.

(** [buildToolMessages(toolResults, toolCalls)] *)
Definition buildToolMessages (toolResults : list ToolResult)
    (toolCalls : list ToolCall) : list BaseMessage :=
  imap (fun idx result =>
          let call_id :=
            match toolCalls !! idx with
            | Some call => tc_id call
            | None => None
            end in
          let content :=
            match tr_error result with
            | Some err =>
                if nonempty err then "Error: " +:+ err
                else default "" (tr_result result)
            | None => default "" (tr_result result)
            end in
          ToolMessage content
            (default ("call_" +:+ pretty idx) call_id)
            (tr_name result))
       toolResults.

(** One call of [executeToolCalls]'s mapper. *)
Definition executeOne (tools : list Tool) (call : ToolCall) : ToolResult :=
  match find_tool (tc_name call) tools with
  | None =>
      {| tr_name := tc_name call; tr_args := None; tr_result := None;
         tr_error := Some (not_found_message (tc_name call)) |}
  | Some tool =>
      match tool_invoke tool (tc_args call) with
      | Ok result =>
          {| tr_name := tc_name call; tr_args := Some (tc_args call);
             tr_result := Some result; tr_error := None |}
      | Throw message =>
          {| tr_name := tc_name call; tr_args := Some (tc_args call);
             tr_result := None; tr_error := Some message |}
      end
  end.

(** [executeToolCalls(response, tools)]: [(toolResults, hasToolCalls)].
    [Promise.all] keeps the results in call order. *)
Definition executeToolCalls (toolCalls : list ToolCall) (tools : list Tool)
    : list ToolResult * bool :=
  match toolCalls with
  | [] => ([], false)
  | _ => (map (executeOne tools) toolCalls, true)
  end.

End ToolExecutor.

(* ===================================================================== *)
(** * The turn: [utils/streamProcessor.js] and [routes/chat.js] *)
(* ===================================================================== *)

(** What the route needs of a streamed [AIMessageChunk]: its text, the
    library's [concat], and the completed tool calls of a message. The
    implementation is LangChain's; the route only calls it. *)
Class ChunkOps (C : Type) := {
  chunk_content : C → string;
  chunk_concat : C → C → C;
  chunk_tool_calls : C → list ToolCall
}.

(** An async iterable that is consumed to its end: the chunks it yields,
    then either completion or a thrown error. *)
Record AsyncStream (C : Type) := mkStream {
  chunks : list C;
  failure : option string
}.
Arguments mkStream {C} chunks failure.
Arguments chunks {C} _.
Arguments failure {C} _.

(** The calls the route makes on its collaborators, in order. *)
Inductive ExtCall : Type :=
| CallGetChain
| CallRagStream (question : string) (chat_history : list BaseMessage)
| CallTool (name : string) (args : jsobject)
| CallRetriever (question : string)
| CallLlmStream (messages : list BaseMessage).

Definition is_llm_stream_call (c : ExtCall) : bool :=
  match c with CallLlmStream _ => true | _ => false end.
Definition is_tool_call (c : ExtCall) : bool :=
  match c with CallTool _ _ => true | _ => false end.

(** The collaborators of one request: the clock, the id generator, and
    what [ragService.getChain()] hands out. *)
Record Env (C : Type) := mkEnv {
  clock : nat → Z;                       (* the n-th reading of [Date.now()] *)
  uuidv4 : string;
  getChain : Result unit;
  tools : list Tool;
  ragChain_stream : string → list BaseMessage → Result (AsyncStream C);
  contextRetriever : string → Result string;
  llm_stream : list BaseMessage → Result (AsyncStream C)
}.
Arguments clock {C} _ _.
Arguments uuidv4 {C} _.
Arguments getChain {C} _.
Arguments tools {C} _.
Arguments ragChain_stream {C} _ _ _.
Arguments contextRetriever {C} _ _.
Arguments llm_stream {C} _ _.

(** Everything a request handler can change. *)
Record World := mkWorld {
  manager : ConversationManager.t;
  res : Response;
  ticks : nat;
  calls : list ExtCall
}.

(** Handler code: it changes the world and returns or throws; what was
    done before a throw stays done. *)
Definition M (A : Type) : Type := World → Result A * World.

#[global] Instance M_ret : MRet M := fun A a w => (Ok a, w).
#[global] Instance M_bind : MBind M := fun A B f m w =>
  match m w with
  | (Ok a, w') => f a w'
  | (Throw msg, w') => (Throw msg, w')
  end.

Definition throw {A} (msg : string) : M A := fun w => (Throw msg, w).

(** [await x] for a promise that resolves or rejects. *)
Definition await {A} (r : Result A) : M A := fun w => (r, w).

(** [try { body } catch (error) { handler(error.message) }] *)
Definition try_catch (body : M unit) (handler : string → M unit) : M unit :=
  fun w =>
    match body w with
    | (Ok tt, w') => (Ok tt, w')
    | (Throw msg, w') => handler msg w'
    end.

Definition log_call (c : ExtCall) : M unit := fun w =>
  (Ok tt, {| manager := manager w; res := res w; ticks := ticks w;
             calls := calls w ++ [c] |}).

Definition with_res (f : Response → Response) : M unit := fun w =>
  (Ok tt, {| manager := manager w; res := f (res w); ticks := ticks w;
             calls := calls w |}).

(** [Date.now()] *)
Definition Date_now {C} (env : Env C) : M Z := fun w =>
  (Ok (clock env (ticks w)),
   {| manager := manager w; res := res w; ticks := S (ticks w);
      calls := calls w |}).

(** A call on the [conversationManager] singleton. *)
Definition on_manager {A}
    (f : ConversationManager.t → A * ConversationManager.t) : M A := fun w =>
  (Ok (f (manager w)).1,
   {| manager := (f (manager w)).2; res := res w; ticks := ticks w;
      calls := calls w |}).

(** [setupSSEResponse(res)] *)
Definition setupSSEResponse : M unit :=
  with_res (fun r =>
    {| rejected := rejected r;
       headers := headers r ++
         [("Content-Type", "text/event-stream"); ("Cache-Control", "no-cache");
          ("Connection", "keep-alive"); ("Access-Control-Allow-Origin", "*")];
       written := written r; ended := ended r |}).

(** [sendSSEEvent(res, type, data)] *)
Definition sendSSEEvent (e : TurnEvent) : M unit :=
  with_res (fun r =>
    {| rejected := rejected r; headers := headers r;
       written := written r ++ [e]; ended := ended r |}).

(** [res.end()] *)
Definition res_end : M unit :=
  with_res (fun r =>
    {| rejected := rejected r; headers := headers r;
       written := written r; ended := true |}).

(** [res.status(code).json({ error })] *)
Definition res_reject (code : nat) (error : string) : M unit :=
  with_res (fun r =>
    {| rejected := Some (code, error); headers := headers r;
       written := written r; ended := true |}).

(** [extractChunkContent(chunk)] on a message chunk. *)
Definition extractChunkContent {C} `{ChunkOps C} (chunk : C) : string :=
  if nonempty (chunk_content chunk) then chunk_content chunk else "".

Module StreamProcessor.

(** The loop of [executeToolCallsWithSSE]: the calls still to run and
    the [results] array so far. *)
Fixpoint executeLoop (tools : list Tool) (clientContext : option json)
    (toolCalls : list ToolCall) (results : list ToolResult)
    : M (list ToolResult) :=
  match toolCalls with
  | [] => mret results
  | toolCall :: rest =>
      match find_tool (tc_name toolCall) tools with
      | None =>
          sendSSEEvent
            (EvToolError (tc_name toolCall)
                         (not_found_message (tc_name toolCall)));;
          executeLoop tools clientContext rest results
      | Some tool =>
          let argsWithContext :=
            obj_set "_clientContext" (default JNull clientContext)
                    (tc_args toolCall) in
          log_call (CallTool (tc_name toolCall) argsWithContext);;
          match tool_invoke tool argsWithContext with
          | Ok toolResult =>
              sendSSEEvent (EvToolResult (tc_name toolCall) toolResult);;
              executeLoop tools clientContext rest
                (results ++
                 [{| tr_name := tc_name toolCall; tr_args := None;
                     tr_result := Some toolResult; tr_error := None |}])
          | Throw message =>
              sendSSEEvent (EvToolError (tc_name toolCall) message);;
              executeLoop tools clientContext rest results
          end
      end
  end.

(** [executeToolCallsWithSSE(toolCalls, tools, res, sessionId)] *)
Definition executeToolCallsWithSSE (toolCalls : list ToolCall)
    (tools : list Tool) (sessionId : string) : M (list ToolResult) :=
  clientContext ← on_manager (ConversationManager.getSessionContext sessionId);
  executeLoop tools clientContext toolCalls [].

End StreamProcessor.

Module Chat.
Section Route.
Context {C : Type} `{ChunkOps C}.
Variable env : Env C.

(** The first-pass loop: [accumulated] and [textParts] are the loop's
    two variables. *)
Fixpoint consumeFirstPass (stream : list C) (accumulated : option C)
    (textParts : list string) : M (option C * list string) :=
  match stream with
  | [] => mret (accumulated, textParts)
  | chunk :: rest =>
      let accumulated' :=
        match accumulated with
        | Some a => chunk_concat a chunk
        | None => chunk
        end in
      let textContent := extractChunkContent chunk in
      if nonempty textContent then
        sendSSEEvent (EvToken textContent);;
        consumeFirstPass rest (Some accumulated') (textParts ++ [textContent])
      else consumeFirstPass rest (Some accumulated') textParts
  end.

(** The synthesis loop over [synthesisStream]. *)
Fixpoint consumeSynthesis (stream : list C) (synthesisParts : list string)
    : M (list string) :=
  match stream with
  | [] => mret synthesisParts
  | chunk :: rest =>
      let text := chunk_content chunk in
      if nonempty text then
        sendSSEEvent (EvToken text);;
        consumeSynthesis rest (synthesisParts ++ [text])
      else consumeSynthesis rest synthesisParts
  end.

(** A [for await] loop ends by throwing when the iterable fails. *)
Definition end_of_stream (s : AsyncStream C) : M unit :=
  match failure s with
  | Some msg => throw msg
  | None => mret tt
  end.

(** [accumulated?.tool_calls], with [[]] for an absent value. *)
Definition accumulated_tool_calls (accumulated : option C) : list ToolCall :=
  match accumulated with
  | Some a => chunk_tool_calls a
  | None => []
  end.

Definition synthesis_prompt (ragContext : string) : string :=
  "You are a helpful assistant. Use the tool results and document context below to answer the user's question naturally and completely.

Document context:
" +:+ ragContext.

(** The [synthesisMessages] array. *)
Definition synthesisMessages (ragContext : string)
    (chatHistory : list BaseMessage) (message : string)
    (toolCalls : list ToolCall) (allToolResults : list ToolResult)
    : list BaseMessage :=
  [SystemMessage (synthesis_prompt ragContext)]
  ++ chatHistory
  ++ [HumanMessage message; AIMessage "" toolCalls]
  ++ ToolExecutor.buildToolMessages allToolResults toolCalls.

(** Lines 78-89: the tool step. *)
Definition toolStep (accumulated : option C) (sessionId : string)
    : M (list ToolResult) :=
  match accumulated_tool_calls accumulated with
  | [] => mret []
  | toolCalls =>
      sendSSEEvent (EvToolExecuting (map tc_name toolCalls));;
      results ← StreamProcessor.executeToolCallsWithSSE
                  toolCalls (tools env) sessionId;
      mret ([] ++ results)
  end.

(** Lines 91-119: the choice of [savedResponse]. *)
Definition answerStep (message : string) (chatHistory : list BaseMessage)
    (accumulated : option C) (textParts : list string)
    (allToolResults : list ToolResult) : M string :=
  match allToolResults with
  | _ :: _ =>
      log_call (CallRetriever message);;
      ragContext ← await (contextRetriever env message);
      let msgs :=
        synthesisMessages ragContext chatHistory message
          (accumulated_tool_calls accumulated) allToolResults in
      log_call (CallLlmStream msgs);;
      synthesisStream ← await (llm_stream env msgs);
      synthesisParts ← consumeSynthesis (chunks synthesisStream) [];
      end_of_stream synthesisStream;;
      mret (join_empty synthesisParts)
  | [] => mret (join_empty textParts)
  end.

(** [messages.push(msg)] on an array that a variable of the caller
    refers to too: what the variable shows afterwards. *)
Definition array_push (array : list BaseMessage) (msg : BaseMessage)
    : list BaseMessage :=
  array ++ [msg].

(** Lines 48-54: open the event stream, load the history and record the
    user's message. [chatHistory] is not a copy: [getMessages] returns
    the array the session's history object holds, and the [addMessage]
    that follows pushes the user's message onto that same array. So the
    array holds the user's message when the generation calls read it.
    A windowing pass that trims gives the history object a new array and
    leaves this one as it is, and nothing else writes to it before its
    last use in the synthesis call. What comes out of [openTurn] is the
    array as the generation calls find it. *)
Definition openTurn (message sessionId : string) : M (list BaseMessage) :=
  setupSSEResponse;;
  sendSSEEvent (EvSession sessionId);;
  t0 ← Date_now env;
  chatHistory ← on_manager
                  (ConversationManager.getMessages sessionId None t0);
  t1 ← Date_now env;
  on_manager (fun m =>
    (tt, ConversationManager.addMessage sessionId message true t1 m));;
  mret (array_push chatHistory (HumanMessage message)).

(** Lines 56-76: the first generation pass. *)
Definition firstPass (message : string) (chatHistory : list BaseMessage)
    : M (option C * list string) :=
  log_call CallGetChain;;
  await (getChain env);;
  log_call (CallRagStream message chatHistory);;
  stream ← await (ragChain_stream env message chatHistory);
  r ← consumeFirstPass (chunks stream) None [];
  end_of_stream stream;;
  mret r.

(** Lines 121-130: persist the answer, finish the stream, log. *)
Definition closeTurn (sessionId savedResponse : string) : M unit :=
  t2 ← Date_now env;
  on_manager (fun m =>
    (tt, ConversationManager.addMessage sessionId savedResponse false t2 m));;
  sendSSEEvent EvDone;;
  res_end;;
  t3 ← Date_now env;
  on_manager (ConversationManager.getMessages sessionId None t3);;
  mret tt.

(** The body of the [try] block. *)
Definition tryBlock (message sessionId : string) : M unit :=
  chatHistory ← openTurn message sessionId;
  '(accumulated, textParts) ← firstPass message chatHistory;
  allToolResults ← toolStep accumulated sessionId;
  savedResponse ← answerStep message chatHistory accumulated textParts
                    allToolResults;
  closeTurn sessionId savedResponse.

(** The [catch] block. *)
Definition catchBlock (message : string) : M unit :=
  sendSSEEvent (EvError message);;
  res_end.

(** [router.post('/')] *)
Definition post (body : RequestBody) : M unit :=
  match validateChatRequest body (uuidv4 env) with
  | Invalid error => res_reject 400 error
  | Valid message sessionId context =>
      match context with
      | Some c =>
          t ← Date_now env;
          on_manager (fun m =>
            (tt, ConversationManager.setSessionContext sessionId c t m))
      | None => mret tt
      end;;
      try_catch (tryBlock message sessionId) catchBlock
  end.

(** The world a request starts in, and the one it leaves. *)
Definition start (m : ConversationManager.t) (tick : nat) : World :=
  {| manager := m; res := fresh_response; ticks := tick; calls := [] |}.

Definition handle (body : RequestBody) (m : ConversationManager.t)
    (tick : nat) : World :=
  (post body (start m tick)).2.

(** [router.delete('/session/:sessionId')] *)
Definition deleteSession (sessionId : string) : M unit :=
  on_manager (fun m => (tt, ConversationManager.clearSession sessionId m)).

End Route.
End Chat.

(* ===================================================================== *)
(** * The protocol bridge: [client/src/app/api/chat/route.ts] *)
(* ===================================================================== *)

(** The runtime's [JSON.stringify] and [JSON.parse]; [None] is a thrown
    [SyntaxError]. *)
Class JSON := {
  JSON_stringify : json → string;
  JSON_parse : string → option json
}.

Definition LF : Ascii.ascii :=
  Ascii.Ascii false true false true false false false false.
Definition DQUOTE : Ascii.ascii :=
  Ascii.Ascii false true false false false true false false.
Definition nl : string := String LF "".
Definition quoted (s : string) : string :=
  String DQUOTE "" +:+ s +:+ String DQUOTE "".

(** [s.split('\n')]: never empty. *)
Fixpoint split_nl (s : string) : list string :=
  match s with
  | EmptyString => [""]
  | String c s' =>
      if Ascii.eqb c LF then "" :: split_nl s'
      else match split_nl s' with
           | [] => [String c ""]
           | l :: ls => String c l :: ls
           end
  end.

(** [s.slice(n)] for a non-negative [n]. *)
Fixpoint str_drop (n : nat) (s : string) : string :=
  match n, s with
  | O, _ => s
  | S n', String _ s' => str_drop n' s'
  | S _, EmptyString => ""
  end.

(** Does the string contain a line feed? *)
Fixpoint has_LF (s : string) : bool :=
  match s with
  | EmptyString => false
  | String c s' => Ascii.eqb c LF || has_LF s'
  end.

(** The pending part of a text, what follows its last line feed. *)
Definition pending (s : string) : string := default "" (last (split_nl s)).

Section Wire.
Context `{JSON}.

(** What [sendSSEEvent] writes for an event. *)
Definition sse_line (e : TurnEvent) : string :=
  "data: " +:+ JSON_stringify (sse_payload e).

Definition sse_frame (e : TurnEvent) : string :=
  sse_line e +:+ nl +:+ nl.

(** The text of a whole stage-1 response. *)
Definition sse_text (es : list TurnEvent) : string :=
  foldr (fun e rest => sse_frame e +:+ rest) "" es.
(** The lines of a stage-1 text: for each event its data line and the
    empty line that ends the frame. *)
Definition frame_lines (es : list TurnEvent) : list string :=
  flat_map (fun e => [sse_line e; ""]) es.
End Wire.

Module Bridge.
Section Codec.
Context `{JSON}.

(** The body of the backend's response, as the reader delivers it: the
    decoded text of each read, then the end of the stream or an error. *)
Record Upstream := mkUpstream {
  reads : list string;
  read_error : option string
}.

(** The [ReadableStream]'s controller. *)
Record Controller := mkController {
  enqueued : list string;
  closed : bool
}.

Definition enqueue (chunk : string) (ctl : Controller) : Controller :=
  {| enqueued := enqueued ctl ++ [chunk]; closed := closed ctl |}.

Definition close (ctl : Controller) : Controller :=
  {| enqueued := enqueued ctl; closed := true |}.

(** The controller a stream starts with. *)
Definition fresh : Controller := {| enqueued := []; closed := false |}.

Definition finish_line : string :=
  "d:{" +:+ quoted "finishReason" +:+ ":" +:+ quoted "stop" +:+ ","
  +:+ quoted "usage" +:+ ":{" +:+ quoted "promptTokens" +:+ ":0,"
  +:+ quoted "completionTokens" +:+ ":0}}" +:+ nl.

(** [`${JSON.stringify(v)}`] where [v] may be undefined. *)
Definition stringify_template (v : option json) : string :=
  match v with
  | Some j => JSON_stringify j
  | None => "undefined"
  end.

(** An object literal: [JSON.stringify] leaves out undefined fields. *)
Definition object_literal (fields : list (string * option json)) : json :=
  JObj (omap (fun kv => pair kv.1 <$> kv.2) fields).

Definition annotation (fields : list (string * option json)) : string :=
  "2:" +:+ JSON_stringify (JArr [object_literal fields]) +:+ nl.

(** What one line of input makes the loop do. *)
Inductive LineAction : Type :=
| Skip
| Emit (chunk : string)
| Finish.

(** The [switch (event.type)] on a parsed object. *)
Definition switch_event (event : jsobject) : LineAction :=
  match obj_get "type" event with
  | Some (JStr ty) =>
      if String.eqb ty "token" then
        Emit ("0:" +:+ stringify_template (obj_get "content" event) +:+ nl)
      else if String.eqb ty "tool_executing" then
        Emit (annotation [("type", Some (JStr "tool_executing"));
                          ("tools", obj_get "tools" event)])
      else if String.eqb ty "tool_result" then
        Emit (annotation [("type", Some (JStr "tool_result"));
                          ("tool", obj_get "tool" event);
                          ("result", obj_get "result" event)])
      else if String.eqb ty "tool_error" then
        Emit (annotation [("type", Some (JStr "tool_error"));
                          ("tool", obj_get "tool" event);
                          ("error", obj_get "error" event)])
      else if String.eqb ty "session" then
        Emit (annotation [("type", Some (JStr "session"));
                          ("sessionId", obj_get "sessionId" event)])
      else if String.eqb ty "error" then
        Emit ("3:" +:+
              JSON_stringify
                (match obj_get "message" event with
                 | None | Some JNull => JStr "Unknown error"
                 | Some v => v
                 end) +:+ nl)
      else if String.eqb ty "done" then Finish
      else Skip
  | _ => Skip
  end.

(** The body of [for (const line of lines)]. A line that does not parse,
    and a parsed [null] (reading [.type] of it throws), land in the
    empty [catch]; other non-objects have no [type]. *)
Definition handle_line (line : string) : LineAction :=
  if String.prefix "data: " line then
    match JSON_parse (str_drop 6 line) with
    | Some (JObj event) => switch_event event
    | _ => Skip
    end
  else Skip.

(** The [for] loop; [true] when it returned from [start] on [done]. *)
Fixpoint processLines (lines : list string) (ctl : Controller)
    : bool * Controller :=
  match lines with
  | [] => (false, ctl)
  | line :: rest =>
      match handle_line line with
      | Skip => processLines rest ctl
      | Emit chunk => processLines rest (enqueue chunk ctl)
      | Finish => (true, close (enqueue finish_line ctl))
      end
  end.

(** The [while (true)] loop over the reads that deliver data. *)
Fixpoint pump (values : list string) (buffer : string) (ctl : Controller)
    : bool * Controller :=
  match values with
  | [] => (false, ctl)
  | value :: rest =>
      let lines := split_nl (buffer +:+ value) in
      let buffer' := default "" (last lines) in
      match processLines (removelast lines) ctl with
      | (true, ctl') => (true, ctl')
      | (false, ctl') => pump rest buffer' ctl'
      end
  end.

(** [start(controller)] *)
Definition start (up : Upstream) : Controller :=
  match pump (reads up) "" fresh with
  | (true, ctl) => ctl
  | (false, ctl) =>
      match read_error up with
      | None => close (enqueue finish_line ctl)
      | Some msg =>
          close (enqueue ("3:" +:+ JSON_stringify (JStr msg) +:+ nl) ctl)
      end
  end.

(** The target line of each event, as the mapping table gives it. *)
Definition stage2_line (e : TurnEvent) : string :=
  match e with
  | EvToken c => "0:" +:+ JSON_stringify (JStr c) +:+ nl
  | EvToolExecuting ts =>
      "2:" +:+ JSON_stringify
        (JArr [JObj [("type", JStr "tool_executing");
                     ("tools", JArr (map JStr ts))]]) +:+ nl
  | EvToolResult t r =>
      "2:" +:+ JSON_stringify
        (JArr [JObj [("type", JStr "tool_result"); ("tool", JStr t);
                     ("result", JStr r)]]) +:+ nl
  | EvToolError t err =>
      "2:" +:+ JSON_stringify
        (JArr [JObj [("type", JStr "tool_error"); ("tool", JStr t);
                     ("error", JStr err)]]) +:+ nl
  | EvSession sid =>
      "2:" +:+ JSON_stringify
        (JArr [JObj [("type", JStr "session"); ("sessionId", JStr sid)]])
      +:+ nl
  | EvError msg => "3:" +:+ JSON_stringify (JStr msg) +:+ nl
  | EvDone => finish_line
  end.

Definition is_text_part (line : string) : bool := String.prefix "0:" line.
Definition is_finish_part (line : string) : bool := String.prefix "d:" line.

(** The complete lines of a text: all but what follows the last line
    feed. *)
Definition complete_lines (text : string) : list string :=
  removelast (split_nl text).

Definition concat_reads (values : list string) : string :=
  foldr String.append "" values.

(** The chunks the complete lines of a text make the loop enqueue when
    none of them is a [done] event. *)
Definition emitted (lines : list string) : list string :=
  omap (fun l => match handle_line l with
                 | Emit chunk => Some chunk
                 | _ => None
                 end) lines.

Definition is_done_line (line : string) : bool :=
  match handle_line line with Finish => true | _ => false end.

End Codec.
End Bridge.

(* ===================================================================== *)
(** * A reference JSON codec, to run the models on concrete inputs *)
(* ===================================================================== *)

Module MiniJSON.

Definition ch (s : string) : Ascii.ascii :=
  match s with
  | String c _ => c
  | EmptyString => Ascii.zero
  end.

Definition BACKSLASH : Ascii.ascii :=
  Ascii.Ascii false false true true true false true false.

(** String escaping: the quote, the backslash and the line feed. *)
Fixpoint escape (s : string) : string :=
  match s with
  | EmptyString => ""
  | String c s' =>
      if Ascii.eqb c DQUOTE then
        String BACKSLASH (String DQUOTE (escape s'))
      else if Ascii.eqb c BACKSLASH then
        String BACKSLASH (String BACKSLASH (escape s'))
      else if Ascii.eqb c LF then
        String BACKSLASH (String (ch "n") (escape s'))
      else String c (escape s')
  end.

Fixpoint join_comma (parts : list string) : string :=
  match parts with
  | [] => ""
  | [x] => x
  | x :: rest => x +:+ "," +:+ join_comma rest
  end.

Fixpoint stringify (j : json) : string :=
  match j with
  | JNull => "null"
  | JBool b => if b then "true" else "false"
  | JNum n => pretty n
  | JStr s => quoted (escape s)
  | JArr items => "[" +:+ join_comma (List.map stringify items) +:+ "]"
  | JObj fields =>
      "{" +:+
      join_comma
        (List.map (fun kv => match kv with
                             | (k, v) => quoted (escape k) +:+ ":" +:+ stringify v
                             end) fields)
      +:+ "}"
  end.

(** The characters of a string literal up to its closing quote. *)
Fixpoint parse_string (s : string) (acc : string) : option (string * string) :=
  match s with
  | EmptyString => None
  | String c r =>
      if Ascii.eqb c DQUOTE then Some (acc, r)
      else if Ascii.eqb c BACKSLASH then
        match r with
        | String d r' =>
            if Ascii.eqb d DQUOTE then
              parse_string r' (acc +:+ String DQUOTE "")
            else if Ascii.eqb d BACKSLASH then
              parse_string r' (acc +:+ String BACKSLASH "")
            else if Ascii.eqb d (ch "n") then
              parse_string r' (acc +:+ nl)
            else None
        | EmptyString => None
        end
      else parse_string r (acc +:+ String c "")
  end.

Definition digit (c : Ascii.ascii) : option nat :=
  let n := Ascii.nat_of_ascii c in
  if (48 <=? n)%nat && (n <=? 57)%nat then Some (n - 48)%nat else None.

Fixpoint parse_digits (s : string) (acc : nat) : nat * string :=
  match s with
  | String c r =>
      match digit c with
      | Some d => parse_digits r (10 * acc + d)%nat
      | None => (acc, s)
      end
  | EmptyString => (acc, s)
  end.

Fixpoint parse_value (fuel : nat) (s : string) {struct fuel}
    : option (json * string) :=
  match fuel with
  | O => None
  | S f =>
      match s with
      | EmptyString => None
      | String c r =>
          if Ascii.eqb c DQUOTE then
            match parse_string r "" with
            | Some (str, r') => Some (JStr str, r')
            | None => None
            end
          else if Ascii.eqb c (ch "[") then
            match r with
            | String d r' =>
                if Ascii.eqb d (ch "]") then Some (JArr [], r')
                else parse_items f r []
            | EmptyString => None
            end
          else if Ascii.eqb c (ch "{") then
            match r with
            | String d r' =>
                if Ascii.eqb d (ch "}") then Some (JObj [], r')
                else parse_members f r []
            | EmptyString => None
            end
          else if String.prefix "null" s then Some (JNull, str_drop 4 s)
          else if String.prefix "true" s then Some (JBool true, str_drop 4 s)
          else if String.prefix "false" s then
            Some (JBool false, str_drop 5 s)
          else match digit c with
               | Some _ =>
                   let '(n, r') := parse_digits s 0%nat in Some (JNum n, r')
               | None => None
               end
      end
  end
with parse_items (fuel : nat) (s : string) (acc : list json) {struct fuel}
    : option (json * string) :=
  match fuel with
  | O => None
  | S f =>
      match parse_value f s with
      | Some (v, String c r) =>
          if Ascii.eqb c (ch ",") then parse_items f r (acc ++ [v])
          else if Ascii.eqb c (ch "]") then Some (JArr (acc ++ [v]), r)
          else None
      | _ => None
      end
  end
with parse_members (fuel : nat) (s : string) (acc : jsobject) {struct fuel}
    : option (json * string) :=
  match fuel with
  | O => None
  | S f =>
      match s with
      | String q r =>
          if Ascii.eqb q DQUOTE then
            match parse_string r "" with
            | Some (k, String colon r') =>
                if Ascii.eqb colon (ch ":") then
                  match parse_value f r' with
                  | Some (v, String c r'') =>
                      if Ascii.eqb c (ch ",") then
                        parse_members f r'' (acc ++ [(k, v)])
                      else if Ascii.eqb c (ch "}") then
                        Some (JObj (acc ++ [(k, v)]), r'')
                      else None
                  | _ => None
                  end
                else None
            | _ => None
            end
          else None
      | EmptyString => None
      end
  end.

Definition parse (s : string) : option json :=
  match parse_value (2 * String.length s + 2) s with
  | Some (j, EmptyString) => Some j
  | _ => None
  end.

#[export] Instance codec : JSON :=
  {| JSON_stringify := stringify; JSON_parse := parse |}.

End MiniJSON.

(* ===================================================================== *)
(** * Vocabulary of the statements *)
(* ===================================================================== *)

(** Worlds differ from one another by the events written, the calls made,
    the clock readings taken and the manager. *)
Definition extend (es : list TurnEvent) (cs : list ExtCall) (w : World) : World :=
  {| manager := manager w;
     res := {| rejected := rejected (res w); headers := headers (res w);
               written := written (res w) ++ es; ended := ended (res w) |};
     ticks := ticks w;
     calls := calls w ++ cs |}.

Definition tickw (w : World) : World :=
  {| manager := manager w; res := res w; ticks := S (ticks w);
     calls := calls w |}.

Definition setm (m : ConversationManager.t) (w : World) : World :=
  {| manager := m; res := res w; ticks := ticks w; calls := calls w |}.

Definition endw (w : World) : World :=
  {| manager := manager w;
     res := {| rejected := rejected (res w); headers := headers (res w);
               written := written (res w); ended := true |};
     ticks := ticks w; calls := calls w |}.

Definition sse_headers : list (string * string) :=
  [("Content-Type", "text/event-stream"); ("Cache-Control", "no-cache");
   ("Connection", "keep-alive"); ("Access-Control-Allow-Origin", "*")].

Definition setupw (w : World) : World :=
  {| manager := manager w;
     res := {| rejected := rejected (res w);
               headers := headers (res w) ++ sse_headers;
               written := written (res w); ended := ended (res w) |};
     ticks := ticks w; calls := calls w |}.

(** What one iteration of the tool loop does for a call: the event it
    sends, the result it pushes (if any) and the invocation it makes (if
    any). *)
Definition callOutcome (tools : list Tool) (clientContext : option json)
    (toolCall : ToolCall) : TurnEvent * list ToolResult * list ExtCall :=
  match find_tool (tc_name toolCall) tools with
  | None =>
      (EvToolError (tc_name toolCall) (not_found_message (tc_name toolCall)),
       [], [])
  | Some tool =>
      let args :=
        obj_set "_clientContext" (default JNull clientContext)
                (tc_args toolCall) in
      match tool_invoke tool args with
      | Ok r =>
          (EvToolResult (tc_name toolCall) r,
           [{| tr_name := tc_name toolCall; tr_args := None;
               tr_result := Some r; tr_error := None |}],
           [CallTool (tc_name toolCall) args])
      | Throw msg =>
          (EvToolError (tc_name toolCall) msg, [],
           [CallTool (tc_name toolCall) args])
      end
  end.

Definition loopEvents (tools : list Tool) (ctx : option json)
    (toolCalls : list ToolCall) : list TurnEvent :=
  map (fun c => (callOutcome tools ctx c).1.1) toolCalls.

Definition loopResults (tools : list Tool) (ctx : option json)
    (toolCalls : list ToolCall) : list ToolResult :=
  flat_map (fun c => (callOutcome tools ctx c).1.2) toolCalls.

Definition loopCalls (tools : list Tool) (ctx : option json)
    (toolCalls : list ToolCall) : list ExtCall :=
  flat_map (fun c => (callOutcome tools ctx c).2) toolCalls.

(** The first-pass accumulator after a run of chunks. *)
Definition accumulate {C} `{ChunkOps C} (accumulated : option C)
    (stream : list C) : option C :=
  foldl (fun acc chunk =>
           Some (match acc with
                 | Some a => chunk_concat a chunk
                 | None => chunk
                 end)) accumulated stream.

(** The non-empty text fragments of a run of chunks. *)
Definition texts {C} `{ChunkOps C} (stream : list C) : list string :=
  filter (fun s => nonempty s = true) (map chunk_content stream).

Definition is_tool_result (e : TurnEvent) : bool :=
  match e with EvToolResult _ _ => true | _ => false end.

Section TurnWorlds.
Context {C : Type} `{ChunkOps C}.
Variable env : Env C.

(** The world [openTurn] leaves. *)
Definition opened (message sid : string) (w : World) : World :=
  setm (ConversationManager.addMessage sid message true
          (clock env (S (ticks w)))
          (ConversationManager.getMessages sid None (clock env (ticks w))
             (manager w)).2)
       (tickw (tickw (extend [EvSession sid] [] (setupw w)))).

(** The world [closeTurn] leaves. *)
Definition finished (sid savedResponse : string) (w : World) : World :=
  setm (ConversationManager.getMessages sid None (clock env (S (ticks w)))
          (ConversationManager.addMessage sid savedResponse false
             (clock env (ticks w)) (manager w))).2
       (tickw (tickw (endw (extend [EvDone] [] w)))).

(** The world the [catch] block leaves. *)
Definition failed (msg : string) (w : World) : World :=
  endw (extend [EvError msg] [] w).

(** The world the [try] block starts in: the context, if any, is stored
    first. *)
Definition contextualised (sid : string) (ctx : option json)
    (m : ConversationManager.t) (tick : nat) : World :=
  match ctx with
  | Some c =>
      setm (ConversationManager.setSessionContext sid c (clock env tick) m)
           (tickw (Chat.start m tick))
  | None => Chat.start m tick
  end.

End TurnWorlds.

(* ===================================================================== *)
(** * Concrete inputs *)
(* ===================================================================== *)

Module Examples.

(** Calls on a fresh manager: twelve appends to [s1], among reads,
    context updates, a windowing pass and traffic on another session. *)
Definition busy_run : list ConversationManager.Mutation :=
  let add := ConversationManager.MAddMessage in
  [ConversationManager.MGetMessages "s1" None 0;
   add "s1" "m1" true 1; add "s1" "m2" false 2;
   ConversationManager.MSetContext "s1" (JObj [("bookId", JStr "b7")]) 3;
   add "s1" "m3" true 4; add "s2" "other" true 5; add "s1" "m4" false 6;
   add "s1" "m5" true 7; add "s1" "m6" false 8;
   ConversationManager.MClear "s2";
   add "s1" "m7" true 9; add "s1" "m8" false 10; add "s1" "m9" true 11;
   ConversationManager.MWindow "s1";
   add "s1" "m10" false 12; add "s1" "m11" true 13;
   ConversationManager.MGetOrCreate "s1" 14; add "s1" "m12" false 15].

(** A chunk to run the route on: its text and the tool calls complete in
    it; concatenation appends both. *)
Record SimpleChunk := mkChunk {
  sc_content : string;
  sc_tool_calls : list ToolCall
}.

#[export] Instance simple_chunk_ops : ChunkOps SimpleChunk :=
  {| chunk_content := sc_content;
     chunk_concat a b :=
       mkChunk (sc_content a +:+ sc_content b)
               (sc_tool_calls a ++ sc_tool_calls b);
     chunk_tool_calls := sc_tool_calls |}.

(** The registry: [list_documents] answers, [summarize_topic] throws. *)
Definition list_documents : Tool :=
  {| tool_name := "list_documents";
     tool_invoke _ := Ok "No documents have been ingested yet." |}.

Definition summarize_topic : Tool :=
  {| tool_name := "summarize_topic";
     tool_invoke _ := Throw "vector store unavailable" |}.

Definition registry : list Tool := [list_documents; summarize_topic].

Definition call_unknown : ToolCall :=
  {| tc_id := Some "call_a"; tc_name := "search_web"; tc_args := [] |}.
Definition call_summarize : ToolCall :=
  {| tc_id := Some "call_b"; tc_name := "summarize_topic";
     tc_args := [("topic", JStr "pricing")] |}.
Definition call_list : ToolCall :=
  {| tc_id := Some "call_c"; tc_name := "list_documents"; tc_args := [] |}.

Definition question : string := "What are the key points?".

Definition body_s1 : RequestBody :=
  {| body_message := Some (JStr question); body_sessionId := Some "s1";
     body_context := None |}.

Definition text_stream : AsyncStream SimpleChunk :=
  mkStream [mkChunk "Key" []; mkChunk " points" []; mkChunk " are..." []]
           None.

Definition synthesis_stream : AsyncStream SimpleChunk :=
  mkStream [mkChunk "Nothing has " []; mkChunk "" [];
            mkChunk "been ingested." []] None.

(** A turn with no tool call. *)
Definition env_plain : Env SimpleChunk :=
  {| clock n := 1000 * Z.of_nat n;
     uuidv4 := "generated-id";
     getChain := Ok tt;
     tools := registry;
     ragChain_stream _ _ := Ok text_stream;
     contextRetriever _ := Ok "[Document 1]";
     llm_stream _ := Ok synthesis_stream |}.

(** A turn whose first pass asks for [list_documents]. *)
Definition env_tool : Env SimpleChunk :=
  {| clock n := 1000 * Z.of_nat n;
     uuidv4 := "generated-id";
     getChain := Ok tt;
     tools := registry;
     ragChain_stream _ _ := Ok (mkStream [mkChunk "" [call_list]] None);
     contextRetriever _ := Ok "[Document 1]";
     llm_stream _ := Ok synthesis_stream |}.

(** A turn whose first pass says something and asks for a tool that is
    not registered. *)
Definition env_unknown_tool : Env SimpleChunk :=
  {| clock n := 1000 * Z.of_nat n;
     uuidv4 := "generated-id";
     getChain := Ok tt;
     tools := registry;
     ragChain_stream _ _ :=
       Ok (mkStream [mkChunk "Let me check." [call_unknown]] None);
     contextRetriever _ := Ok "[Document 1]";
     llm_stream _ := Ok synthesis_stream |}.

(** A turn whose generation service cannot be reached. *)
Definition env_down : Env SimpleChunk :=
  {| clock n := 1000 * Z.of_nat n;
     uuidv4 := "generated-id";
     getChain := Throw "connect ECONNREFUSED";
     tools := registry;
     ragChain_stream _ _ := Ok text_stream;
     contextRetriever _ := Ok "[Document 1]";
     llm_stream _ := Ok synthesis_stream |}.

(** A stage-1 response, serialised by the reference codec and delivered
    in two reads that cut the first line in the middle. *)
Definition stage1_events : list TurnEvent :=
  [EvSession "s1"; EvToken "Key"; EvToolExecuting ["list_documents"];
   EvToolResult "list_documents" "none"; EvToken (" points" +:+ nl)].

Definition two_reads (text : string) : list string :=
  ["da"; "ta: " +:+ str_drop 6 text].

Definition stage1_reads : list string :=
  two_reads (sse_text (H := MiniJSON.codec) (stage1_events ++ [EvDone])).

Definition stage1_reads_without_done : list string :=
  two_reads (sse_text (H := MiniJSON.codec) stage1_events).

End Examples.

(** The events a turn sends between its first and its last: tokens and
    tool events. *)
Definition is_stream_body (e : TurnEvent) : bool :=
  match e with
  | EvToken _ | EvToolExecuting _ | EvToolResult _ _ | EvToolError _ _ => true
  | _ => false
  end.

(* ===================================================================== *)
(** * The session routes of [server/routes/chat.js] *)
(* ===================================================================== *)

Module SessionRoutes.

(** What [res.json] is given; the status is 200 unless [res.status] set
    it. Neither manager call throws, so the [catch] blocks with their
    500 are never entered. *)
Inductive ReplyBody : Type :=
| Message (message : string)          (* [{ success: true, message }] *)
| Failure (error : string)            (* [{ success: false, error }] *)
| SessionInfo (session : string * nat * Z * Z).
                                      (* [{ success: true, session }] *)

Definition Reply : Type := nat * ReplyBody.

(** [router.delete('/session/:sessionId')] *)
Definition delete_session (sessionId : string) (m : ConversationManager.t)
    : Reply * ConversationManager.t :=
  let m' := ConversationManager.clearSession sessionId m in
  ((200%nat, Message ("Session " +:+ sessionId +:+ " cleared successfully")),
   m').

(** [router.get('/session/:sessionId')]; [now] is what [Date.now()]
    returns inside [getSessionInfo]. *)
Definition get_session (sessionId : string) (now : Z)
    (m : ConversationManager.t) : Reply * ConversationManager.t :=
  match ConversationManager.getSessionInfo sessionId now m with
  | None => ((404%nat, Failure "Session not found"), m)
  | Some sessionInfo => ((200%nat, SessionInfo sessionInfo), m)
  end.

End SessionRoutes.

(* ===================================================================== *)
(** * The remaining helpers of the tool code *)
(* ===================================================================== *)

(** [parseToolCallChunk(chunk)] of [toolExecutor.js], on the two fields
    of the chunk it reads; [None] is an absent field on the way in and
    [null] on the way out. *)
Definition parseToolCallChunk {A} (tool_call_chunks tool_calls
    : option (list A)) : option (list A) :=
  if match tool_call_chunks with
     | Some l => (0 <? length l)%nat
     | None => false
     end
  then tool_call_chunks
  else if match tool_calls with
          | Some l => (0 <? length l)%nat
          | None => false
          end
  then tool_calls
  else None.



(* ===================================================================== *)
(** * Storing a file's chunks: the batch loop of [ingestDocuments] *)
(* ===================================================================== *)

Module Ingest.

(** What [progressCallback] is called with while a file is stored. *)
Inductive Progress : Type :=
| ChunksStart (file : string) (total : nat)
| BatchStored (file : string) (stored total : nat)
| FileDone (file : string).

Section Loop.
(** The split documents and the vector store: [addDocuments] resolves
    or rejects, and changes the store either way. *)
Context {Doc Store : Type}.
Variable addDocuments : list Doc → Store → Result unit * Store.

(** The variables of the loop, the store, and what went out: the
    batches handed to [addDocuments] and the calls of the callback. *)
Record LoopState := mkLoop {
  successfulChunks : nat;
  failedChunks : nat;
  vectorStore : Store;
  submitted : list (list Doc);
  progress : list Progress
}.

Definition batchSize : nat := 10.

(** [for (let i = 0; i < splitDocs.length; i += batchSize)], from a
    given [i]; [None] is a loop that has not ended within [fuel]
    iterations. *)
Fixpoint batchLoop (fuel : nat) (basename : string) (splitDocs : list Doc)
    (i : nat) (st : LoopState) {struct fuel} : option LoopState :=
  if (i <? length splitDocs)%nat then
    match fuel with
    | O => None
    | S fuel' =>
        let batch := take batchSize (drop i splitDocs) in
        match addDocuments batch (vectorStore st) with
        | (Ok _, store') =>
            let stored := (successfulChunks st + length batch)%nat in
            batchLoop fuel' basename splitDocs (i + batchSize)
              {| successfulChunks := stored;
                 failedChunks := failedChunks st;
                 vectorStore := store';
                 submitted := submitted st ++ [batch];
                 progress := progress st ++
                   [BatchStored basename stored (length splitDocs)] |}
        | (Throw _, store') =>
            batchLoop fuel' basename splitDocs (i + batchSize)
              {| successfulChunks := successfulChunks st;
                 failedChunks := (failedChunks st + length batch)%nat;
                 vectorStore := store';
                 submitted := submitted st ++ [batch];
                 progress := progress st |}
        end
    end
  else Some st.

(** One file, from [chunks_start] to [file_done]. *)
Definition storeFile (fuel : nat) (basename : string) (splitDocs : list Doc)
    (store : Store) : option LoopState :=
  st ← batchLoop fuel basename splitDocs 0
         {| successfulChunks := 0; failedChunks := 0; vectorStore := store;
            submitted := [];
            progress := [ChunksStart basename (length splitDocs)] |};
  Some {| successfulChunks := successfulChunks st;
          failedChunks := failedChunks st;
          vectorStore := vectorStore st;
          submitted := submitted st;
          progress := progress st ++ [FileDone basename] |}.

(** What the callback should hear of batches, told from the batches
    alone: going through them in order, the store taking or rejecting
    each, one report per batch the store took, giving the number of
    chunks it has taken so far; [stored] is that number before the first
    batch. *)
Fixpoint stored_reports (batches : list (list Doc)) (store : Store)
    (stored : nat) : list nat :=
  match batches with
  | [] => []
  | batch :: rest =>
      match addDocuments batch store with
      | (Ok _, store') =>
          (stored + length batch)%nat
          :: stored_reports rest store' (stored + length batch)
      | (Throw _, store') => stored_reports rest store' stored
      end
  end.

End Loop.

End Ingest.

(* ===================================================================== *)
(** * The bridge's request handler: [POST] of [route.ts] *)
(* ===================================================================== *)

Module BridgePost.
Section Codec.
Context `{JSON}.

(** The parsed request body, as far as the handler reads it:
    [messages] is absent or an array; the other two fields are passed
    on as they are. *)
Record BridgeRequest := mkBridgeRequest {
  messages : option (list json);
  sessionId : option json;
  context : option json
}.

(** What [fetch] resolves to: the status, and the body if there is
    one. *)
Record BackendResponse := mkBackendResponse {
  backend_status : nat;
  backend_body : option Bridge.Upstream
}.

(** [Response.ok] *)
Definition backend_ok (r : BackendResponse) : bool :=
  (200 <=? backend_status r)%nat && (backend_status r <=? 299)%nat.

(** The handler's [Response]: its body is given as the chunks it is
    made of. *)
Record BridgeResponse := mkBridgeResponse {
  status : nat;
  response_headers : list (string * string);
  response_body : list string
}.

(** [body.messages?.at(-1)?.content ?? ''] *)
Definition last_content (body : BridgeRequest) : json :=
  match messages body with
  | None => JStr ""
  | Some l =>
      match last l with
      | Some (JObj fields) =>
          match obj_get "content" fields with
          | None | Some JNull => JStr ""
          | Some content => content
          end
      | _ => JStr ""
      end
  end.

Definition data_stream_headers : list (string * string) :=
  [("Content-Type", "text/plain; charset=utf-8");
   ("X-Vercel-AI-Data-Stream", "v1")].

(** [`3:${JSON.stringify(msg)}\n`] *)
Definition error_part (msg : string) : string :=
  "3:" +:+ JSON_stringify (JStr msg) +:+ nl.

(** [POST(req)]; [fetch] is the call to the backend, given the request
    text, which resolves or rejects with an [Error]. *)
Definition POST (fetch : string → Result BackendResponse)
    (body : BridgeRequest) : BridgeResponse :=
  let message := last_content body in
  if negb (js_truthy message) then
    {| status := 400;
       response_headers := [("Content-Type", "application/json")];
       response_body :=
         [JSON_stringify (JObj [("error", JStr "No message provided")])] |}
  else
    match fetch (JSON_stringify
                   (Bridge.object_literal
                      [("message", Some message);
                       ("sessionId", sessionId body);
                       ("context", context body)])) with
    | Throw msg =>
        {| status := 200; response_headers := data_stream_headers;
           response_body := [error_part msg] |}
    | Ok backendRes =>
        match (if backend_ok backendRes then backend_body backendRes
               else None) with
        | None =>
            {| status := 200; response_headers := data_stream_headers;
               response_body :=
                 [error_part
                    ("Backend error: " +:+ pretty (backend_status backendRes))]
            |}
        | Some upstream =>
            {| status := 200; response_headers := data_stream_headers;
               response_body := Bridge.enqueued (Bridge.start upstream) |}
        end
    end.

Definition is_error_part (line : string) : bool := String.prefix "3:" line.

End Codec.
End BridgePost.

(* ===================================================================== *)
(** * Properties of the session store *)
(* ===================================================================== *)

Module SessionStore.
Import ConversationManager Examples.

Lemma max_with_sessions f m :
  maxMessagesPerSession (with_sessions f m) = maxMessagesPerSession m.
Proof. reflexivity. Qed.

Lemma sessions_with_sessions f m :
  sessions (with_sessions f m) = f (sessions m).
Proof. reflexivity. Qed.

(** A manager is its four fields. *)
Lemma manager_eq (m1 m2 : t) :
  sessions m1 = sessions m2 →
  sessionTimeout m1 = sessionTimeout m2 →
  cleanupInterval m1 = cleanupInterval m2 →
  maxMessagesPerSession m1 = maxMessagesPerSession m2 →
  m1 = m2.
Proof. destruct m1, m2; simpl; intros; subst; reflexivity. Qed.

(** The re-adding loop of the windowing rebuilds the kept messages. *)
Lemma refill_history (s : Session) (keep : list BaseMessage) :
  foldl (fun s' msg => history_addMessage msg s') s keep
  = {| history := history s ++ keep;
       lastAccessed := lastAccessed s; context := context s |}.
Proof.
  revert s. induction keep as [|msg keep IH]; intros s; simpl.
  - rewrite app_nil_r. by destruct s.
  - rewrite IH. simpl. by rewrite <- app_assoc.
Qed.

Lemma window_last_n (w : Z) (l : list BaseMessage) :
  1 ≤ w → window w l = last_n (Z.to_nat w) l.
Proof.
  intros Hw. unfold window, last_n, js_slice_from.
  destruct (Z.ltb_spec w (Z.of_nat (length l))) as [Hlt|Hge].
  - destruct (Z.ltb_spec (- w) 0); [|lia].
    f_equal. lia.
  - replace (length l - Z.to_nat w)%nat with 0%nat by lia. reflexivity.
Qed.

Lemma length_last_n {A} (w : nat) (l : list A) :
  length (last_n w l) = Nat.min (length l) w.
Proof. unfold last_n. rewrite length_drop. lia. Qed.

Lemma last_n_app_absorb {A} (w : nat) (l r : list A) :
  last_n w (last_n w l ++ r) = last_n w (l ++ r).
Proof.
  unfold last_n. rewrite !length_app, length_drop.
  set (k := (length l - w)%nat).
  destruct (decide (length l ≤ w)%nat) as [Hle|Hgt].
  - replace k with 0%nat by lia. simpl. f_equal. lia.
  - replace (length l - k + length r - w)%nat with (length r) by lia.
    replace (length l + length r - w)%nat with (k + length r)%nat by lia.
    rewrite <- drop_drop. f_equal.
    rewrite drop_app_le by lia. reflexivity.
Qed.

Lemma lookup_getOrCreate sid now m sid' :
  sessions (getOrCreateSession sid now m).2 !! sid'
  = if decide (sid = sid') then
      Some (match sessions m !! sid with
            | None => {| history := []; lastAccessed := now; context := None |}
            | Some s => set_lastAccessed now s
            end)
    else sessions m !! sid'.
Proof.
  unfold getOrCreateSession. simpl.
  destruct (sessions m !! sid) eqn:E; simpl;
    rewrite lookup_insert; by case_decide.
Qed.

Lemma max_getOrCreate sid now m :
  maxMessagesPerSession (getOrCreateSession sid now m).2
  = maxMessagesPerSession m.
Proof.
  unfold getOrCreateSession. simpl. by destruct (sessions m !! sid).
Qed.

Lemma clearSession_delete sid m :
  clearSession sid m = with_sessions (delete sid) m.
Proof.
  unfold clearSession. destruct (sessions m !! sid) eqn:E.
  - apply manager_eq; try done. simpl. by rewrite delete_insert_eq.
  - apply manager_eq; try done. simpl. by rewrite delete_id.
Qed.

Lemma max_applyMessageWindowing sid m :
  maxMessagesPerSession (applyMessageWindowing sid m)
  = maxMessagesPerSession m.
Proof.
  unfold applyMessageWindowing.
  destruct (sessions m !! sid); [|done]. simpl. by case_match.
Qed.

Lemma lookup_applyMessageWindowing sid m sid' :
  sessions (applyMessageWindowing sid m) !! sid'
  = if decide (sid = sid') then
      (fun s => {| history := window (maxMessagesPerSession m) (history s);
                   lastAccessed := lastAccessed s; context := context s |})
        <$> sessions m !! sid
    else sessions m !! sid'.
Proof.
  unfold applyMessageWindowing, window.
  destruct (sessions m !! sid) as [s|] eqn:E; simpl.
  - case_match; simpl.
    + rewrite lookup_insert, refill_history. simpl. by case_decide.
    + case_decide; subst; [|done]. rewrite E. by destruct s.
  - case_decide; subst; by rewrite ?E.
Qed.

Lemma max_addMessage sid c u now m :
  maxMessagesPerSession (addMessage sid c u now m) = maxMessagesPerSession m.
Proof.
  unfold addMessage. rewrite max_applyMessageWindowing. simpl.
  apply max_getOrCreate.
Qed.

Lemma lookup_addMessage sid c u now m sid' :
  sessions (addMessage sid c u now m) !! sid'
  = if decide (sid = sid') then
      Some {| history := window (maxMessagesPerSession m)
                           (messages_of m sid ++ [make_message c u]);
              lastAccessed := now;
              context := match sessions m !! sid with
                         | Some s => context s
                         | None => None
                         end |}
    else sessions m !! sid'.
Proof.
  unfold addMessage. rewrite lookup_applyMessageWindowing.
  rewrite max_with_sessions, max_getOrCreate, sessions_with_sessions.
  case_decide; subst.
  - rewrite lookup_alter_eq, lookup_getOrCreate.
    rewrite decide_True by done. unfold messages_of.
    by destruct (sessions m !! sid').
  - rewrite lookup_alter_ne by done. rewrite lookup_getOrCreate.
    by rewrite decide_False.
Qed.

Lemma messages_addMessage sid c u now m :
  messages_of (addMessage sid c u now m) sid
  = window (maxMessagesPerSession m) (messages_of m sid ++ [make_message c u]).
Proof.
  unfold messages_of at 1. rewrite lookup_addMessage.
  by rewrite decide_True.
Qed.

Lemma windowed_getOrCreate sid now m :
  1 ≤ maxMessagesPerSession m → windowed m →
  windowed (getOrCreateSession sid now m).2.
Proof.
  intros Hw Hm sid' s' Hs'. rewrite max_getOrCreate.
  rewrite lookup_getOrCreate in Hs'.
  case_decide; [|by eapply Hm]. subst sid'.
  destruct (sessions m !! sid) eqn:E; simplify_eq; simpl;
    [by eapply Hm|lia].
Qed.

Lemma windowed_alter_context c sid m :
  windowed m → windowed (with_sessions (alter (set_context c) sid) m).
Proof.
  intros Hm sid' s' Hs'. rewrite max_with_sessions.
  rewrite sessions_with_sessions in Hs'.
  destruct (decide (sid = sid')) as [->|Hne].
  - rewrite lookup_alter_eq in Hs'.
    destruct (sessions m !! sid') as [s0|] eqn:E; [|done].
    simpl in Hs'. injection Hs' as <-. simpl. by eapply Hm.
  - rewrite lookup_alter_ne in Hs' by done. by eapply Hm.
Qed.

Lemma getMessages_manager sid limit now m :
  (getMessages sid limit now m).2 = (getOrCreateSession sid now m).2.
Proof.
  unfold getMessages. destruct (getOrCreateSession sid now m) as [msgs m'].
  destruct limit as [n|]; [by case_match|done].
Qed.

Lemma getMessages_result sid now m :
  (getMessages sid None now m).1 = messages_of m sid.
Proof.
  unfold getMessages, getOrCreateSession, messages_of. simpl.
  destruct (sessions m !! sid) eqn:E; simpl; by rewrite lookup_insert_eq.
Qed.

Lemma windowed_apply (mu : Mutation) (m : t) :
  1 ≤ maxMessagesPerSession m → windowed m → windowed (apply mu m).
Proof.
  intros Hw Hm. destruct mu; unfold apply.
  - by apply windowed_getOrCreate.
  - unfold setSessionContext. apply windowed_alter_context.
    by apply windowed_getOrCreate.
  - intros sid' s' Hs'. rewrite max_addMessage.
    rewrite lookup_addMessage in Hs'.
    case_decide; [|by eapply Hm]. simplify_eq. simpl.
    rewrite window_last_n, length_last_n by done. lia.
  - rewrite getMessages_manager. by apply windowed_getOrCreate.
  - intros sid' s' Hs'. rewrite max_applyMessageWindowing.
    rewrite lookup_applyMessageWindowing in Hs'.
    case_decide; [|by eapply Hm]. subst.
    destruct (sessions m !! sid') as [s0|] eqn:E; [|done].
    simpl in Hs'. injection Hs' as <-. simpl.
    rewrite window_last_n, length_last_n by done. lia.
  - intros sid' s' Hs'. unfold clearSession in *.
    destruct (sessions m !! sid) eqn:E; [|by eapply Hm].
    rewrite !max_with_sessions. rewrite !sessions_with_sessions in Hs'.
    apply lookup_delete_Some in Hs' as [Hne Hs'].
    rewrite lookup_insert_ne in Hs' by done. by eapply Hm.
  - intros sid' s' Hs'. unfold cleanup in *.
    rewrite max_with_sessions. rewrite sessions_with_sessions in Hs'.
    apply map_lookup_filter_Some in Hs' as [Hs' _]. by eapply Hm.
Qed.

Lemma max_apply (mu : Mutation) (m : t) :
  maxMessagesPerSession (apply mu m) = maxMessagesPerSession m.
Proof.
  destruct mu; unfold apply.
  - apply max_getOrCreate.
  - unfold setSessionContext. rewrite max_with_sessions.
    apply max_getOrCreate.
  - apply max_addMessage.
  - rewrite getMessages_manager. apply max_getOrCreate.
  - apply max_applyMessageWindowing.
  - by rewrite clearSession_delete.
  - reflexivity.
Qed.

Lemma windowed_run (mus : list Mutation) (m : t) :
  1 ≤ maxMessagesPerSession m → windowed m → windowed (run mus m).
Proof.
  revert m. induction mus as [|mu mus IH]; intros m Hw Hm; [done|].
  unfold run in *. simpl. apply IH; [|by apply windowed_apply].
  by rewrite max_apply.
Qed.

Lemma windowed_new : windowed new.
Proof. intros sid s Hs. simpl in Hs. by rewrite lookup_empty in Hs. Qed.

Lemma messages_getOrCreate sid' now m sid :
  messages_of (getOrCreateSession sid' now m).2 sid = messages_of m sid.
Proof.
  unfold messages_of. rewrite lookup_getOrCreate. case_decide; [subst|done].
  by destruct (sessions m !! sid).
Qed.

Lemma last_n_all {A} (w : nat) (l : list A) :
  (length l ≤ w)%nat → last_n w l = l.
Proof.
  intros Hl. unfold last_n. by replace (length l - w)%nat with 0%nat by lia.
Qed.

Lemma appendedTo_cons sid mu mus :
  appendedTo sid (mu :: mus) = appendedTo sid [mu] ++ appendedTo sid mus.
Proof.
  unfold appendedTo. change (mu :: mus) with ([mu] ++ mus).
  by rewrite omap_app.
Qed.

(** One mutation that keeps the session appends to it what it appends,
    and the window is applied. *)
Lemma messages_apply sid mu m :
  1 ≤ maxMessagesPerSession m →
  (length (messages_of m sid) ≤ Z.to_nat (maxMessagesPerSession m))%nat →
  keeps sid mu = true →
  messages_of (apply mu m) sid
  = last_n (Z.to_nat (maxMessagesPerSession m))
           (messages_of m sid ++ appendedTo sid [mu]).
Proof.
  intros Hw Hlen Hk.
  assert (messages_of m sid
          = last_n (Z.to_nat (maxMessagesPerSession m))
                   (messages_of m sid ++ [])) as Hsame
    by (by rewrite app_nil_r, last_n_all).
  destruct mu as [s now|s c now|s content isUser now|s limit now|s|s|now];
    unfold apply, appendedTo; cbn [omap list_omap].
  - rewrite messages_getOrCreate. exact Hsame.
  - unfold setSessionContext, messages_of at 1.
    rewrite sessions_with_sessions.
    destruct (decide (s = sid)) as [->|Hne].
    + rewrite lookup_alter_eq, lookup_getOrCreate, decide_True by done.
      rewrite <- Hsame. unfold messages_of.
      by destruct (sessions m !! sid).
    + rewrite lookup_alter_ne by done.
      fold (messages_of (getOrCreateSession s now m).2 sid).
      rewrite messages_getOrCreate. exact Hsame.
  - destruct (String.eqb_spec s sid) as [->|Hne].
    + rewrite messages_addMessage, window_last_n by done.
      by destruct isUser.
    + unfold messages_of at 1. rewrite lookup_addMessage.
      rewrite decide_False by done. destruct isUser; exact Hsame.
  - rewrite getMessages_manager, messages_getOrCreate. exact Hsame.
  - unfold messages_of at 1. rewrite lookup_applyMessageWindowing.
    case_decide; [subst|exact Hsame].
    rewrite <- Hsame. unfold messages_of in *.
    destruct (sessions m !! sid) as [s0|]; [|done]. simpl.
    rewrite window_last_n by done. by apply last_n_all.
  - simpl in Hk. apply negb_true_iff in Hk.
    destruct (String.eqb_spec s sid) as [|Hne]; [done|].
    rewrite clearSession_delete. unfold messages_of at 1.
    rewrite sessions_with_sessions, lookup_delete_ne by done. exact Hsame.
  - done.
Qed.

Lemma messages_run sid mus m :
  1 ≤ maxMessagesPerSession m →
  (length (messages_of m sid) ≤ Z.to_nat (maxMessagesPerSession m))%nat →
  Forall (fun mu => keeps sid mu = true) mus →
  messages_of (run mus m) sid
  = last_n (Z.to_nat (maxMessagesPerSession m))
           (messages_of m sid ++ appendedTo sid mus).
Proof.
  intros Hw Hlen Hk. revert m Hw Hlen.
  induction Hk as [|mu mus Hmu Hk IH]; intros m Hw Hlen.
  - change (appendedTo sid []) with (@nil BaseMessage).
    rewrite app_nil_r, last_n_all by exact Hlen. reflexivity.
  - unfold run in *. cbn [foldl].
    rewrite IH; rewrite ?max_apply, ?messages_apply by done; [|done|].
    + rewrite last_n_app_absorb, (appendedTo_cons sid mu mus).
      by rewrite <- app_assoc.
    + rewrite length_last_n. lia.
Qed.

(** C5. Session windowing: with window bound [W] (at least 1; the
    constructor sets 10), take a session that is new or still empty and
    any run of calls on the manager that cannot delete it (no clear of its
    id, no sweep). After the run the session holds exactly the last [W]
    of the messages appended to it, in append order, so [min N W] of them
    when [N] were appended; and no run of mutations at all ever leaves a
    session with more than [W] messages. *)
Theorem session_windowing (W : Z) (m : t) (sid : string)
    (mus : list Mutation) :
  1 ≤ W →
  maxMessagesPerSession m = W →
  messages_of m sid = [] →
  Forall (fun mu => keeps sid mu = true) mus →
  messages_of (run mus m) sid
    = last_n (Z.to_nat W) (appendedTo sid mus)
  ∧ length (messages_of (run mus m) sid)
    = Nat.min (length (appendedTo sid mus)) (Z.to_nat W)
  ∧ ∀ (m0 : t) (mus0 : list Mutation),
      maxMessagesPerSession m0 = W → windowed m0 → windowed (run mus0 m0).
Proof.
  intros Hw HW Hnil Hk.
  assert (messages_of (run mus m) sid
          = last_n (Z.to_nat W) (appendedTo sid mus)) as Hmsgs.
  { rewrite messages_run; rewrite ?Hnil, ?HW; simpl; [done|lia|lia|done]. }
  split; [done|]. split.
  - by rewrite Hmsgs, length_last_n.
  - intros m0 mus0 Hm0 Hwin. apply windowed_run; [lia|done].
Qed.

(** Twelve appends to [s1] with the window at ten: the session holds the
    third to the twelfth, users' and assistant's in turn, as they were
    passed. *)
Lemma session_windowing_witness :
  messages_of (run busy_run new) "s1"
  = [HumanMessage "m3"; AIMessage "m4" []; HumanMessage "m5";
     AIMessage "m6" []; HumanMessage "m7"; AIMessage "m8" [];
     HumanMessage "m9"; AIMessage "m10" []; HumanMessage "m11";
     AIMessage "m12" []]
  ∧ length (messages_of (run busy_run new) "s1") = 10%nat.
Proof.
  destruct (session_windowing 10 new "s1" busy_run) as (H1 & H2 & _).
  - lia.
  - reflexivity.
  - reflexivity.
  - repeat constructor.
  - split; [rewrite H1; reflexivity|rewrite H2; reflexivity].
Defined.

(** C9. Clearing a session twice leaves the manager exactly as clearing
    it once does; clearing an id that has no session changes nothing; and
    the route's handler returns normally both times. *)
Theorem clearSession_idempotent (sid : string) (m : t) (w : World) :
  clearSession sid (clearSession sid m) = clearSession sid m
  ∧ match sessions m !! sid with
    | None => clearSession sid m = m
    | Some _ => sessions (clearSession sid m) !! sid = None
    end
  ∧ (Chat.deleteSession sid w).1 = Ok tt
  ∧ Chat.deleteSession sid (Chat.deleteSession sid w).2
    = (Ok tt, (Chat.deleteSession sid w).2).
Proof.
  assert (clearSession sid (clearSession sid m) = clearSession sid m) as Hidem.
  { rewrite !clearSession_delete. apply manager_eq; try done. simpl.
    by rewrite delete_delete_eq. }
  split; [done|]. split; [|split].
  - destruct (sessions m !! sid) eqn:E.
    + rewrite clearSession_delete. simpl. apply lookup_delete_eq.
    + unfold clearSession. by rewrite E.
  - reflexivity.
  - unfold Chat.deleteSession, on_manager. simpl.
    f_equal. f_equal.
    rewrite !clearSession_delete. apply manager_eq; try done. simpl.
    by rewrite delete_delete_eq.
Qed.

(** C10. Reading the client context of an id that has no session returns
    null and leaves the manager as it is, every [lastAccessed] included,
    while [getMessages] and [getOrCreateSession] on such an id return no
    messages and create an empty session stamped with the current
    time. *)
Theorem getSessionContext_no_create (sid : string) (now : Z) (m : t) :
  sessions m !! sid = None →
  getSessionContext sid m = (None, m)
  ∧ (getOrCreateSession sid now m).1 = []
  ∧ sessions (getOrCreateSession sid now m).2 !! sid
    = Some {| history := []; lastAccessed := now; context := None |}
  ∧ (getMessages sid None now m).1 = []
  ∧ sessions (getMessages sid None now m).2 !! sid
    = Some {| history := []; lastAccessed := now; context := None |}.
Proof.
  intros Hsid. repeat split.
  - unfold getSessionContext. by rewrite Hsid.
  - unfold getOrCreateSession, messages_of. rewrite Hsid. simpl.
    by rewrite lookup_insert_eq.
  - rewrite lookup_getOrCreate, decide_True by done. by rewrite Hsid.
  - rewrite getMessages_result. unfold messages_of. by rewrite Hsid.
  - rewrite getMessages_manager, lookup_getOrCreate, decide_True by done.
    by rewrite Hsid.
Qed.

Lemma getSessionContext_no_create_witness :
  getSessionContext "nobody" new = (None, new)
  ∧ sessions (getMessages "nobody" None 42 new).2 !! "nobody"
    = Some {| history := []; lastAccessed := 42; context := None |}.
Proof.
  destruct (getSessionContext_no_create "nobody" 42 new)
    as (H1 & _ & _ & _ & H2).
  - reflexivity.
  - split; [exact H1|exact H2].
Defined.

(** The context read never changes the manager, session or not. *)
Lemma getSessionContext_pure (sid : string) (m : t) :
  (getSessionContext sid m).2 = m.
Proof. reflexivity. Qed.

End SessionStore.

(* ===================================================================== *)
(** * Properties of a turn *)
(* ===================================================================== *)
Module Turn.
Import ConversationManager.

#[local] Arguments getMessages : simpl never.
#[local] Arguments addMessage : simpl never.
#[local] Arguments setSessionContext : simpl never.
#[local] Arguments getOrCreateSession : simpl never.
#[local] Arguments getSessionContext : simpl never.
#[local] Arguments messages_of : simpl never.
#[local] Arguments join_empty : simpl never.
#[local] Arguments extend : simpl never.
#[local] Arguments tickw : simpl never.
#[local] Arguments setm : simpl never.
#[local] Arguments endw : simpl never.
#[local] Arguments setupw : simpl never.

Lemma extend_nil w : extend [] [] w = w.
Proof.
  destruct w as [m [rj hd wr en] tk cs]. unfold extend. simpl.
  by rewrite !app_nil_r.
Qed.

Lemma extend_extend es1 cs1 es2 cs2 w :
  extend es2 cs2 (extend es1 cs1 w) = extend (es1 ++ es2) (cs1 ++ cs2) w.
Proof. unfold extend. simpl. by rewrite !app_assoc. Qed.

Lemma sendSSEEvent_run e w : sendSSEEvent e w = (Ok tt, extend [e] [] w).
Proof.
  unfold sendSSEEvent, with_res, extend. by rewrite app_nil_r.
Qed.

Lemma log_call_run c w : log_call c w = (Ok tt, extend [] [c] w).
Proof.
  unfold log_call, extend. destruct w as [m [rj hd wr en] tk cs]. simpl.
  by rewrite app_nil_r.
Qed.

Lemma bind_run {A B} (m : M A) (f : A → M B) (w : World) :
  (m ≫= f) w = match m w with
               | (Ok a, w') => f a w'
               | (Throw msg, w') => (Throw msg, w')
               end.
Proof. reflexivity. Qed.

Section Facts.
Context {C : Type} `{ChunkOps C}.
Variable env : Env C.

Lemma extractChunkContent_content (chunk : C) :
  extractChunkContent chunk = chunk_content chunk.
Proof.
  unfold extractChunkContent. by destruct (chunk_content chunk).
Qed.

Lemma texts_cons (chunk : C) (stream : list C) :
  texts (chunk :: stream)
  = (if nonempty (chunk_content chunk) then [chunk_content chunk] else [])
    ++ texts stream.
Proof.
  unfold texts. simpl. rewrite filter_cons.
  destruct (nonempty (chunk_content chunk)) eqn:E.
  - by rewrite decide_True.
  - by rewrite decide_False by congruence.
Qed.

Lemma consumeFirstPass_run (stream : list C) acc tp w :
  Chat.consumeFirstPass stream acc tp w
  = (Ok (accumulate acc stream, tp ++ texts stream),
     extend (map EvToken (texts stream)) [] w).
Proof.
  revert acc tp w. induction stream as [|chunk stream IH]; intros acc tp w.
  - simpl. unfold texts. simpl. by rewrite app_nil_r, extend_nil.
  - simpl. rewrite extractChunkContent_content, texts_cons.
    destruct (nonempty (chunk_content chunk)) eqn:E.
    + rewrite bind_run, sendSSEEvent_run, IH, extend_extend.
      simpl. by rewrite <- app_assoc.
    + by rewrite IH.
Qed.

Lemma consumeSynthesis_run (stream : list C) parts w :
  Chat.consumeSynthesis stream parts w
  = (Ok (parts ++ texts stream), extend (map EvToken (texts stream)) [] w).
Proof.
  revert parts w. induction stream as [|chunk stream IH]; intros parts w.
  - simpl. unfold texts. simpl. by rewrite app_nil_r, extend_nil.
  - simpl. rewrite texts_cons.
    destruct (nonempty (chunk_content chunk)) eqn:E.
    + rewrite bind_run, sendSSEEvent_run, IH, extend_extend.
      simpl. by rewrite <- app_assoc.
    + by rewrite IH.
Qed.

Lemma executeLoop_run tools ctx toolCalls results w :
  StreamProcessor.executeLoop tools ctx toolCalls results w
  = (Ok (results ++ loopResults tools ctx toolCalls),
     extend (loopEvents tools ctx toolCalls) (loopCalls tools ctx toolCalls) w).
Proof.
  revert results w.
  induction toolCalls as [|tc toolCalls IH]; intros results w.
  - simpl. by rewrite app_nil_r, extend_nil.
  - simpl. unfold loopResults, loopEvents, loopCalls. simpl.
    unfold callOutcome at 1 3 5.
    destruct (find_tool (tc_name tc) tools) as [tool|] eqn:Ef.
    + rewrite bind_run, log_call_run.
      destruct (tool_invoke tool _) as [r|msg] eqn:Ei.
      * rewrite bind_run, sendSSEEvent_run, IH, !extend_extend. simpl.
        by rewrite <- app_assoc.
      * rewrite bind_run, sendSSEEvent_run, IH, !extend_extend. by simpl.
    + rewrite bind_run, sendSSEEvent_run, IH, !extend_extend. by simpl.
Qed.

Lemma toolStep_run (accumulated : option C) sid w :
  Chat.toolStep env accumulated sid w
  = match Chat.accumulated_tool_calls accumulated with
    | [] => (Ok [], w)
    | toolCalls =>
        let ctx := (getSessionContext sid (manager w)).1 in
        (Ok (loopResults (tools env) ctx toolCalls),
         extend (EvToolExecuting (map tc_name toolCalls)
                 :: loopEvents (tools env) ctx toolCalls)
                (loopCalls (tools env) ctx toolCalls) w)
    end.
Proof.
  unfold Chat.toolStep.
  destruct (Chat.accumulated_tool_calls accumulated) as [|tc tcs] eqn:E;
    [done|].
  rewrite bind_run, sendSSEEvent_run, bind_run.
  unfold StreamProcessor.executeToolCallsWithSSE.
  rewrite bind_run. unfold on_manager at 1.
  cbn -[StreamProcessor.executeLoop].
  rewrite executeLoop_run. unfold extend. simpl.
  by rewrite <- !app_assoc.
Qed.


Lemma messages_setSessionContext sid c now m :
  messages_of (setSessionContext sid c now m) sid = messages_of m sid.
Proof.
  unfold messages_of, setSessionContext.
  rewrite SessionStore.sessions_with_sessions.
  rewrite lookup_alter_eq, SessionStore.lookup_getOrCreate.
  rewrite decide_True by done. by destruct (sessions m !! sid).
Qed.

Lemma setupSSEResponse_run w : setupSSEResponse w = (Ok tt, setupw w).
Proof. reflexivity. Qed.
Lemma res_end_run w : res_end w = (Ok tt, endw w).
Proof. reflexivity. Qed.
Lemma Date_now_run w : Date_now env w = (Ok (clock env (ticks w)), tickw w).
Proof. reflexivity. Qed.
Lemma on_manager_run {A} (f : t → A * t) w :
  on_manager f w = (Ok (f (manager w)).1, setm (f (manager w)).2 w).
Proof. reflexivity. Qed.
Lemma await_run {A} (r : Result A) w : await r w = (r, w).
Proof. reflexivity. Qed.
Lemma mret_run {A} (a : A) w : (mret a : M A) w = (Ok a, w).
Proof. reflexivity. Qed.
Lemma throw_run {A} msg w : @throw A msg w = (Throw msg, w).
Proof. reflexivity. Qed.

Lemma manager_extend es cs w : manager (extend es cs w) = manager w.
Proof. reflexivity. Qed.
Lemma manager_tickw w : manager (tickw w) = manager w.
Proof. reflexivity. Qed.
Lemma manager_setm m w : manager (setm m w) = m.
Proof. reflexivity. Qed.
Lemma manager_endw w : manager (endw w) = manager w.
Proof. reflexivity. Qed.
Lemma manager_setupw w : manager (setupw w) = manager w.
Proof. reflexivity. Qed.
Lemma ticks_extend es cs w : ticks (extend es cs w) = ticks w.
Proof. reflexivity. Qed.
Lemma ticks_tickw w : ticks (tickw w) = S (ticks w).
Proof. reflexivity. Qed.
Lemma ticks_setm m w : ticks (setm m w) = ticks w.
Proof. reflexivity. Qed.
Lemma ticks_endw w : ticks (endw w) = ticks w.
Proof. reflexivity. Qed.
Lemma ticks_setupw w : ticks (setupw w) = ticks w.
Proof. reflexivity. Qed.
Lemma calls_extend es cs w : calls (extend es cs w) = calls w ++ cs.
Proof. reflexivity. Qed.
Lemma calls_tickw w : calls (tickw w) = calls w.
Proof. reflexivity. Qed.
Lemma calls_setm m w : calls (setm m w) = calls w.
Proof. reflexivity. Qed.
Lemma calls_endw w : calls (endw w) = calls w.
Proof. reflexivity. Qed.
Lemma calls_setupw w : calls (setupw w) = calls w.
Proof. reflexivity. Qed.
Lemma written_extend es cs w :
  written (res (extend es cs w)) = written (res w) ++ es.
Proof. reflexivity. Qed.
Lemma written_tickw w : written (res (tickw w)) = written (res w).
Proof. reflexivity. Qed.
Lemma written_setm m w : written (res (setm m w)) = written (res w).
Proof. reflexivity. Qed.
Lemma written_endw w : written (res (endw w)) = written (res w).
Proof. reflexivity. Qed.
Lemma written_setupw w : written (res (setupw w)) = written (res w).
Proof. reflexivity. Qed.
Lemma ended_extend es cs w : ended (res (extend es cs w)) = ended (res w).
Proof. reflexivity. Qed.
Lemma ended_tickw w : ended (res (tickw w)) = ended (res w).
Proof. reflexivity. Qed.
Lemma ended_setm m w : ended (res (setm m w)) = ended (res w).
Proof. reflexivity. Qed.
Lemma ended_endw w : ended (res (endw w)) = true.
Proof. reflexivity. Qed.
Lemma ended_setupw w : ended (res (setupw w)) = ended (res w).
Proof. reflexivity. Qed.

End Facts.

Ltac wsimpl1 :=
  rewrite ?manager_extend, ?manager_tickw, ?manager_setm, ?manager_endw,
    ?manager_setupw, ?ticks_extend, ?ticks_tickw, ?ticks_setm, ?ticks_endw,
    ?ticks_setupw, ?calls_extend, ?calls_tickw, ?calls_setm, ?calls_endw,
    ?calls_setupw, ?written_extend, ?written_tickw, ?written_setm,
    ?written_endw, ?written_setupw, ?ended_extend, ?ended_tickw, ?ended_setm,
    ?ended_endw, ?ended_setupw.
Ltac wsimpl := repeat (progress wsimpl1).

(** One statement of handler code run on a world. *)
Ltac run_prim :=
  first [ rewrite sendSSEEvent_run | rewrite log_call_run
        | rewrite Date_now_run | rewrite on_manager_run
        | rewrite setupSSEResponse_run | rewrite res_end_run
        | rewrite await_run | rewrite mret_run | rewrite throw_run
        | rewrite consumeFirstPass_run | rewrite consumeSynthesis_run
        | rewrite toolStep_run ].
Ltac step := rewrite ?bind_run; run_prim; cbv beta iota.

Ltac list_norm :=
  rewrite <- ?app_assoc, ?app_nil_r; simpl; rewrite <- ?app_assoc, ?app_nil_r.
Ltac steps := repeat (step; wsimpl; cbn [fst snd]).

Lemma world_eq (w1 w2 : World) :
  manager w1 = manager w2 → res w1 = res w2 → ticks w1 = ticks w2 →
  calls w1 = calls w2 → w1 = w2.
Proof. destruct w1, w2; simpl; intros; by subst. Qed.

Section Turns.
Context {C : Type} `{ChunkOps C}.
Variable env : Env C.

Lemma openTurn_run message sid w :
  Chat.openTurn env message sid w
  = (Ok (messages_of (manager w) sid ++ [HumanMessage message]),
     opened env message sid w).
Proof.
  unfold Chat.openTurn, Chat.array_push. steps.
  rewrite SessionStore.getMessages_result. f_equal.
Qed.

Lemma closeTurn_run sid saved w :
  Chat.closeTurn env sid saved w = (Ok tt, finished env sid saved w).
Proof.
  unfold Chat.closeTurn. steps. f_equal.
Qed.

Lemma catchBlock_run msg w : Chat.catchBlock msg w = (Ok tt, failed msg w).
Proof. unfold Chat.catchBlock. steps. reflexivity. Qed.

Lemma firstPass_run message hist w :
  Chat.firstPass env message hist w
  = match getChain env with
    | Throw e => (Throw e, extend [] [CallGetChain] w)
    | Ok _ =>
        match ragChain_stream env message hist with
        | Throw e =>
            (Throw e, extend [] [CallGetChain; CallRagStream message hist] w)
        | Ok stream =>
            let w' := extend (map EvToken (texts (chunks stream)))
                        [CallGetChain; CallRagStream message hist] w in
            match failure stream with
            | Some e => (Throw e, w')
            | None =>
                (Ok (accumulate None (chunks stream), texts (chunks stream)),
                 w')
            end
        end
    end.
Proof.
  unfold Chat.firstPass, Chat.end_of_stream. steps.
  destruct (getChain env) as [[]|e]; [|done]. steps.
  destruct (ragChain_stream env message hist) as [stream|e];
    [|by rewrite extend_extend].
  steps. rewrite !extend_extend. simpl.
  destruct (failure stream) as [e|]; by steps.
Qed.

Lemma answerStep_run message hist (accumulated : option C) textParts results w :
  Chat.answerStep env message hist accumulated textParts results w
  = match results with
    | [] => (Ok (join_empty textParts), w)
    | _ :: _ =>
        match contextRetriever env message with
        | Throw e => (Throw e, extend [] [CallRetriever message] w)
        | Ok ragContext =>
            let msgs :=
              Chat.synthesisMessages ragContext hist message
                (Chat.accumulated_tool_calls accumulated) results in
            match llm_stream env msgs with
            | Throw e =>
                (Throw e,
                 extend [] [CallRetriever message; CallLlmStream msgs] w)
            | Ok s =>
                let w' := extend (map EvToken (texts (chunks s)))
                            [CallRetriever message; CallLlmStream msgs] w in
                match failure s with
                | Some e => (Throw e, w')
                | None => (Ok (join_empty (texts (chunks s))), w')
                end
            end
        end
    end.
Proof.
  unfold Chat.answerStep, Chat.end_of_stream.
  destruct results as [|r results]; [done|]. steps.
  destruct (contextRetriever env message) as [ragContext|e]; [|done]. steps.
  destruct (llm_stream env _) as [s|e]; [|by rewrite extend_extend].
  steps. rewrite !extend_extend. simpl.
  destruct (failure s) as [e|]; by steps.
Qed.


Lemma handle_valid body m tick message sid ctx :
  validateChatRequest body (uuidv4 env) = Valid message sid ctx →
  Chat.handle env body m tick
  = (try_catch (Chat.tryBlock env message sid) Chat.catchBlock
       (contextualised env sid ctx m tick)).2.
Proof.
  intros Hv. unfold Chat.handle, Chat.post. rewrite Hv.
  destruct ctx as [c|]; steps; reflexivity.
Qed.

Lemma messages_contextualised sid ctx m tick :
  messages_of (manager (contextualised env sid ctx m tick)) sid = messages_of m sid.
Proof.
  destruct ctx as [c|]; [|done]. unfold contextualised.
  wsimpl. apply messages_setSessionContext.
Qed.

Lemma max_contextualised sid ctx m tick :
  maxMessagesPerSession (manager (contextualised env sid ctx m tick))
  = maxMessagesPerSession m.
Proof.
  destruct ctx as [c|]; [|done]. unfold contextualised. wsimpl.
  unfold setSessionContext.
  by rewrite SessionStore.max_with_sessions, SessionStore.max_getOrCreate.
Qed.

Lemma written_contextualised sid ctx m tick :
  written (res (contextualised env sid ctx m tick)) = [].
Proof. by destruct ctx. Qed.

Lemma calls_contextualised sid ctx m tick :
  calls (contextualised env sid ctx m tick) = [].
Proof. by destruct ctx. Qed.

Lemma messages_getMessages sid now m :
  messages_of (getMessages sid None now m).2 sid = messages_of m sid.
Proof.
  rewrite SessionStore.getMessages_manager. unfold messages_of.
  rewrite SessionStore.lookup_getOrCreate, decide_True by done.
  by destruct (sessions m !! sid).
Qed.

Lemma max_getMessages sid now m :
  maxMessagesPerSession (getMessages sid None now m).2
  = maxMessagesPerSession m.
Proof.
  by rewrite SessionStore.getMessages_manager, SessionStore.max_getOrCreate.
Qed.

(** The messages of the session once the user's message is in. *)
Lemma messages_opened message sid w :
  messages_of (manager (opened env message sid w)) sid
  = window (maxMessagesPerSession (manager w))
      (messages_of (manager w) sid ++ [HumanMessage message]).
Proof.
  unfold opened. wsimpl.
  by rewrite SessionStore.messages_addMessage, max_getMessages,
    messages_getMessages.
Qed.

(** The array the turn hands to generation is the session's own: as long
    as the append did not trim, it shows exactly what the session
    holds. *)
Lemma openTurn_shares_array message sid w :
  Z.of_nat (length (messages_of (manager w) sid))
  < maxMessagesPerSession (manager w) →
  (Chat.openTurn env message sid w).1
  = Ok (messages_of (manager (Chat.openTurn env message sid w).2) sid).
Proof.
  intros Hlen. rewrite openTurn_run. cbn [fst snd].
  rewrite messages_opened. unfold window. rewrite length_app. simpl.
  destruct (Z.ltb_spec (maxMessagesPerSession (manager w))
              (Z.of_nat (length (messages_of (manager w) sid) + 1)));
    [lia|done].
Qed.

Lemma last_window_snoc w (l : list BaseMessage) x :
  1 ≤ w → last (window w (l ++ [x])) = Some x.
Proof.
  intros Hw. rewrite SessionStore.window_last_n by done. unfold last_n.
  rewrite length_app. simpl.
  rewrite drop_app_le by lia. apply last_snoc.
Qed.

Lemma last_messages_finished sid saved w :
  1 ≤ maxMessagesPerSession (manager w) →
  last (messages_of (manager (finished env sid saved w)) sid)
  = Some (AIMessage saved []).
Proof.
  intros Hw. unfold finished. wsimpl.
  rewrite messages_getMessages, SessionStore.messages_addMessage.
  by apply last_window_snoc.
Qed.

Lemma token_contents_app es1 es2 :
  token_contents (es1 ++ es2) = token_contents es1 ++ token_contents es2.
Proof. unfold token_contents. apply omap_app. Qed.

Lemma token_contents_tokens l : token_contents (map EvToken l) = l.
Proof.
  induction l as [|x l IH]; [done|].
  unfold token_contents in *. simpl. f_equal. exact IH.
Qed.

Lemma existsb_tokens (p : TurnEvent → bool) l :
  (∀ c, p (EvToken c) = false) → existsb p (map EvToken l) = false.
Proof.
  intros Hp. induction l as [|x l IH]; [done|]. simpl. by rewrite Hp, IH.
Qed.

Lemma filter_tokens (p : TurnEvent → bool) l :
  (∀ c, p (EvToken c) = false) →
  filter (fun e => p e = true) (map EvToken l) = [].
Proof.
  intros Hp. induction l as [|x l IH]; [done|]. simpl.
  rewrite filter_cons, decide_False; [done|]. by rewrite Hp.
Qed.

(** C8. A turn whose first pass ends with no tool call: the events are the
    session event, the first-pass tokens and [done]; no tool event is
    sent; the only calls out are [getChain] and the first generation call
    (no tool, no retrieval, no second generation), the generation call
    being given the session's array with the user's message already on
    it; and the message stored last is the assistant's, its text the
    concatenation of the token events. *)
Theorem turn_without_tool_calls (body : RequestBody)
    (m : ConversationManager.t) (tick : nat) (message sid : string)
    (ctx : option json) (stream : AsyncStream C) :
  validateChatRequest body (uuidv4 env) = Valid message sid ctx →
  getChain env = Ok tt →
  ragChain_stream env message (messages_of m sid ++ [HumanMessage message])
  = Ok stream →
  failure stream = None →
  Chat.accumulated_tool_calls (accumulate None (chunks stream)) = [] →
  1 ≤ maxMessagesPerSession m →
  written (res (Chat.handle env body m tick))
    = [EvSession sid] ++ map EvToken (texts (chunks stream)) ++ [EvDone]
  ∧ ended (res (Chat.handle env body m tick)) = true
  ∧ existsb is_tool_executing (written (res (Chat.handle env body m tick)))
    = false
  ∧ existsb is_tool_outcome (written (res (Chat.handle env body m tick)))
    = false
  ∧ calls (Chat.handle env body m tick)
    = [CallGetChain;
       CallRagStream message (messages_of m sid ++ [HumanMessage message])]
  ∧ last (messages_of (manager (Chat.handle env body m tick)) sid)
    = Some (AIMessage
              (join_empty
                 (token_contents
                    (written (res (Chat.handle env body m tick))))) []).
Proof.
  intros Hv Hc Hs Hf Ht Hw.
  rewrite (handle_valid _ _ _ _ _ _ Hv).
  unfold try_catch, Chat.tryBlock.
  rewrite bind_run, openTurn_run, messages_contextualised.
  rewrite bind_run, firstPass_run, Hc, Hs. cbv zeta. rewrite Hf.
  rewrite bind_run, toolStep_run, Ht.
  rewrite bind_run, answerStep_run, closeTurn_run. cbn [snd].
  set (w0 := contextualised env sid ctx m tick).
  assert (written (res (finished env sid (join_empty (texts (chunks stream)))
            (extend (map EvToken (texts (chunks stream)))
               [CallGetChain;
                CallRagStream message
                  (messages_of m sid ++ [HumanMessage message])]
               (opened env message sid w0))))
          = [EvSession sid] ++ map EvToken (texts (chunks stream)) ++ [EvDone])
    as Hwr.
  { unfold finished, opened. wsimpl. subst w0.
    rewrite written_contextualised.
    by simpl. }
  rewrite Hwr. split_and!.
  - done.
  - unfold finished. by wsimpl.
  - simpl. rewrite existsb_app, existsb_tokens by done. reflexivity.
  - simpl. rewrite existsb_app, existsb_tokens by done. reflexivity.
  - unfold finished, opened. wsimpl. subst w0.
    by rewrite calls_contextualised.
  - rewrite last_messages_finished.
    + simpl. by rewrite token_contents_app, token_contents_tokens, app_nil_r.
    + wsimpl. unfold opened. wsimpl.
      rewrite SessionStore.max_addMessage, max_getMessages. subst w0.
      by rewrite max_contextualised.
Qed.


Lemma loopEvents_length tools0 ctx0 tcs :
  length (loopEvents tools0 ctx0 tcs) = length tcs.
Proof. unfold loopEvents. apply length_map. Qed.

Lemma callOutcome_event tools0 ctx0 tc :
  is_tool_outcome (callOutcome tools0 ctx0 tc).1.1 = true
  ∧ is_tool_executing (callOutcome tools0 ctx0 tc).1.1 = false
  ∧ is_error_event (callOutcome tools0 ctx0 tc).1.1 = false
  ∧ is_done_event (callOutcome tools0 ctx0 tc).1.1 = false
  ∧ is_tool_result (callOutcome tools0 ctx0 tc).1.1
    = negb (match (callOutcome tools0 ctx0 tc).1.2 with
            | [] => true
            | _ => false
            end).
Proof.
  unfold callOutcome. destruct (find_tool _ _) as [tool|]; [|done].
  by destruct (tool_invoke tool _).
Qed.

Lemma loopEvents_forallb tools0 ctx0 tcs :
  forallb is_tool_outcome (loopEvents tools0 ctx0 tcs) = true.
Proof.
  induction tcs as [|tc tcs IH]; [done|]. unfold loopEvents in *. simpl.
  rewrite IH. by destruct (callOutcome_event tools0 ctx0 tc) as (-> & _).
Qed.

Lemma loopEvents_existsb (p : TurnEvent → bool) tools0 ctx0 tcs :
  (∀ tc, p (callOutcome tools0 ctx0 tc).1.1 = false) →
  existsb p (loopEvents tools0 ctx0 tcs) = false.
Proof.
  intros Hp. induction tcs as [|tc tcs IH]; [done|].
  unfold loopEvents in *. simpl. by rewrite Hp, IH.
Qed.

Lemma loopEvents_no_executing tools0 ctx0 tcs :
  existsb is_tool_executing (loopEvents tools0 ctx0 tcs) = false.
Proof.
  apply loopEvents_existsb. intros tc.
  by destruct (callOutcome_event tools0 ctx0 tc) as (_ & -> & _).
Qed.



Lemma loopCalls_no_llm tools0 ctx0 tcs :
  filter (λ c, is_llm_stream_call c = true) (loopCalls tools0 ctx0 tcs) = [].
Proof.
  unfold loopCalls. induction tcs as [|x l IH]; [done|].
  simpl. rewrite filter_app, IH, app_nil_r. unfold callOutcome.
  destruct (find_tool _ _) as [tool|]; [|done].
  by destruct (tool_invoke tool _).
Qed.

(** No result in the array means no [tool_result] event was sent. *)
Lemma loopResults_nil tools0 ctx0 tcs :
  loopResults tools0 ctx0 tcs = [] →
  existsb is_tool_result (loopEvents tools0 ctx0 tcs) = false.
Proof.
  induction tcs as [|tc tcs IH]; [done|].
  unfold loopResults, loopEvents in *. simpl. intros Hnil.
  apply app_eq_nil in Hnil as [Hhd Htl]. rewrite IH by done.
  destruct (callOutcome_event tools0 ctx0 tc) as (_ & _ & _ & _ & ->).
  by rewrite Hhd.
Qed.





(** The part of C1 the code keeps. A turn whose first pass ends with at least
    one tool call sends exactly one [tool_executing] event, after the
    session event and the first-pass tokens and before every [tool_result]
    and [tool_error]; it then sends one such event per call. When at least
    one call produced a result and the turn completes, the message stored
    last is the assistant's and its text is the concatenation of the token
    events of the synthesis pass, those sent after the tool events. *)
Theorem turn_with_tool_calls (body : RequestBody)
    (m : ConversationManager.t) (tick : nat) (message sid : string)
    (ctx : option json) (stream : AsyncStream C) :
  validateChatRequest body (uuidv4 env) = Valid message sid ctx →
  getChain env = Ok tt →
  ragChain_stream env message (messages_of m sid ++ [HumanMessage message])
  = Ok stream →
  failure stream = None →
  Chat.accumulated_tool_calls (accumulate None (chunks stream)) ≠ [] →
  1 ≤ maxMessagesPerSession m →
  ∃ outcomes rest,
    written (res (Chat.handle env body m tick))
      = ([EvSession sid] ++ map EvToken (texts (chunks stream)))
        ++ [EvToolExecuting
              (map tc_name
                 (Chat.accumulated_tool_calls
                    (accumulate None (chunks stream))))]
        ++ outcomes ++ rest
    ∧ existsb is_tool_executing
        ([EvSession sid] ++ map EvToken (texts (chunks stream))) = false
    ∧ existsb is_tool_outcome
        ([EvSession sid] ++ map EvToken (texts (chunks stream))) = false
    ∧ existsb is_tool_executing (outcomes ++ rest) = false
    ∧ forallb is_tool_outcome outcomes = true
    ∧ length outcomes
      = length (Chat.accumulated_tool_calls (accumulate None (chunks stream)))
    ∧ existsb is_tool_outcome rest = false
    ∧ (existsb is_tool_result outcomes = true →
       existsb is_done_event rest = true →
       last (messages_of (manager (Chat.handle env body m tick)) sid)
       = Some (AIMessage (join_empty (token_contents rest)) [])
       ∧ length (filter (fun c => is_llm_stream_call c = true)
                        (calls (Chat.handle env body m tick))) = 1%nat).
Proof.
  intros Hv Hc Hs Hf Ht Hw.
  rewrite (handle_valid _ _ _ _ _ _ Hv).
  unfold try_catch, Chat.tryBlock.
  rewrite bind_run, openTurn_run, messages_contextualised. cbv beta iota.
  rewrite bind_run, firstPass_run, Hc, Hs. cbv zeta. rewrite Hf.
  cbv beta iota. rewrite bind_run, toolStep_run.
  destruct (Chat.accumulated_tool_calls _) as [|tc tcs] eqn:Htc; [done|].
  cbv beta iota zeta. rewrite bind_run, answerStep_run, Htc, extend_extend.
  set (w0 := contextualised env sid ctx m tick).
  set (ctx0 := (getSessionContext sid _).1).
  set (outcomes := loopEvents (tools env) ctx0 (tc :: tcs)).
  assert (∀ p, (∀ c, p (EvToken c) = false) → ∀ l,
               existsb p (map EvToken l) = false)
    as Htok by (intros; by apply existsb_tokens).
  assert (Hop : written (res (opened env message sid w0)) = [EvSession sid]).
  { unfold opened. wsimpl. subst w0. by rewrite written_contextualised. }
  assert (Hmax : maxMessagesPerSession (manager (opened env message sid w0))
                 = maxMessagesPerSession m).
  { unfold opened. wsimpl.
    rewrite SessionStore.max_addMessage, max_getMessages. subst w0.
    apply max_contextualised. }
  assert (Hshape : ∀ rest,
    existsb is_tool_executing rest = false →
    existsb is_tool_outcome rest = false →
    existsb is_tool_executing
      ([EvSession sid] ++ map EvToken (texts (chunks stream))) = false
    ∧ existsb is_tool_outcome
        ([EvSession sid] ++ map EvToken (texts (chunks stream))) = false
    ∧ existsb is_tool_executing (outcomes ++ rest) = false
    ∧ forallb is_tool_outcome outcomes = true
    ∧ length outcomes = length (tc :: tcs)
    ∧ existsb is_tool_outcome rest = false).
  { intros rest Hr1 Hr2. split_and!.
    - simpl. by apply Htok.
    - simpl. by apply Htok.
    - subst outcomes. by rewrite existsb_app, loopEvents_no_executing.
    - apply loopEvents_forallb.
    - apply loopEvents_length.
    - done. }
  destruct (loopResults (tools env) ctx0 (tc :: tcs)) as [|r rs] eqn:Hres.
  { cbv beta iota. rewrite closeTurn_run. cbn [snd].
    exists outcomes, [EvDone]. unfold finished at 1. wsimpl. rewrite Hop.
    split; [by list_norm|].
    destruct (Hshape [EvDone]) as (?&?&?&?&?&?); [done..|].
    split_and!; try done.
    intros Hsome. subst outcomes.
    by rewrite loopResults_nil in Hsome. }
  destruct (contextRetriever env message) as [ragContext|e].
  2:{ rewrite catchBlock_run. cbn [snd]. unfold failed. wsimpl. rewrite Hop.
      exists outcomes, [EvError e].
      split; [by list_norm|].
      destruct (Hshape [EvError e]) as (?&?&?&?&?&?); [done..|].
      split_and!; try done. }
  cbv zeta. destruct (llm_stream env _) as [s|e].
  2:{ rewrite catchBlock_run. cbn [snd]. unfold failed. wsimpl. rewrite Hop.
      exists outcomes, [EvError e].
      split; [by list_norm|].
      destruct (Hshape [EvError e]) as (?&?&?&?&?&?); [done..|].
      split_and!; try done. }
  destruct (failure s) as [e|].
  { rewrite catchBlock_run. cbn [snd]. unfold failed. wsimpl. rewrite Hop.
    exists outcomes, (map EvToken (texts (chunks s)) ++ [EvError e]).
    split; [by list_norm|].
    destruct (Hshape (map EvToken (texts (chunks s)) ++ [EvError e]))
      as (?&?&?&?&?&?).
    { rewrite existsb_app, Htok by done. reflexivity. }
    { rewrite existsb_app, Htok by done. reflexivity. }
    split_and!; try done.
    intros _. rewrite existsb_app, Htok by done. done. }
  cbv beta iota. rewrite closeTurn_run. cbn [snd].
  exists outcomes, (map EvToken (texts (chunks s)) ++ [EvDone]).
  split.
  { unfold finished at 1. wsimpl. rewrite Hop. by list_norm. }
  destruct (Hshape (map EvToken (texts (chunks s)) ++ [EvDone]))
    as (?&?&?&?&?&?).
  { rewrite existsb_app, Htok by done. reflexivity. }
  { rewrite existsb_app, Htok by done. reflexivity. }
  split_and!; try done.
  intros _ _. split.
  - rewrite last_messages_finished by (wsimpl; by rewrite Hmax).
    by rewrite token_contents_app, token_contents_tokens, app_nil_r.
  - unfold finished, opened. wsimpl. subst w0.
    rewrite calls_contextualised, !filter_app, loopCalls_no_llm.
    reflexivity.
Qed.

End Turns.




End Turn.

(* ===================================================================== *)
(** * Properties of the tool executors *)
(* ===================================================================== *)

Module ToolFacts.
Import ConversationManager Examples.

(** A call whose tool is missing, or whose tool throws, sends a
    [tool_error] event and pushes nothing onto [results]. *)
Lemma callOutcome_failure (tools0 : list Tool) (ctx0 : option json)
    (toolCall : ToolCall) :
  match find_tool (tc_name toolCall) tools0 with
  | None =>
      callOutcome tools0 ctx0 toolCall
      = (EvToolError (tc_name toolCall) (not_found_message (tc_name toolCall)),
         [], [])
  | Some tool =>
      ∀ msg,
        tool_invoke tool
          (obj_set "_clientContext" (default JNull ctx0) (tc_args toolCall))
        = Throw msg →
        (callOutcome tools0 ctx0 toolCall).1
        = (EvToolError (tc_name toolCall) msg, [])
  end.
Proof.
  unfold callOutcome. destruct (find_tool _ _) as [tool|]; [|done].
  intros msg ->. reflexivity.
Qed.

(** The loop sends one event per call, whatever happens to the calls
    before it. *)
Lemma executeToolCallsWithSSE_events (toolCalls : list ToolCall)
    (tools0 : list Tool) (sid : string) (w : World) :
  ∃ events,
    written (res (StreamProcessor.executeToolCallsWithSSE
                    toolCalls tools0 sid w).2)
    = written (res w) ++ events
    ∧ length events = length toolCalls
    ∧ forallb is_tool_outcome events = true.
Proof.
  unfold StreamProcessor.executeToolCallsWithSSE.
  rewrite Turn.bind_run, Turn.on_manager_run. cbv beta iota.
  rewrite Turn.executeLoop_run. cbn [snd].
  eexists. split; [reflexivity|]. split.
  - apply Turn.loopEvents_length.
  - apply Turn.loopEvents_forallb.
Qed.

(** C3 on the code. Three calls in one turn: an unregistered tool, a tool
    that throws, a tool that answers. All three are run and each sends its
    event, but the two failures put nothing in the returned results, while
    [executeToolCalls] returns an error result for each. *)
Theorem failed_calls_leave_no_result :
  (StreamProcessor.executeToolCallsWithSSE
     [call_unknown; call_summarize; call_list] registry "s1"
     (Chat.start new 0)).1
  = Ok [{| tr_name := "list_documents"; tr_args := None;
           tr_result := Some "No documents have been ingested yet.";
           tr_error := None |}]
  ∧ written (res (StreamProcessor.executeToolCallsWithSSE
                    [call_unknown; call_summarize; call_list] registry "s1"
                    (Chat.start new 0)).2)
    = [EvToolError "search_web" "Tool 'search_web' not found";
       EvToolError "summarize_topic" "vector store unavailable";
       EvToolResult "list_documents" "No documents have been ingested yet."]
  ∧ map tr_error
      (ToolExecutor.executeToolCalls
         [call_unknown; call_summarize; call_list] registry).1
    = [Some "Tool 'search_web' not found"; Some "vector store unavailable";
       None].
Proof. split_and!; reflexivity. Qed.

Lemma buildToolMessages_length (toolResults : list ToolResult)
    (toolCalls : list ToolCall) :
  length (ToolExecutor.buildToolMessages toolResults toolCalls)
  = length toolResults.
Proof. unfold ToolExecutor.buildToolMessages. apply length_imap. Qed.

(** An error result with a non-empty message is rendered with the
    [Error: ] prefix. *)
Lemma buildToolMessages_error (toolResults : list ToolResult)
    (toolCalls : list ToolCall) (idx : nat) (r : ToolResult) (err : string) :
  toolResults !! idx = Some r →
  tr_error r = Some err →
  nonempty err = true →
  ∃ id,
    ToolExecutor.buildToolMessages toolResults toolCalls !! idx
    = Some (ToolMessage ("Error: " +:+ err) id (tr_name r)).
Proof.
  intros Hr He Hne. unfold ToolExecutor.buildToolMessages.
  rewrite list_lookup_imap, Hr. simpl. rewrite He, Hne. by eexists.
Qed.

(** With one result per call, as [executeToolCalls] returns them, every
    tool message carries the id of the call it answers. *)
Lemma buildToolMessages_aligned (tools0 : list Tool)
    (toolCalls : list ToolCall) (idx : nat) (call : ToolCall) (id : string) :
  toolCalls !! idx = Some call →
  tc_id call = Some id →
  ∃ content,
    ToolExecutor.buildToolMessages
      (ToolExecutor.executeToolCalls toolCalls tools0).1 toolCalls !! idx
    = Some (ToolMessage content id (tc_name call)).
Proof.
  intros Hc Hid. unfold ToolExecutor.buildToolMessages.
  rewrite list_lookup_imap.
  assert ((ToolExecutor.executeToolCalls toolCalls tools0).1 !! idx
          = Some (ToolExecutor.executeOne tools0 call)) as ->.
  { unfold ToolExecutor.executeToolCalls.
    destruct toolCalls as [|c cs]; [done|]. cbn [fst].
    by rewrite list_lookup_fmap, Hc. }
  simpl. rewrite Hc, Hid. simpl.
  assert (tr_name (ToolExecutor.executeOne tools0 call) = tc_name call) as ->.
  { unfold ToolExecutor.executeOne. destruct (find_tool _ _) as [tool|];
      [|done]. by destruct (tool_invoke tool _). }
  by eexists.
Qed.

(** C4 on the code. Two calls, the first to an unregistered tool: the only
    result is the second call's, it is paired with position 0 of the call
    list, and so the tool message for [list_documents] carries the id of
    the [search_web] call. *)
Theorem tool_message_takes_failed_calls_id :
  (StreamProcessor.executeToolCallsWithSSE [call_unknown; call_list] registry
     "s1" (Chat.start new 0)).1
  = Ok [{| tr_name := "list_documents"; tr_args := None;
           tr_result := Some "No documents have been ingested yet.";
           tr_error := None |}]
  ∧ ToolExecutor.buildToolMessages
      [{| tr_name := "list_documents"; tr_args := None;
          tr_result := Some "No documents have been ingested yet.";
          tr_error := None |}]
      [call_unknown; call_list]
    = [ToolMessage "No documents have been ingested yet." "call_a"
         "list_documents"]
  ∧ tc_id call_unknown = Some "call_a"
  ∧ tc_id call_list = Some "call_c".
Proof. split_and!; reflexivity. Qed.

End ToolFacts.

(* ===================================================================== *)
(** * Turns on concrete inputs *)
(* ===================================================================== *)

Module TurnExamples.
Import ConversationManager Examples Turn.

Lemma turn_without_tool_calls_witness :
  written (res (Chat.handle env_plain body_s1 new 0))
    = [EvSession "s1"; EvToken "Key"; EvToken " points"; EvToken " are...";
       EvDone]
  ∧ last (messages_of (manager (Chat.handle env_plain body_s1 new 0)) "s1")
    = Some (AIMessage "Key points are..." []).
Proof.
  destruct (turn_without_tool_calls env_plain body_s1 new 0 question "s1" None
              text_stream) as (H1 & _ & _ & _ & _ & H2).
  - reflexivity.
  - reflexivity.
  - reflexivity.
  - reflexivity.
  - reflexivity.
  - simpl. lia.
  - split; [exact H1|]. rewrite H2, H1. reflexivity.
Defined.

Lemma turn_with_tool_calls_witness :
  ∃ outcomes rest,
    written (res (Chat.handle env_tool body_s1 new 0))
    = ([EvSession "s1"] ++ map EvToken [])
      ++ [EvToolExecuting ["list_documents"]] ++ outcomes ++ rest.
Proof.
  destruct (turn_with_tool_calls env_tool body_s1 new 0 question "s1" None
              (mkStream [mkChunk "" [call_list]] None))
    as (outcomes & rest & H1 & _).
  - reflexivity.
  - reflexivity.
  - reflexivity.
  - reflexivity.
  - discriminate.
  - simpl. lia.
  - exists outcomes, rest. exact H1.
Defined.


(** The turn of the specification's second example: one [list_documents]
    call and no first-pass text. *)
Lemma list_documents_turn :
  written (res (Chat.handle env_tool body_s1 new 0))
  = [EvSession "s1"; EvToolExecuting ["list_documents"];
     EvToolResult "list_documents" "No documents have been ingested yet.";
     EvToken "Nothing has "; EvToken "been ingested."; EvDone]
  ∧ messages_of (manager (Chat.handle env_tool body_s1 new 0)) "s1"
    = [HumanMessage question; AIMessage "Nothing has been ingested." []].
Proof. split; reflexivity. Qed.

(** C1 on the code. The first pass says [Let me check.] and asks for a
    tool that is not registered: one tool call is accumulated, the call
    fails, and because the loop pushed no result for it the guard on
    [allToolResults] skips the synthesis pass (no token follows the tool
    events, no second generation call is made), so the answer stored is
    the first pass's text. [executeToolCalls] returns a result for the
    same call, with the error in it, and [buildToolMessages] renders it:
    with that result the guard would have let the synthesis pass run. *)
Theorem unknown_tool_turn_stores_first_pass_text :
  Chat.accumulated_tool_calls
    (accumulate None [mkChunk "Let me check." [call_unknown]])
  = [call_unknown]
  ∧ written (res (Chat.handle env_unknown_tool body_s1 new 0))
    = [EvSession "s1"; EvToken "Let me check."]
      ++ [EvToolExecuting ["search_web"]]
      ++ [EvToolError "search_web" "Tool 'search_web' not found"; EvDone]
  ∧ token_contents
      [EvToolError "search_web" "Tool 'search_web' not found"; EvDone] = []
  ∧ filter (fun c => is_llm_stream_call c = true)
      (calls (Chat.handle env_unknown_tool body_s1 new 0)) = []
  ∧ last (messages_of (manager (Chat.handle env_unknown_tool body_s1 new 0))
            "s1")
    = Some (AIMessage "Let me check." [])
  ∧ join_empty (token_contents [EvSession "s1"; EvToken "Let me check."])
    = "Let me check."
  ∧ AIMessage "Let me check." [] ≠ AIMessage (join_empty []) []
  ∧ (StreamProcessor.executeToolCallsWithSSE [call_unknown] registry "s1"
       (Chat.start new 0)).1 = Ok []
  ∧ (ToolExecutor.executeToolCalls [call_unknown] registry).1
    = [{| tr_name := "search_web"; tr_args := None; tr_result := None;
          tr_error := Some "Tool 'search_web' not found" |}]
  ∧ ToolExecutor.buildToolMessages
      (ToolExecutor.executeToolCalls [call_unknown] registry).1
      [call_unknown]
    = [ToolMessage "Error: Tool 'search_web' not found" "call_a"
         "search_web"].
Proof. split_and!; try reflexivity. discriminate. Qed.


End TurnExamples.


(* ===================================================================== *)
(** * Properties of the protocol bridge *)
(* ===================================================================== *)

Module BridgeFacts.
Import Bridge.

Lemma append_cons (x : Ascii.ascii) (a b : string) :
  String x a +:+ b = String x (a +:+ b).
Proof. reflexivity. Qed.

Lemma append_assoc (a b c : string) : (a +:+ b) +:+ c = a +:+ (b +:+ c).
Proof.
  induction a as [|x a IH]; [done|]. rewrite !append_cons. by f_equal.
Qed.

Lemma append_nil_r (a : string) : a +:+ "" = a.
Proof.
  induction a as [|x a IH]; [done|]. rewrite append_cons. by f_equal.
Qed.

Lemma prefix_append (p x : string) : String.prefix p (p +:+ x) = true.
Proof.
  induction p as [|a p IH]; [by destruct x|].
  rewrite append_cons. simpl. by destruct (Ascii.ascii_dec a a).
Qed.

Lemma split_nl_nonempty (s : string) : split_nl s ≠ [].
Proof.
  induction s as [|c s IH]; simpl; [done|].
  destruct (Ascii.eqb c LF); [done|]. by destruct (split_nl s).
Qed.

Lemma split_nl_cons (c : Ascii.ascii) (s : string) :
  split_nl (String c s)
  = if Ascii.eqb c LF then "" :: split_nl s
    else String c (default "" (head (split_nl s))) :: tail (split_nl s).
Proof.
  simpl. destruct (Ascii.eqb c LF); [done|].
  pose proof (split_nl_nonempty s). by destruct (split_nl s).
Qed.

(** Splitting what has been buffered and then what arrives is splitting
    the whole. *)
Lemma split_nl_app (a b : string) :
  split_nl (a +:+ b) = removelast (split_nl a) ++ split_nl (pending a +:+ b).
Proof.
  unfold pending. induction a as [|c a IH]; [done|].
  rewrite append_cons, !split_nl_cons.
  pose proof (split_nl_nonempty a) as Hne.
  destruct (Ascii.eqb c LF) eqn:Ec.
  - rewrite IH. destruct (split_nl a) as [|l ls]; [done|]. reflexivity.
  - rewrite IH. destruct (split_nl a) as [|l [|l' ls]]; [done| |].
    + simpl. rewrite Ec. pose proof (split_nl_nonempty (l +:+ b)).
      by destruct (split_nl (l +:+ b)).
    + simpl. reflexivity.
Qed.

Lemma has_LF_pending (s : string) : has_LF (pending s) = false.
Proof.
  unfold pending. induction s as [|c s IH]; [done|].
  rewrite split_nl_cons. pose proof (split_nl_nonempty s) as Hne.
  destruct (Ascii.eqb c LF) eqn:Ec.
  - by destruct (split_nl s).
  - destruct (split_nl s) as [|l [|l' ls]]; [done| |done].
    simpl in *. by rewrite Ec.
Qed.

Lemma split_nl_no_LF (s : string) : has_LF s = false → split_nl s = [s].
Proof.
  induction s as [|c s IH]; [done|]. simpl.
  destruct (Ascii.eqb c LF); [done|]. simpl. intros Hs. by rewrite IH.
Qed.

Lemma has_LF_app (a b : string) : has_LF (a +:+ b) = has_LF a || has_LF b.
Proof.
  induction a as [|c a IH]; [done|]. rewrite append_cons. simpl.
  rewrite IH. by destruct (Ascii.eqb c LF).
Qed.

(** A line and its line feed come off the front of a text. *)
Lemma split_nl_line (l rest : string) :
  has_LF l = false → split_nl (l +:+ nl +:+ rest) = l :: split_nl rest.
Proof.
  induction l as [|c l IH]; [done|]. rewrite append_cons. simpl.
  destruct (Ascii.eqb c LF) eqn:Ec; [done|]. simpl. intros Hl.
  by rewrite IH.
Qed.

Section Codec.
Context `{JSON}.

Lemma processLines_app (l1 l2 : list string) (ctl : Controller) :
  processLines (l1 ++ l2) ctl
  = match processLines l1 ctl with
    | (true, ctl') => (true, ctl')
    | (false, ctl') => processLines l2 ctl'
    end.
Proof.
  revert ctl. induction l1 as [|l l1 IH]; intros ctl; [done|]. simpl.
  destruct (handle_line l); by rewrite ?IH.
Qed.

(** The loop over the reads does to the controller what one pass over the
    complete lines of everything read would do. *)
Lemma pump_complete_lines (values : list string) (buffer : string)
    (ctl : Controller) :
  has_LF buffer = false →
  pump values buffer ctl
  = processLines (complete_lines (buffer +:+ concat_reads values)) ctl.
Proof.
  revert buffer ctl.
  induction values as [|value values IH]; intros buffer ctl Hb.
  - simpl. rewrite append_nil_r. unfold complete_lines.
    by rewrite split_nl_no_LF.
  - simpl. rewrite <- append_assoc. unfold complete_lines at 1.
    rewrite (split_nl_app (buffer +:+ value)).
    rewrite removelast_app by apply split_nl_nonempty.
    rewrite processLines_app.
    destruct (processLines (removelast (split_nl (buffer +:+ value))) ctl)
      as [[] ctl']; [done|].
    apply IH, has_LF_pending.
Qed.

Lemma start_complete_lines (values : list string) (err : option string) :
  start {| reads := values; read_error := err |}
  = match processLines (complete_lines (concat_reads values)) fresh with
    | (true, ctl) => ctl
    | (false, ctl) =>
        match err with
        | None => close (enqueue finish_line ctl)
        | Some msg =>
            close (enqueue ("3:" +:+ JSON_stringify (JStr msg) +:+ nl) ctl)
        end
    end.
Proof. unfold start. simpl. by rewrite pump_complete_lines. Qed.

Lemma emitted_cons (l : string) (lines : list string) :
  emitted (l :: lines)
  = match handle_line l with
    | Emit chunk => chunk :: emitted lines
    | _ => emitted lines
    end.
Proof. unfold emitted. simpl. by destruct (handle_line l). Qed.

(** Lines that are not [done] events only add their chunks. *)
Lemma processLines_emitted (lines : list string) (ctl : Controller) :
  Forall (fun l => is_done_line l = false) lines →
  processLines lines ctl
  = (false, {| enqueued := enqueued ctl ++ emitted lines;
               closed := closed ctl |}).
Proof.
  intros Hl. revert ctl.
  induction Hl as [|l lines Hd Hl IH]; intros ctl.
  - simpl. rewrite app_nil_r. by destruct ctl.
  - rewrite emitted_cons. cbn [processLines]. unfold is_done_line in Hd.
    destruct (handle_line l); [apply IH| |done].
    rewrite IH. simpl. by rewrite <- app_assoc.
Qed.

Lemma handle_line_chunk (l chunk : string) :
  handle_line l = Emit chunk → is_finish_part chunk = false.
Proof.
  unfold handle_line. destruct (String.prefix "data: " l); [|done].
  destruct (JSON_parse _) as [[| | | | |event]|]; try done.
  unfold switch_event. destruct (obj_get "type" event) as [[| | |ty| |]|];
    try done.
  repeat (case_match; [by intros [= <-]|]). done.
Qed.

Lemma emitted_no_finish (lines : list string) :
  filter (fun c => is_finish_part c = true) (emitted lines) = [].
Proof.
  induction lines as [|l lines IH]; [done|]. rewrite emitted_cons.
  destruct (handle_line l) eqn:E; [done| |done].
  rewrite filter_cons, decide_False, IH; [done|].
  by rewrite (handle_line_chunk _ _ E).
Qed.

(** C7. When the upstream ends and no complete line of it was a [done]
    event, the bridge enqueues what the lines called for, then a finish
    line of its own, the only one, and closes its output. *)
Theorem bridge_finishes_without_done (values : list string) :
  Forall (fun l => is_done_line l = false)
         (complete_lines (concat_reads values)) →
  start {| reads := values; read_error := None |}
  = {| enqueued := emitted (complete_lines (concat_reads values))
                   ++ [finish_line];
       closed := true |}
  ∧ filter (fun c => is_finish_part c = true)
      (enqueued (start {| reads := values; read_error := None |}))
    = [finish_line].
Proof.
  intros Hl. rewrite start_complete_lines, processLines_emitted by done.
  split; [done|]. unfold close, enqueue, fresh. cbn [enqueued app].
  by rewrite filter_app, emitted_no_finish.
Qed.

(** What the loop does with the line [sendSSEEvent] wrote for an event. *)
Lemma handle_line_sse (e : TurnEvent) :
  JSON_parse (JSON_stringify (sse_payload e)) = Some (sse_payload e) →
  handle_line (sse_line e)
  = match e with
    | EvDone => Finish
    | _ => Emit (stage2_line e)
    end.
Proof.
  intros Hrt. unfold handle_line, sse_line.
  rewrite prefix_append.
  change (str_drop 6 ("data: " +:+ JSON_stringify (sse_payload e)))
    with (JSON_stringify (sse_payload e)).
  cbv iota. rewrite Hrt. by destruct e.
Qed.

Lemma split_nl_sse_text (es : list TurnEvent) :
  Forall (fun e => has_LF (JSON_stringify (sse_payload e)) = false) es →
  split_nl (sse_text es) = frame_lines es ++ [""].
Proof.
  induction 1 as [|e es He Hes IH]; [done|].
  change (sse_text (e :: es)) with (sse_frame e +:+ sse_text es).
  change (frame_lines (e :: es)) with ([sse_line e; ""] ++ frame_lines es).
  unfold sse_frame. rewrite !append_assoc, split_nl_line.
  - change (nl +:+ sse_text es) with ("" +:+ nl +:+ sse_text es).
    rewrite split_nl_line by done. by rewrite IH.
  - unfold sse_line. by rewrite has_LF_app, He.
Qed.

Lemma processLines_frames (pre : list TurnEvent) (rest : list string)
    (ctl : Controller) :
  Forall (fun e => is_done_event e = false) pre →
  Forall (fun e => JSON_parse (JSON_stringify (sse_payload e))
                   = Some (sse_payload e)) pre →
  processLines (frame_lines pre ++ rest) ctl
  = processLines rest {| enqueued := enqueued ctl ++ map stage2_line pre;
                         closed := closed ctl |}.
Proof.
  intros Hnd. revert ctl.
  induction Hnd as [|e pre He Hpre IH]; intros ctl Hrt.
  - simpl. rewrite app_nil_r. by destruct ctl.
  - apply Forall_cons in Hrt as [Hrte Hrt].
    unfold frame_lines. cbn [flat_map app processLines].
    rewrite (handle_line_sse e Hrte).
    change (handle_line "") with Skip. cbv iota.
    fold (frame_lines pre).
    destruct e; try done; rewrite IH by done; cbn [enqueue enqueued closed];
      by rewrite <- app_assoc.
Qed.

Lemma stage2_line_parts (e : TurnEvent) :
  is_done_event e = false →
  is_finish_part (stage2_line e) = false
  ∧ is_text_part (stage2_line e)
    = match e with EvToken _ => true | _ => false end.
Proof.
  destruct e; try done. intros _. split; [done|].
  unfold is_text_part, stage2_line. apply prefix_append.
Qed.

(** C6. A stage-1 response whose events end in [done], and in no [done]
    before that, in a runtime whose JSON codec reads back what it wrote
    for these events on one line: however the text is cut into reads, the
    bridge enqueues one line per event in order, the last being the only
    finish line, closes its output, and its text-part lines are the token
    contents, one line per token, each the serialised content. *)
Theorem bridge_translates_stage1 (pre : list TurnEvent)
    (values : list string) (err : option string) :
  Forall (fun e => is_done_event e = false) pre →
  Forall (fun e => JSON_parse (JSON_stringify (sse_payload e))
                   = Some (sse_payload e)
                   ∧ has_LF (JSON_stringify (sse_payload e)) = false)
         (pre ++ [EvDone]) →
  concat_reads values = sse_text (pre ++ [EvDone]) →
  enqueued (start {| reads := values; read_error := err |})
    = map stage2_line pre ++ [finish_line]
  ∧ closed (start {| reads := values; read_error := err |}) = true
  ∧ filter (fun c => is_finish_part c = true)
      (enqueued (start {| reads := values; read_error := err |}))
    = [finish_line]
  ∧ filter (fun c => is_text_part c = true)
      (enqueued (start {| reads := values; read_error := err |}))
    = map (fun c => "0:" +:+ JSON_stringify (JStr c) +:+ nl)
          (token_contents pre).
Proof.
  intros Hnd Hcodec Htext.
  assert (start {| reads := values; read_error := err |}
          = {| enqueued := map stage2_line pre ++ [finish_line];
               closed := true |}) as ->.
  { rewrite start_complete_lines, Htext. unfold complete_lines.
    rewrite split_nl_sse_text
      by (eapply Forall_impl; [exact Hcodec|]; by intros ? []).
    rewrite removelast_last. unfold frame_lines.
    rewrite flat_map_app. fold (frame_lines pre).
    apply Forall_app in Hcodec as [Hpre Hdone].
    rewrite processLines_frames;
      [|done|eapply Forall_impl; [exact Hpre|]; by intros ? []].
    cbn [flat_map app processLines].
    apply Forall_cons in Hdone as [[Hrt _] _].
    by rewrite (handle_line_sse EvDone Hrt). }
  cbn [enqueued closed]. split_and!; [done|done| |].
  - rewrite filter_app.
    assert (filter (λ c, is_finish_part c = true) (map stage2_line pre) = [])
      as ->; [|done].
    clear Hcodec Htext.
    induction Hnd as [|e pre He Hpre IH]; [done|]. cbn [map].
    rewrite filter_cons, decide_False; [exact IH|].
    destruct (stage2_line_parts e He) as [-> _]. done.
  - rewrite filter_app.
    assert (filter (λ c, is_text_part c = true) [finish_line] = []) as ->
      by done.
    rewrite app_nil_r. clear Hcodec Htext.
    induction Hnd as [|e pre He Hpre IH]; [done|]. cbn [map].
    rewrite filter_cons.
    destruct (stage2_line_parts e He) as [_ Htp].
    destruct e; try done;
      (rewrite decide_True by done || rewrite decide_False by done);
      unfold token_contents in *; cbn [omap list_omap]; by rewrite IH.
Qed.

End Codec.

Lemma bridge_finishes_without_done_witness :
  enqueued (start (H := MiniJSON.codec)
              {| reads := Examples.stage1_reads_without_done;
                 read_error := None |})
  = map (stage2_line (H := MiniJSON.codec)) Examples.stage1_events
    ++ [finish_line].
Proof.
  destruct (bridge_finishes_without_done (H := MiniJSON.codec)
              Examples.stage1_reads_without_done) as [H1 _].
  - vm_compute. repeat constructor.
  - rewrite H1. vm_compute. reflexivity.
Defined.

Lemma bridge_translates_stage1_witness :
  enqueued (start (H := MiniJSON.codec)
              {| reads := Examples.stage1_reads; read_error := None |})
  = map (stage2_line (H := MiniJSON.codec)) Examples.stage1_events
    ++ [finish_line].
Proof.
  destruct (bridge_translates_stage1 (H := MiniJSON.codec)
              Examples.stage1_events Examples.stage1_reads None)
    as [H1 _].
  - repeat constructor.
  - repeat constructor.
  - vm_compute. reflexivity.
  - exact H1.
Defined.

End BridgeFacts.

(* ===================================================================== *)
(** * More on the session store *)
(* ===================================================================== *)

Module SessionStoreMore.
Import ConversationManager SessionStore.

(** X1. Storing a context and reading it back: the read returns what was
    stored, the latest write wins, the session's messages are as they
    were, and no other session is touched. *)
Theorem context_round_trip (sid : string) (c1 c2 : json) (t1 t2 : Z) (m : t) :
  (getSessionContext sid (setSessionContext sid c1 t1 m)).1 = Some c1
  ∧ (getSessionContext sid
       (setSessionContext sid c2 t2 (setSessionContext sid c1 t1 m))).1
    = Some c2
  ∧ messages_of (setSessionContext sid c1 t1 m) sid = messages_of m sid
  ∧ ∀ sid', sid' ≠ sid →
      sessions (setSessionContext sid c1 t1 m) !! sid' = sessions m !! sid'.
Proof.
  assert (∀ c now m0,
    sessions (setSessionContext sid c now m0) !! sid
    = Some {| history := messages_of m0 sid; lastAccessed := now;
              context := Some c |}) as Hset.
  { intros c now m0. unfold setSessionContext.
    rewrite sessions_with_sessions, lookup_alter_eq, lookup_getOrCreate.
    rewrite decide_True by done. unfold messages_of.
    by destruct (sessions m0 !! sid). }
  split_and!.
  - unfold getSessionContext. cbn [fst]. by rewrite Hset.
  - unfold getSessionContext. cbn [fst]. by rewrite Hset.
  - unfold messages_of at 1. by rewrite Hset.
  - intros sid' Hne. unfold setSessionContext.
    rewrite sessions_with_sessions, lookup_alter_ne by done.
    rewrite lookup_getOrCreate. by rewrite decide_False.
Qed.

(** X2. [getMessages] with a limit: a positive limit gives the last [limit]
    messages, zero gives them all, a negative one skips the first
    [-limit]; and the limit makes no difference to the manager. *)
Theorem getMessages_limit (sid : string) (limit : Z) (now : Z) (m : t) :
  (getMessages sid (Some limit) now m).1
  = (if 0 <? limit then last_n (Z.to_nat limit) (messages_of m sid)
     else drop (Z.to_nat (- limit)) (messages_of m sid))
  ∧ (getMessages sid (Some limit) now m).2 = (getMessages sid None now m).2.
Proof.
  split; [|by rewrite !getMessages_manager].
  pose proof (getMessages_result sid now m) as Hres.
  unfold getMessages in *.
  destruct (getOrCreateSession sid now m) as [msgs m'] eqn:E.
  cbn [fst] in Hres. subst msgs.
  set (msgs := messages_of m sid).
  destruct (Z.eqb_spec limit 0) as [->|Hne]; cbn [negb andb fst].
  { reflexivity. }
  destruct (Z.ltb_spec limit (Z.of_nat (length msgs))) as [Hlt|Hge];
    cbn [fst]; unfold js_slice_from, last_n.
  - destruct (Z.ltb_spec 0 limit) as [Hpos|Hneg].
    + destruct (Z.ltb_spec (- limit) 0); [|lia]. f_equal. lia.
    + destruct (Z.ltb_spec (- limit) 0); [lia|].
      destruct (Z.le_gt_cases (- limit) (Z.of_nat (length msgs))).
      * f_equal. lia.
      * rewrite !drop_ge by lia. done.
  - destruct (Z.ltb_spec 0 limit) as [Hpos|Hneg]; [|lia].
    replace (length msgs - Z.to_nat limit)%nat with 0%nat by lia. done.
Qed.

Lemma lookup_cleanup (now : Z) (m : t) (sid : string) :
  sessions (cleanup now m) !! sid
  = match sessions m !! sid with
    | Some s =>
        if sessionTimeout m <? now - lastAccessed s then None else Some s
    | None => None
    end.
Proof.
  unfold cleanup. rewrite sessions_with_sessions.
  destruct (sessions m !! sid) as [s|] eqn:E.
  - destruct (sessionTimeout m <? now - lastAccessed s) eqn:Et.
    + apply map_lookup_filter_None. right. intros s' Hs' HP. simplify_eq.
      simpl in HP. by rewrite Et in HP.
    + apply map_lookup_filter_Some. split; [done|]. simpl. by rewrite Et.
  - apply map_lookup_filter_None. by left.
Qed.

(** X3. The sweep after an access: a session accessed at [t] is still there,
    untouched, after a sweep at [now] when no more than the timeout has
    passed, and is gone when more has. *)
Theorem cleanup_after_access (sid : string) (t0 now : Z) (m : t) :
  sessions (cleanup now (getOrCreateSession sid t0 m).2) !! sid
  = if sessionTimeout m <? now - t0 then None
    else sessions (getOrCreateSession sid t0 m).2 !! sid.
Proof.
  rewrite lookup_cleanup.
  assert (sessionTimeout (getOrCreateSession sid t0 m).2 = sessionTimeout m)
    as -> by (unfold getOrCreateSession; by destruct (sessions m !! sid)).
  rewrite lookup_getOrCreate, decide_True by done.
  by destruct (sessions m !! sid).
Qed.

(** X4. The sweep only removes: what is left is what was there, unchanged;
    sweeping again at the same time removes nothing more; and the number
    of sessions does not grow. *)
Theorem cleanup_only_removes (now : Z) (m : t) :
  (∀ sid s, sessions (cleanup now m) !! sid = Some s →
            sessions m !! sid = Some s)
  ∧ cleanup now (cleanup now m) = cleanup now m
  ∧ (getSessionCount (cleanup now m) ≤ getSessionCount m)%nat.
Proof.
  split_and!.
  - intros sid s. rewrite lookup_cleanup.
    destruct (sessions m !! sid) as [s0|]; [|done]. by case_match.
  - apply manager_eq; try done. apply map_eq. intros sid.
    rewrite !lookup_cleanup.
    change (sessionTimeout (cleanup now m)) with (sessionTimeout m).
    destruct (sessions m !! sid) as [s|]; [|done].
    destruct (sessionTimeout m <? now - lastAccessed s) eqn:Et; [done|].
    by rewrite Et.
  - unfold cleanup, getSessionCount. rewrite sessions_with_sessions.
    apply map_size_filter.
Qed.

(** X5. The number of sessions: creating on first reference adds one, a
    later reference adds none, clearing an existing session removes one
    and clearing an unknown id none. *)
Theorem getSessionCount_changes (sid : string) (now : Z) (m : t) :
  getSessionCount (getOrCreateSession sid now m).2
  = (match sessions m !! sid with
     | None => S (getSessionCount m)
     | Some _ => getSessionCount m
     end)
  ∧ getSessionCount (clearSession sid m)
    = (match sessions m !! sid with
       | None => getSessionCount m
       | Some _ => Nat.pred (getSessionCount m)
       end).
Proof.
  unfold getSessionCount. split.
  - unfold getOrCreateSession. cbn [snd].
    destruct (sessions m !! sid) as [s|] eqn:E; rewrite sessions_with_sessions.
    + apply map_size_insert_Some. by rewrite E.
    + by apply map_size_insert_None.
  - rewrite clearSession_delete, sessions_with_sessions.
    destruct (sessions m !! sid) as [s|] eqn:E.
    + rewrite map_size_delete_Some; [done|by rewrite E].
    + by rewrite map_size_delete_None.
Qed.

(** X6. Appending to one session leaves every other session as it was, and
    in the session itself keeps the stored context and stamps the access
    time. *)
Theorem addMessage_frame (sid : string) (content : string) (isUser : bool)
    (now : Z) (m : t) :
  (∀ sid', sid' ≠ sid →
     sessions (addMessage sid content isUser now m) !! sid'
     = sessions m !! sid')
  ∧ (getSessionContext sid (addMessage sid content isUser now m)).1
    = (getSessionContext sid m).1
  ∧ (lastAccessed <$> sessions (addMessage sid content isUser now m) !! sid)
    = Some now.
Proof.
  split_and!.
  - intros sid' Hne. rewrite lookup_addMessage. by rewrite decide_False.
  - unfold getSessionContext. cbn [fst].
    rewrite lookup_addMessage, decide_True by done. done.
  - rewrite lookup_addMessage, decide_True by done. done.
Qed.

(** X7. Windowing a session that is within the bound changes nothing, so a
    second windowing pass never does anything. *)
Theorem applyMessageWindowing_settled (sid : string) (m : t) :
  1 ≤ maxMessagesPerSession m →
  applyMessageWindowing sid (applyMessageWindowing sid m)
  = applyMessageWindowing sid m
  ∧ ((length (messages_of m sid) ≤ Z.to_nat (maxMessagesPerSession m))%nat →
     applyMessageWindowing sid m = m).
Proof.
  intros Hw.
  assert (∀ m0, 1 ≤ maxMessagesPerSession m0 →
    (length (messages_of m0 sid) ≤ Z.to_nat (maxMessagesPerSession m0))%nat →
    applyMessageWindowing sid m0 = m0) as Hid.
  { intros m0 Hw0 Hlen. unfold applyMessageWindowing, messages_of in *.
    destruct (sessions m0 !! sid) as [s|]; [|done].
    destruct (Z.ltb_spec (maxMessagesPerSession m0)
                (Z.of_nat (length (history s)))); [lia|done]. }
  split; [|by apply Hid].
  apply Hid; [by rewrite max_applyMessageWindowing|].
  rewrite max_applyMessageWindowing. unfold messages_of.
  rewrite lookup_applyMessageWindowing, decide_True by done.
  destruct (sessions m !! sid) as [s|]; simpl; [|lia].
  rewrite window_last_n, length_last_n by done. lia.
Qed.

End SessionStoreMore.

(* ===================================================================== *)
(** * Every request to the chat route *)
(* ===================================================================== *)

Module Requests.
Import ConversationManager Examples Turn.

Lemma forallb_tokens (p : TurnEvent → bool) l :
  (∀ c, p (EvToken c) = true) → forallb p (map EvToken l) = true.
Proof.
  intros Hp. induction l as [|x l IH]; [done|]. simpl. by rewrite Hp, IH.
Qed.

Lemma loopEvents_body tools0 ctx0 tcs :
  forallb is_stream_body (loopEvents tools0 ctx0 tcs) = true.
Proof.
  induction tcs as [|tc tcs IH]; [done|].
  unfold loopEvents in *. simpl. rewrite IH, andb_true_r.
  destruct (callOutcome_event tools0 ctx0 tc) as (Ho & _).
  by destruct ((callOutcome tools0 ctx0 tc).1.1).
Qed.

Lemma context_getOrCreate sid now m sid' :
  (getSessionContext sid' (getOrCreateSession sid now m).2).1
  = (getSessionContext sid' m).1.
Proof.
  unfold getSessionContext. cbn [fst].
  rewrite SessionStore.lookup_getOrCreate.
  case_decide; [subst sid'|done]. by destruct (sessions m !! sid).
Qed.

Lemma context_addMessage sid c u now m sid' :
  (getSessionContext sid' (addMessage sid c u now m)).1
  = (getSessionContext sid' m).1.
Proof.
  unfold getSessionContext. cbn [fst]. rewrite SessionStore.lookup_addMessage.
  case_decide; [subst sid'|done]. done.
Qed.

Lemma context_setSessionContext sid c now m sid' :
  (getSessionContext sid' (setSessionContext sid c now m)).1
  = if decide (sid = sid') then Some c else (getSessionContext sid' m).1.
Proof.
  unfold getSessionContext, setSessionContext. cbn [fst].
  rewrite SessionStore.sessions_with_sessions.
  case_decide; [subst sid'|].
  - rewrite lookup_alter_eq, SessionStore.lookup_getOrCreate.
    by rewrite decide_True.
  - rewrite lookup_alter_ne by done.
    rewrite SessionStore.lookup_getOrCreate. by rewrite decide_False.
Qed.

Lemma other_setSessionContext sid c now m sid' :
  sid' ≠ sid →
  sessions (setSessionContext sid c now m) !! sid' = sessions m !! sid'.
Proof.
  intros Hne. unfold setSessionContext.
  rewrite SessionStore.sessions_with_sessions, lookup_alter_ne by done.
  rewrite SessionStore.lookup_getOrCreate. by rewrite decide_False.
Qed.

Section Any.
Context {C : Type} `{ChunkOps C}.
Variable env : Env C.

(** The [try] block, whichever way it ends, has sent only tokens and
    tool events after the session event. *)
Lemma tryBlock_stream message sid w0 :
  ∃ es cs,
    forallb is_stream_body es = true
    ∧ match Chat.tryBlock env message sid w0 with
      | (Throw _, w1) => w1 = extend es cs (opened env message sid w0)
      | (Ok _, w1) =>
          ∃ saved, w1 = finished env sid saved
                          (extend es cs (opened env message sid w0))
      end.
Proof.
  unfold Chat.tryBlock.
  rewrite bind_run, openTurn_run. cbv beta iota.
  rewrite bind_run, firstPass_run.
  destruct (getChain env) as [[]|e]; [|by eexists [], _].
  destruct (ragChain_stream env message _) as [stream|e]; [|by eexists [], _].
  cbv zeta.
  assert (∀ l, forallb is_stream_body (map EvToken l) = true) as Htok
    by (intros; by apply forallb_tokens).
  destruct (failure stream) as [e|].
  { eexists _, _. split; [apply Htok|done]. }
  cbv beta iota. rewrite bind_run, toolStep_run.
  destruct (Chat.accumulated_tool_calls _) as [|tc tcs] eqn:Htc.
  - cbv beta iota. rewrite bind_run, answerStep_run. cbv beta iota.
    rewrite closeTurn_run.
    eexists _, _. split; [apply Htok|by eexists].
  - cbv beta iota zeta. rewrite bind_run, answerStep_run, Htc, extend_extend.
    set (ctx0 := (getSessionContext sid _).1).
    assert (∀ tail,
      forallb is_stream_body tail = true →
      forallb is_stream_body
        (map EvToken (texts (chunks stream))
         ++ EvToolExecuting (map tc_name (tc :: tcs))
            :: loopEvents (tools env) ctx0 (tc :: tcs) ++ tail) = true)
      as Hbody.
    { intros tail Htail. rewrite forallb_app, Htok. simpl.
      change (forallb is_stream_body
                (loopEvents (tools env) ctx0 (tc :: tcs) ++ tail) = true).
      by rewrite forallb_app, loopEvents_body. }
    destruct (loopResults (tools env) ctx0 (tc :: tcs)) as [|r rs] eqn:Hres.
    + cbv beta iota. rewrite closeTurn_run. eexists _, _.
      split; [|by eexists].
      specialize (Hbody [] eq_refl). by rewrite app_nil_r in Hbody.
    + destruct (contextRetriever env message) as [ragContext|e].
      2:{ rewrite extend_extend. eexists _, _. split; [|done].
          specialize (Hbody [] eq_refl). by rewrite !app_nil_r in *. }
      cbv zeta. destruct (llm_stream env _) as [s|e].
      2:{ rewrite extend_extend. eexists _, _. split; [|done].
          specialize (Hbody [] eq_refl). by rewrite !app_nil_r in *. }
      destruct (failure s) as [e|].
      * rewrite extend_extend. eexists _, _. split; [|done].
        rewrite <- !app_assoc, <- !app_comm_cons. apply Hbody, Htok.
      * cbv beta iota. rewrite closeTurn_run, extend_extend. eexists _, _.
        split; [|by eexists]. rewrite <- !app_assoc, <- !app_comm_cons.
        apply Hbody, Htok.
Qed.

(** The world a valid request leaves: the context stored, the turn
    opened, tokens and tool events sent, and then either the answer
    stored and [done] sent, or [error] sent. *)
Lemma handle_outcome body m tick message sid ctx :
  validateChatRequest body (uuidv4 env) = Valid message sid ctx →
  ∃ es cs,
    forallb is_stream_body es = true
    ∧ ((∃ saved,
          Chat.handle env body m tick
          = finished env sid saved
              (extend es cs
                 (opened env message sid (contextualised env sid ctx m tick))))
       ∨ (∃ msg,
            Chat.handle env body m tick
            = failed msg
                (extend es cs
                   (opened env message sid
                      (contextualised env sid ctx m tick))))).
Proof.
  intros Hv. rewrite (handle_valid _ _ _ _ _ _ _ Hv). unfold try_catch.
  destruct (tryBlock_stream message sid (contextualised env sid ctx m tick))
    as (es & cs & Hes & Hout).
  exists es, cs. split; [done|].
  destruct (Chat.tryBlock env message sid _) as [[[]|msg] w1].
  - left. destruct Hout as [saved ->]. by exists saved.
  - right. exists msg. rewrite catchBlock_run. cbn [snd]. by rewrite Hout.
Qed.

Lemma rejected_extend es cs w :
  rejected (res (extend es cs w)) = rejected (res w).
Proof. reflexivity. Qed.
Lemma rejected_tickw w : rejected (res (tickw w)) = rejected (res w).
Proof. reflexivity. Qed.
Lemma rejected_setm m w : rejected (res (setm m w)) = rejected (res w).
Proof. reflexivity. Qed.
Lemma rejected_endw w : rejected (res (endw w)) = rejected (res w).
Proof. reflexivity. Qed.
Lemma rejected_setupw w : rejected (res (setupw w)) = rejected (res w).
Proof. reflexivity. Qed.
Lemma headers_extend es cs w :
  headers (res (extend es cs w)) = headers (res w).
Proof. reflexivity. Qed.
Lemma headers_tickw w : headers (res (tickw w)) = headers (res w).
Proof. reflexivity. Qed.
Lemma headers_setm m w : headers (res (setm m w)) = headers (res w).
Proof. reflexivity. Qed.
Lemma headers_endw w : headers (res (endw w)) = headers (res w).
Proof. reflexivity. Qed.
Lemma headers_setupw w :
  headers (res (setupw w)) = headers (res w) ++ sse_headers.
Proof. reflexivity. Qed.

Ltac rsimpl :=
  repeat (progress
    (rewrite ?rejected_extend, ?rejected_tickw, ?rejected_setm,
       ?rejected_endw, ?rejected_setupw, ?headers_extend, ?headers_tickw,
       ?headers_setm, ?headers_endw, ?headers_setupw; wsimpl)).

Lemma response_eq (r1 r2 : Response) :
  rejected r1 = rejected r2 → headers r1 = headers r2 →
  written r1 = written r2 → ended r1 = ended r2 → r1 = r2.
Proof. destruct r1, r2; simpl; intros; by subst. Qed.

Lemma res_finished sid saved message es cs w :
  res (finished env sid saved (extend es cs (opened env message sid w)))
  = {| rejected := rejected (res w);
       headers := headers (res w) ++ sse_headers;
       written := written (res w) ++ EvSession sid :: es ++ [EvDone];
       ended := true |}.
Proof.
  apply response_eq; cbn [rejected headers written ended];
    unfold finished, opened; rsimpl; try reflexivity.
  by rewrite <- !app_assoc.
Qed.

Lemma res_failed msg message sid es cs w :
  res (failed msg (extend es cs (opened env message sid w)))
  = {| rejected := rejected (res w);
       headers := headers (res w) ++ sse_headers;
       written := written (res w) ++ EvSession sid :: es ++ [EvError msg];
       ended := true |}.
Proof.
  apply response_eq; cbn [rejected headers written ended];
    unfold failed, opened; rsimpl; try reflexivity.
  by rewrite <- !app_assoc.
Qed.

Lemma res_contextualised sid ctx m tick :
  res (contextualised env sid ctx m tick) = fresh_response.
Proof. by destruct ctx. Qed.

Lemma other_contextualised sid ctx m tick sid' :
  sid' ≠ sid →
  sessions (manager (contextualised env sid ctx m tick)) !! sid'
  = sessions m !! sid'.
Proof.
  intros Hne. destruct ctx as [c|]; [|done]. unfold contextualised. wsimpl.
  by apply other_setSessionContext.
Qed.

Lemma context_contextualised sid ctx m tick :
  (getSessionContext sid (manager (contextualised env sid ctx m tick))).1
  = match ctx with
    | Some c => Some c
    | None => (getSessionContext sid m).1
    end.
Proof.
  destruct ctx as [c|]; [|done]. unfold contextualised. wsimpl.
  rewrite context_setSessionContext. by rewrite decide_True.
Qed.

Lemma other_opened message sid w sid' :
  sid' ≠ sid →
  sessions (manager (opened env message sid w)) !! sid'
  = sessions (manager w) !! sid'.
Proof.
  intros Hne. unfold opened. wsimpl.
  rewrite SessionStore.lookup_addMessage, decide_False by done.
  rewrite SessionStore.getMessages_manager, SessionStore.lookup_getOrCreate.
  by rewrite decide_False.
Qed.

Lemma context_opened message sid w :
  (getSessionContext sid (manager (opened env message sid w))).1
  = (getSessionContext sid (manager w)).1.
Proof.
  unfold opened. wsimpl.
  by rewrite context_addMessage, SessionStore.getMessages_manager,
    context_getOrCreate.
Qed.

Lemma other_finished sid saved w sid' :
  sid' ≠ sid →
  sessions (manager (finished env sid saved w)) !! sid'
  = sessions (manager w) !! sid'.
Proof.
  intros Hne. unfold finished. wsimpl.
  rewrite SessionStore.getMessages_manager, SessionStore.lookup_getOrCreate.
  rewrite decide_False by done.
  by rewrite SessionStore.lookup_addMessage, decide_False.
Qed.

Lemma context_finished sid saved w :
  (getSessionContext sid (manager (finished env sid saved w))).1
  = (getSessionContext sid (manager w)).1.
Proof.
  unfold finished. wsimpl.
  by rewrite SessionStore.getMessages_manager, context_getOrCreate,
    context_addMessage.
Qed.

(** X9. A request without a usable message is answered with status 400 and
    the error text, and that is all: no header is set, no event
    written, the session store is as it was, no clock is read and
    nothing outside is called. *)
Theorem invalid_request_rejected (body : RequestBody)
    (m : ConversationManager.t) (tick : nat) (error : string) :
  validateChatRequest body (uuidv4 env) = Invalid error →
  Chat.handle env body m tick
  = {| manager := m;
       res := {| rejected := Some (400%nat, error); headers := [];
                 written := []; ended := true |};
       ticks := tick; calls := [] |}.
Proof.
  intros Hv. unfold Chat.handle, Chat.post. rewrite Hv. reflexivity.
Qed.

(** X10. The shape of every answered request: the event-stream headers are
    set, nothing is rejected, the stream is ended, and what was written
    is the session event, then tokens and tool events only, then exactly
    one closing event, [done] or [error]. *)
Theorem valid_request_stream_shape (body : RequestBody)
    (m : ConversationManager.t) (tick : nat) (message sid : string)
    (ctx : option json) :
  validateChatRequest body (uuidv4 env) = Valid message sid ctx →
  rejected (res (Chat.handle env body m tick)) = None
  ∧ headers (res (Chat.handle env body m tick)) = sse_headers
  ∧ ended (res (Chat.handle env body m tick)) = true
  ∧ ∃ es closing,
      written (res (Chat.handle env body m tick))
      = EvSession sid :: es ++ [closing]
      ∧ forallb is_stream_body es = true
      ∧ (closing = EvDone ∨ ∃ msg, closing = EvError msg).
Proof.
  intros Hv.
  destruct (handle_outcome body m tick message sid ctx Hv)
    as (es & cs & Hes & [[saved ->]|[msg ->]]).
  - rewrite res_finished, res_contextualised.
    split_and!; [reflexivity..|].
    exists es, EvDone. split_and!; [reflexivity|exact Hes|by left].
  - rewrite res_failed, res_contextualised.
    split_and!; [reflexivity..|].
    exists es, (EvError msg).
    split_and!; [reflexivity|exact Hes|right; by exists msg].
Qed.

(** X11. A turn reads and writes its own session only: every other session
    is, after the request, exactly what it was before. *)
Theorem turn_leaves_other_sessions (body : RequestBody)
    (m : ConversationManager.t) (tick : nat) (message sid : string)
    (ctx : option json) (sid' : string) :
  validateChatRequest body (uuidv4 env) = Valid message sid ctx →
  sid' ≠ sid →
  sessions (manager (Chat.handle env body m tick)) !! sid'
  = sessions m !! sid'.
Proof.
  intros Hv Hne.
  destruct (handle_outcome body m tick message sid ctx Hv)
    as (es & cs & Hes & [[saved ->]|[msg ->]]).
  - rewrite other_finished by done. wsimpl.
    rewrite other_opened by done. by apply other_contextualised.
  - unfold failed. wsimpl.
    rewrite other_opened by done. by apply other_contextualised.
Qed.

(** X12. The context of a request outlives the request, however the turn
    ends: a request that brings a context leaves it in the session, and
    one that brings none leaves the session's context as it was. *)
Theorem request_context_persisted (body : RequestBody)
    (m : ConversationManager.t) (tick : nat) (message sid : string)
    (ctx : option json) :
  validateChatRequest body (uuidv4 env) = Valid message sid ctx →
  (getSessionContext sid (manager (Chat.handle env body m tick))).1
  = match ctx with
    | Some c => Some c
    | None => (getSessionContext sid m).1
    end.
Proof.
  intros Hv.
  destruct (handle_outcome body m tick message sid ctx Hv)
    as (es & cs & Hes & [[saved ->]|[msg ->]]).
  - rewrite context_finished. wsimpl.
    by rewrite context_opened, context_contextualised.
  - unfold failed. wsimpl.
    by rewrite context_opened, context_contextualised.
Qed.

(** X13. After any answered request the session exists and is within the
    window, whatever it held before: the session route reports it with
    at least one and at most [maxMessagesPerSession] messages. *)
Theorem session_reported_after_turn (body : RequestBody)
    (m : ConversationManager.t) (tick : nat) (message sid : string)
    (ctx : option json) (now : Z) :
  validateChatRequest body (uuidv4 env) = Valid message sid ctx →
  1 ≤ maxMessagesPerSession m →
  ∃ count last_access age,
    (SessionRoutes.get_session sid now
       (manager (Chat.handle env body m tick))).1
    = (200%nat, SessionRoutes.SessionInfo (sid, count, last_access, age))
    ∧ (1 ≤ count)%nat
    ∧ Z.of_nat count ≤ maxMessagesPerSession m.
Proof.
  intros Hv Hw.
  assert (∀ w msg u t0,
    maxMessagesPerSession w = maxMessagesPerSession m →
    ∃ s, sessions (addMessage sid msg u t0 w) !! sid = Some s
         ∧ (1 ≤ length (history s))%nat
         ∧ Z.of_nat (length (history s)) ≤ maxMessagesPerSession m) as Hadd.
  { intros w msg u t0 Hmax. eexists. split.
    - rewrite SessionStore.lookup_addMessage. by rewrite decide_True.
    - cbn [history]. rewrite SessionStore.window_last_n by lia.
      rewrite SessionStore.length_last_n, length_app. simpl. lia. }
  assert (∀ m1, (∃ s, sessions m1 !! sid = Some s
                      ∧ (1 ≤ length (history s))%nat
                      ∧ Z.of_nat (length (history s)) ≤ maxMessagesPerSession m)
          → ∃ count last_access age,
              (SessionRoutes.get_session sid now m1).1
              = (200%nat,
                 SessionRoutes.SessionInfo (sid, count, last_access, age))
              ∧ (1 ≤ count)%nat
              ∧ Z.of_nat count ≤ maxMessagesPerSession m) as Hget.
  { intros m1 (s & Hs & Hlo & Hhi).
    unfold SessionRoutes.get_session, getSessionInfo. rewrite Hs.
    by eexists _, _, _. }
  assert (maxMessagesPerSession
            (manager (opened env message sid
                        (contextualised env sid ctx m tick)))
          = maxMessagesPerSession m) as Hmo.
  { unfold opened. wsimpl.
    by rewrite SessionStore.max_addMessage, max_getMessages,
      max_contextualised. }
  destruct (handle_outcome body m tick message sid ctx Hv)
    as (es & cs & Hes & [[saved ->]|[msg ->]]); apply Hget.
  - unfold finished. wsimpl.
    destruct (Hadd (manager (opened env message sid
                               (contextualised env sid ctx m tick)))
                saved false
                (clock env (ticks (opened env message sid
                                     (contextualised env sid ctx m tick)))))
      as (s & Hs & Hlo & Hhi); [done|].
    rewrite SessionStore.getMessages_manager, SessionStore.lookup_getOrCreate.
    rewrite decide_True by done. rewrite Hs.
    eexists. split; [done|]. by simpl.
  - unfold failed. wsimpl. unfold opened. wsimpl.
    apply Hadd.
    by rewrite max_getMessages, max_contextualised.
Qed.

(** X14. A request that names no session gets a generated one and is told
    so: the first event of the response carries the generated id, and
    the session of that id exists afterwards. *)
Theorem generated_session_id_announced (body : RequestBody)
    (m : ConversationManager.t) (tick : nat) (message : string) :
  body_message body = Some (JStr message) →
  message ≠ "" →
  body_sessionId body = None ∨ body_sessionId body = Some "" →
  head (written (res (Chat.handle env body m tick)))
  = Some (EvSession (uuidv4 env))
  ∧ is_Some (sessions (manager (Chat.handle env body m tick))
               !! uuidv4 env).
Proof.
  intros Hm Hne Hsid.
  assert (∃ ctx, validateChatRequest body (uuidv4 env)
                 = Valid message (uuidv4 env) ctx) as [ctx Hv].
  { unfold validateChatRequest. rewrite Hm.
    destruct message as [|c rest]; [done|]. cbn [nonempty].
    destruct Hsid as [->| ->]; by eexists. }
  destruct (handle_outcome body m tick message (uuidv4 env) ctx Hv)
    as (es & cs & Hes & [[saved ->]|[msg ->]]).
  - rewrite res_finished, res_contextualised. split; [reflexivity|].
    unfold finished. wsimpl.
    rewrite SessionStore.getMessages_manager, SessionStore.lookup_getOrCreate.
    by rewrite decide_True.
  - rewrite res_failed, res_contextualised. split; [reflexivity|].
    unfold failed. wsimpl. unfold opened. wsimpl.
    rewrite SessionStore.lookup_addMessage. by rewrite decide_True.
Qed.

End Any.

(** X8. What [validateChatRequest] lets through: exactly the bodies whose
    message is a non-empty string. The message is passed on as it is;
    the session id is the client's or the generated one, and is not
    empty when the generated one is not; a stored context is never
    [null], and is the one the client sent. *)
Theorem validateChatRequest_accepts (body : RequestBody) (uuid : string) :
  match validateChatRequest body uuid with
  | Valid message sid ctx =>
      body_message body = Some (JStr message)
      ∧ message ≠ ""
      ∧ (body_sessionId body = Some sid ∨ sid = uuid)
      ∧ (uuid ≠ "" → sid ≠ "")
      ∧ ctx ≠ Some JNull
      ∧ (∀ c, ctx = Some c → body_context body = Some c)
  | Invalid error =>
      error = "Message is required and must be a string"
      ∧ (∀ message, body_message body = Some (JStr message) → message = "")
  end.
Proof.
  unfold validateChatRequest.
  destruct (body_message body) as [[| | |message| |]|]; try by split.
  destruct message as [|c rest]; cbn [nonempty].
  { split; [done|]. by intros ? [= <-]. }
  split_and!; [done|done| | | |].
  - destruct (body_sessionId body) as [[|c' s]|]; cbn [nonempty]; auto.
  - destruct (body_sessionId body) as [[|c' s]|]; cbn [nonempty]; auto.
  - destruct (body_context body) as [[]|]; simpl; try done.
    all: by case_match.
  - intros c0. destruct (body_context body) as [c1|]; [|done].
    by case_match.
Qed.

(** X15. Deleting a session makes the session route answer 404 for it, and
    the delete itself answers 200 whether or not the session existed;
    reading a session never changes the store, and never creates the
    session it asks about. *)
Theorem session_routes_round_trip (sid : string) (now : Z) (m : t) :
  (SessionRoutes.get_session sid now
     (SessionRoutes.delete_session sid m).2).1
  = (404%nat, SessionRoutes.Failure "Session not found")
  ∧ (SessionRoutes.delete_session sid m).1.1 = 200%nat
  ∧ (SessionRoutes.get_session sid now m).2 = m
  ∧ (∀ sid', sid' ≠ sid →
       (SessionRoutes.get_session sid' now
          (SessionRoutes.delete_session sid m).2).1
       = (SessionRoutes.get_session sid' now m).1).
Proof.
  unfold SessionRoutes.get_session, SessionRoutes.delete_session,
    getSessionInfo. cbn [fst snd].
  rewrite SessionStore.clearSession_delete,
    SessionStore.sessions_with_sessions.
  split_and!.
  - by rewrite lookup_delete_eq.
  - done.
  - by destruct (sessions m !! sid).
  - intros sid' Hne. rewrite lookup_delete_ne by congruence.
    by destruct (sessions m !! sid').
Qed.

End Requests.

(* ===================================================================== *)
(** * More on the tool code *)
(* ===================================================================== *)

Module ToolsMore.
Import ConversationManager Examples.

Lemma obj_get_set_eq (k : string) (v : json) (o : jsobject) :
  obj_get k (obj_set k v o) = Some v.
Proof.
  induction o as [|[k' v'] o IH]; simpl.
  - by rewrite String.eqb_refl.
  - destruct (String.eqb k k') eqn:E; simpl; rewrite ?String.eqb_refl, ?E;
      done.
Qed.

Lemma obj_get_set_ne (k k0 : string) (v : json) (o : jsobject) :
  k0 ≠ k → obj_get k0 (obj_set k v o) = obj_get k0 o.
Proof.
  intros Hne. induction o as [|[k' v'] o IH]; simpl.
  - destruct (String.eqb_spec k0 k); [done|reflexivity].
  - destruct (String.eqb_spec k k') as [->|Hk]; simpl.
    + destruct (String.eqb_spec k0 k'); [done|reflexivity].
    + destruct (String.eqb_spec k0 k'); [done|exact IH].
Qed.

(** What one call contributes to the results: nothing, or one result
    that bears the call's name, holds a result and holds no error. *)
Lemma callOutcome_results tools0 ctx0 tc :
  (callOutcome tools0 ctx0 tc).1.2 = []
  ∨ ∃ r, (callOutcome tools0 ctx0 tc).1.2
         = [{| tr_name := tc_name tc; tr_args := None;
               tr_result := Some r; tr_error := None |}].
Proof.
  unfold callOutcome. destruct (find_tool _ _) as [tool|]; [|by left].
  destruct (tool_invoke tool _) as [r|msg]; [right; by exists r|by left].
Qed.

Lemma loopResults_cons tools0 ctx0 tc tcs :
  loopResults tools0 ctx0 (tc :: tcs)
  = (callOutcome tools0 ctx0 tc).1.2 ++ loopResults tools0 ctx0 tcs.
Proof. reflexivity. Qed.

Lemma loopResults_names tools0 ctx0 tcs :
  map tr_name (loopResults tools0 ctx0 tcs) `sublist_of` map tc_name tcs.
Proof.
  induction tcs as [|tc tcs IH]; [done|]. rewrite loopResults_cons.
  destruct (callOutcome_results tools0 ctx0 tc) as [->|[r ->]]; simpl.
  - by apply sublist_cons.
  - by apply sublist_skip.
Qed.

Lemma loopResults_clean tools0 ctx0 tcs :
  Forall (fun r => tr_error r = None ∧ is_Some (tr_result r))
         (loopResults tools0 ctx0 tcs).
Proof.
  induction tcs as [|tc tcs IH]; [by constructor|]. rewrite loopResults_cons.
  destruct (callOutcome_results tools0 ctx0 tc) as [->|[r ->]]; simpl;
    [done|]. constructor; [|done]. simpl. by split.
Qed.

Lemma loopResults_length tools0 ctx0 tcs :
  (length (loopResults tools0 ctx0 tcs) ≤ length tcs)%nat.
Proof.
  rewrite <- (length_map tr_name), <- (length_map tc_name tcs).
  apply sublist_length, loopResults_names.
Qed.

(** When every call leaves a result, the results line up with the
    calls. *)
Lemma loopResults_full tools0 ctx0 tcs :
  length (loopResults tools0 ctx0 tcs) = length tcs →
  map tr_name (loopResults tools0 ctx0 tcs) = map tc_name tcs.
Proof.
  induction tcs as [|tc tcs IH]; [done|]. rewrite loopResults_cons.
  pose proof (loopResults_length tools0 ctx0 tcs) as Hle.
  destruct (callOutcome_results tools0 ctx0 tc) as [->|[r ->]]; simpl.
  - intros Hlen. lia.
  - intros [= Hlen]. by rewrite IH.
Qed.

Lemma executeToolCallsWithSSE_run toolCalls tools0 sid w :
  StreamProcessor.executeToolCallsWithSSE toolCalls tools0 sid w
  = (Ok (loopResults tools0 (getSessionContext sid (manager w)).1 toolCalls),
     extend (loopEvents tools0 (getSessionContext sid (manager w)).1 toolCalls)
            (loopCalls tools0 (getSessionContext sid (manager w)).1 toolCalls)
            w).
Proof.
  unfold StreamProcessor.executeToolCallsWithSSE.
  rewrite Turn.bind_run, Turn.on_manager_run. cbv beta iota.
  rewrite Turn.executeLoop_run. reflexivity.
Qed.

(** X16. The tool loop cannot fail a turn: whatever the tools do, it returns
    normally, leaves the session store, the clock and the state of the
    response alone, and returns results that bear the names of calls,
    in call order, each with a result and without an error. *)
Theorem tool_loop_never_throws (toolCalls : list ToolCall)
    (tools0 : list Tool) (sid : string) (w : World) :
  ∃ results,
    (StreamProcessor.executeToolCallsWithSSE toolCalls tools0 sid w).1
    = Ok results
    ∧ map tr_name results `sublist_of` map tc_name toolCalls
    ∧ Forall (fun r => tr_error r = None ∧ is_Some (tr_result r)) results
    ∧ manager (StreamProcessor.executeToolCallsWithSSE
                 toolCalls tools0 sid w).2 = manager w
    ∧ ticks (StreamProcessor.executeToolCallsWithSSE
               toolCalls tools0 sid w).2 = ticks w
    ∧ ended (res (StreamProcessor.executeToolCallsWithSSE
                    toolCalls tools0 sid w).2) = ended (res w).
Proof.
  rewrite executeToolCallsWithSSE_run. cbn [fst snd].
  eexists. split_and!; [reflexivity| | |reflexivity..].
  - apply loopResults_names.
  - apply loopResults_clean.
Qed.

Lemma loopCalls_args tools0 ctx0 tcs c :
  c ∈ loopCalls tools0 ctx0 tcs →
  ∃ tc tool,
    tc ∈ tcs
    ∧ find_tool (tc_name tc) tools0 = Some tool
    ∧ c = CallTool (tc_name tc)
            (obj_set "_clientContext" (default JNull ctx0) (tc_args tc)).
Proof.
  unfold loopCalls. induction tcs as [|tc tcs IH]; simpl.
  { by intros ?%elem_of_nil. }
  rewrite elem_of_app. intros [Hc|Hc].
  - unfold callOutcome in Hc.
    destruct (find_tool (tc_name tc) tools0) as [tool|] eqn:Ef;
      [|by apply elem_of_nil in Hc].
    exists tc, tool. split_and!; [by left|done|].
    destruct (tool_invoke tool _); simpl in Hc;
      by apply list_elem_of_singleton in Hc.
  - destruct (IH Hc) as (tc' & tool & Htc & Hf & ->).
    exists tc', tool. split_and!; [by right|done..].
Qed.

(** X17. Every tool invocation of the loop is for a call of the list whose
    tool is registered, and its arguments are the call's own with the
    session's context under [_clientContext] ([null] when the session
    has none): the context is always there, and every other argument is
    what the model asked for. *)
Theorem tool_args_carry_client_context (toolCalls : list ToolCall)
    (tools0 : list Tool) (sid : string) (w : World) (c : ExtCall) :
  c ∈ drop (length (calls w))
        (calls (StreamProcessor.executeToolCallsWithSSE
                  toolCalls tools0 sid w).2) →
  ∃ tc args,
    tc ∈ toolCalls
    ∧ is_Some (find_tool (tc_name tc) tools0)
    ∧ c = CallTool (tc_name tc) args
    ∧ obj_get "_clientContext" args
      = Some (default JNull (getSessionContext sid (manager w)).1)
    ∧ ∀ k, k ≠ "_clientContext" → obj_get k args = obj_get k (tc_args tc).
Proof.
  rewrite executeToolCallsWithSSE_run. cbn [snd].
  rewrite Turn.calls_extend, drop_app_length.
  intros Hc. apply loopCalls_args in Hc as (tc & tool & Htc & Hf & ->).
  eexists tc, _. split_and!; [done|by rewrite Hf|reflexivity| |].
  - apply obj_get_set_eq.
  - intros k Hk. by apply obj_get_set_ne.
Qed.

(** X18. When every call of the loop left a result, each tool message
    answers the call at its own position: it bears that call's id and
    name. *)
Theorem tool_messages_aligned_when_all_succeed (toolCalls : list ToolCall)
    (tools0 : list Tool) (sid : string) (w : World)
    (results : list ToolResult) (idx : nat) (call : ToolCall) (id : string) :
  (StreamProcessor.executeToolCallsWithSSE toolCalls tools0 sid w).1
  = Ok results →
  length results = length toolCalls →
  toolCalls !! idx = Some call →
  tc_id call = Some id →
  ∃ content,
    ToolExecutor.buildToolMessages results toolCalls !! idx
    = Some (ToolMessage content id (tc_name call)).
Proof.
  rewrite executeToolCallsWithSSE_run.
  generalize ((getSessionContext sid (manager w)).1). intros ctx0.
  cbn [fst]. intros [= <-] Hlen Hc Hid.
  apply loopResults_full in Hlen.
  assert (map tr_name (loopResults tools0 ctx0 toolCalls) !! idx
          = Some (tc_name call)) as Hn.
  { by rewrite Hlen, list_lookup_fmap, Hc. }
  rewrite list_lookup_fmap in Hn.
  destruct (loopResults _ _ _ !! idx) as [r|] eqn:Hr; [|done].
  injection Hn as Hn.
  unfold ToolExecutor.buildToolMessages.
  rewrite list_lookup_imap, Hr. simpl. rewrite Hc, Hid, Hn. by eexists.
Qed.

(** X19. [executeToolCalls] answers call for call: one result per call, in
    order and under the call's name, each holding either a result or an
    error, never both and never neither; and it reports tool calls
    exactly when the list is not empty. *)
Theorem executeToolCalls_one_result_per_call (toolCalls : list ToolCall)
    (tools0 : list Tool) :
  map tr_name (ToolExecutor.executeToolCalls toolCalls tools0).1
  = map tc_name toolCalls
  ∧ Forall (fun r => is_Some (tr_result r) ↔ tr_error r = None)
           (ToolExecutor.executeToolCalls toolCalls tools0).1
  ∧ ((ToolExecutor.executeToolCalls toolCalls tools0).2 = true
     ↔ toolCalls ≠ []).
Proof.
  assert (∀ tc, tr_name (ToolExecutor.executeOne tools0 tc) = tc_name tc)
    as Hname.
  { intros tc. unfold ToolExecutor.executeOne.
    destruct (find_tool _ _) as [tool|]; [|done].
    by destruct (tool_invoke tool _). }
  assert (∀ tc, is_Some (tr_result (ToolExecutor.executeOne tools0 tc))
                ↔ tr_error (ToolExecutor.executeOne tools0 tc) = None)
    as Hone.
  { intros tc. unfold ToolExecutor.executeOne.
    destruct (find_tool _ _) as [tool|]; simpl.
    - destruct (tool_invoke tool _); simpl; split; try done;
        by intros [? ?].
    - split; [by intros [? ?]|done]. }
  unfold ToolExecutor.executeToolCalls.
  destruct toolCalls as [|tc tcs]; [by split_and!|]. cbn [fst snd].
  split_and!.
  - rewrite <- list_fmap_compose. apply list_fmap_ext. intros ? x _.
    apply Hname.
  - apply Forall_fmap, Forall_forall. intros x _. apply Hone.
  - done.
Qed.

(** X20. [parseToolCallChunk] never hands out an empty list: it returns a
    non-empty list, taken from the chunk, or nothing; and it returns
    nothing only when both fields are absent or empty. *)
Theorem parseToolCallChunk_nonempty {A} (tool_call_chunks tool_calls
    : option (list A)) :
  match parseToolCallChunk tool_call_chunks tool_calls with
  | Some l =>
      l ≠ [] ∧ (tool_call_chunks = Some l
                ∨ (default [] tool_call_chunks = []
                   ∧ tool_calls = Some l))
  | None => default [] tool_call_chunks = [] ∧ default [] tool_calls = []
  end.
Proof.
  unfold parseToolCallChunk.
  destruct tool_call_chunks as [[|x l]|], tool_calls as [[|y l']|];
    simpl; split; try done; by auto.
Qed.



End ToolsMore.

(* ===================================================================== *)
(** * The batch loop of the ingestion *)
(* ===================================================================== *)

Module IngestFacts.
Import Ingest.

Section Loop.
Context {Doc Store : Type}.
Variable addDocuments : list Doc → Store → Result unit * Store.

(** The loop from [i] on: it ends within one iteration per remaining
    chunk, every remaining chunk is handed over once and in order, and
    is counted once, as stored or as failed; and the callback hears of
    each batch the store took, and of no other. *)
Lemma batchLoop_from (fuel : nat) (basename : string) (splitDocs : list Doc)
    (i : nat) (st : LoopState) :
  (length splitDocs - i ≤ fuel)%nat →
  ∃ st' sub,
    batchLoop addDocuments fuel basename splitDocs i st = Some st'
    ∧ (successfulChunks st' + failedChunks st'
       = successfulChunks st + failedChunks st + (length splitDocs - i))%nat
    ∧ submitted st' = submitted st ++ sub
    ∧ concat sub = drop i splitDocs
    ∧ Forall (fun b : list Doc => (1 ≤ length b ≤ batchSize)%nat) sub
    ∧ progress st'
      = progress st
        ++ map (fun stored => BatchStored basename stored (length splitDocs))
               (stored_reports addDocuments sub (vectorStore st)
                  (successfulChunks st))
    ∧ successfulChunks st'
      = default (successfulChunks st)
          (last (stored_reports addDocuments sub (vectorStore st)
                   (successfulChunks st)))
    ∧ Forall (fun stored => (successfulChunks st < stored
                             ≤ successfulChunks st')%nat)
             (stored_reports addDocuments sub (vectorStore st)
                (successfulChunks st)).
Proof.
  revert i st. induction fuel as [|fuel IH]; intros i st Hfuel.
  - simpl. destruct (Nat.ltb_spec i (length splitDocs)); [lia|].
    exists st, []. split_and!; try done.
    + lia.
    + by rewrite app_nil_r.
    + by rewrite drop_ge by lia.
    + by rewrite app_nil_r.
  - simpl. destruct (Nat.ltb_spec i (length splitDocs)) as [Hlt|Hge].
    2:{ exists st, []. split_and!; try done.
        + lia.
        + by rewrite app_nil_r.
        + by rewrite drop_ge by lia.
        + by rewrite app_nil_r. }
    set (batch := take batchSize (drop i splitDocs)).
    assert (length batch = Nat.min batchSize (length splitDocs - i)) as Hlen.
    { unfold batch. by rewrite length_take, length_drop. }
    assert (1 ≤ length batch ≤ batchSize)%nat as Hb
      by (unfold batchSize in *; lia).
    assert (drop i splitDocs = batch ++ drop (i + batchSize) splitDocs)
      as Hdrop.
    { unfold batch. rewrite <- (take_drop batchSize (drop i splitDocs)) at 1.
      by rewrite drop_drop. }
    assert (length batch + (length splitDocs - (i + batchSize))
            = length splitDocs - i)%nat as Hsum
      by (unfold batchSize in *; lia).
    destruct (addDocuments batch (vectorStore st)) as [[[]|msg] store']
      eqn:Hadd.
    + edestruct (IH (i + batchSize)%nat) as
        (st' & sub & -> & Hcount & Hsub & Hcat & Hall & Hprog & Hlast & Hrep);
        [unfold batchSize; lia|].
      cbn [successfulChunks failedChunks submitted progress vectorStore] in *.
      exists st', (batch :: sub).
      cbn [stored_reports]. rewrite Hadd.
      assert (successfulChunks st + length batch ≤ successfulChunks st')%nat
        as Hmono.
      { rewrite Hlast. destruct (last _) as [n|] eqn:El; simpl; [|lia].
        rewrite Forall_forall in Hrep.
        assert (n ∈ stored_reports addDocuments sub store'
                      (successfulChunks st + length batch)) as Hn
          by (by apply last_Some_elem_of).
        specialize (Hrep n Hn). lia. }
      split_and!; [done|lia| | | | | |].
      * by rewrite Hsub, <- app_assoc.
      * simpl. by rewrite Hcat, <- Hdrop.
      * by constructor.
      * by rewrite Hprog, <- app_assoc.
      * rewrite Hlast. rewrite last_cons. by destruct (last _).
      * constructor; [lia|]. eapply Forall_impl; [exact Hrep|]. simpl.
        intros n Hn. lia.
    + edestruct (IH (i + batchSize)%nat) as
        (st' & sub & -> & Hcount & Hsub & Hcat & Hall & Hprog & Hlast & Hrep);
        [unfold batchSize; lia|].
      cbn [successfulChunks failedChunks submitted progress vectorStore] in *.
      exists st', (batch :: sub).
      cbn [stored_reports]. rewrite Hadd.
      split_and!; [done|lia| | | | | |].
      * by rewrite Hsub, <- app_assoc.
      * simpl. by rewrite Hcat, <- Hdrop.
      * by constructor.
      * by rewrite Hprog.
      * done.
      * done.
Qed.

(** X22. Every chunk of a file is accounted for. The loop ends; the batches
    handed to the store are the chunks in order, each of one to ten
    chunks; the chunks counted as stored and those counted as failed add
    up to the chunks of the file; and the callback hears [chunks_start],
    then exactly one [batch_stored] for each batch the store took, in
    order, carrying the file's total and the number of chunks taken so
    far (at least one, at most the total, the last being the final
    count of stored chunks), then [file_done]. *)
Theorem storeFile_accounts_for_every_chunk (fuel : nat) (basename : string)
    (splitDocs : list Doc) (store : Store) :
  (length splitDocs ≤ fuel)%nat →
  ∃ st,
    storeFile addDocuments fuel basename splitDocs store = Some st
    ∧ (successfulChunks st + failedChunks st = length splitDocs)%nat
    ∧ concat (submitted st) = splitDocs
    ∧ Forall (fun b : list Doc => (1 ≤ length b ≤ batchSize)%nat)
             (submitted st)
    ∧ progress st
      = ChunksStart basename (length splitDocs)
        :: map (fun stored => BatchStored basename stored (length splitDocs))
               (stored_reports addDocuments (submitted st) store 0)
        ++ [FileDone basename]
    ∧ successfulChunks st
      = default 0%nat
          (last (stored_reports addDocuments (submitted st) store 0))
    ∧ Forall (fun stored => (1 ≤ stored ≤ length splitDocs)%nat)
             (stored_reports addDocuments (submitted st) store 0).
Proof.
  intros Hfuel. unfold storeFile.
  edestruct (batchLoop_from fuel basename splitDocs 0) as
    (st' & sub & -> & Hcount & Hsub & Hcat & Hall & Hprog & Hlast & Hrep);
    [lia|].
  cbn [successfulChunks failedChunks submitted progress vectorStore] in *.
  eexists. split; [reflexivity|].
  cbn [successfulChunks failedChunks submitted progress mbind option_bind].
  rewrite Hsub. cbn [app].
  split_and!.
  - lia.
  - by rewrite Hcat.
  - done.
  - by rewrite Hprog.
  - done.
  - eapply Forall_impl; [exact Hrep|]. simpl. intros n Hn. lia.
Qed.

(** The batch loop does not depend on how many iterations it is
    allowed, once it is allowed enough. *)
Lemma batchLoop_fuel (fuel fuel' : nat) (basename : string)
    (splitDocs : list Doc) (i : nat) (st : LoopState) :
  (length splitDocs - i ≤ fuel)%nat → (length splitDocs - i ≤ fuel')%nat →
  batchLoop addDocuments fuel basename splitDocs i st
  = batchLoop addDocuments fuel' basename splitDocs i st.
Proof.
  revert fuel' i st. induction fuel as [|fuel IH]; intros fuel' i st H1 H2.
  - destruct fuel'; simpl;
      destruct (Nat.ltb_spec i (length splitDocs)); try lia; done.
  - destruct fuel' as [|fuel']; simpl;
      destruct (Nat.ltb_spec i (length splitDocs)); try lia; try done.
    destruct (addDocuments _ _) as [[[]|msg] store'];
      apply IH; unfold batchSize; lia.
Qed.

(** X23. A store that rejects everything stops nothing: every batch is
    still tried, all chunks count as failed, and the callback hears of
    no stored batch. *)
Theorem storeFile_survives_a_failing_store (fuel : nat) (basename : string)
    (splitDocs : list Doc) (store : Store) :
  (length splitDocs ≤ fuel)%nat →
  (∀ batch s, ∃ msg s', addDocuments batch s = (Throw msg, s')) →
  ∃ st,
    storeFile addDocuments fuel basename splitDocs store = Some st
    ∧ successfulChunks st = 0%nat
    ∧ failedChunks st = length splitDocs
    ∧ concat (submitted st) = splitDocs
    ∧ progress st
      = [ChunksStart basename (length splitDocs); FileDone basename].
Proof.
  intros Hfuel Hfail. unfold storeFile.
  assert (∀ fuel0 i st, (length splitDocs - i ≤ fuel0)%nat →
    ∃ st', batchLoop addDocuments fuel0 basename splitDocs i st = Some st'
           ∧ successfulChunks st' = successfulChunks st
           ∧ progress st' = progress st) as Hloop.
  { induction fuel0 as [|fuel0 IH]; intros i st Hf; simpl;
      destruct (Nat.ltb_spec i (length splitDocs)); try lia;
      try by exists st.
    destruct (Hfail (take batchSize (drop i splitDocs)) (vectorStore st))
      as (msg & s' & ->).
    edestruct (IH (i + batchSize)%nat) as (st' & -> & Hs & Hp);
      [unfold batchSize; lia|].
    by exists st'. }
  edestruct (batchLoop_from fuel basename splitDocs 0) as
    (st' & sub & Hrun & Hcount & Hsub & Hcat & _); [lia|].
  edestruct (Hloop fuel 0%nat) as (st'' & Hrun' & Hs & Hp); [lia|].
  rewrite Hrun in Hrun'. injection Hrun' as <-.
  rewrite Hrun. cbn [successfulChunks failedChunks submitted progress] in *.
  eexists. split; [reflexivity|].
  cbn [successfulChunks failedChunks submitted progress].
  split_and!; [done|lia|rewrite Hsub; simpl; by rewrite Hcat|by rewrite Hp].
Qed.

End Loop.
End IngestFacts.

(* ===================================================================== *)
(** * More on the protocol bridge *)
(* ===================================================================== *)

Module BridgeMore.
Import Bridge BridgePost BridgeFacts.

Section Codec.
Context `{JSON}.

(** What a pass over lines does to the controller: it enqueues chunks
    that are not finish lines and, when it meets a [done] line, a
    finish line, after which it closes and stops. *)
Lemma processLines_shape (lines : list string) (ctl : Controller) :
  ∃ out,
    filter (fun c => is_finish_part c = true) out = []
    ∧ processLines lines ctl
      = (false, {| enqueued := enqueued ctl ++ out; closed := closed ctl |})
      ∨ ∃ out,
          filter (fun c => is_finish_part c = true) out = []
          ∧ processLines lines ctl
            = (true, {| enqueued := enqueued ctl ++ out ++ [finish_line];
                        closed := true |}).
Proof.
  revert ctl. induction lines as [|l lines IH]; intros ctl.
  - exists []. left. simpl. rewrite app_nil_r. by destruct ctl.
  - simpl. destruct (handle_line l) as [|chunk|] eqn:E.
    + apply IH.
    + destruct (IH (enqueue chunk ctl)) as [out [[Hout ->]|Hr]].
      * exists (chunk :: out). left. split.
        -- rewrite filter_cons, decide_False; [done|].
           by rewrite (handle_line_chunk _ _ E).
        -- simpl. by rewrite <- app_assoc.
      * destruct Hr as (out' & Hout' & ->). exists []. right.
        exists (chunk :: out'). split.
        -- rewrite filter_cons, decide_False; [done|].
           by rewrite (handle_line_chunk _ _ E).
        -- simpl. by rewrite <- app_assoc.
    + exists []. right. exists []. split; [done|]. reflexivity.
Qed.

Lemma error_part_not_finish (msg : string) :
  is_finish_part (error_part msg) = false.
Proof. reflexivity. Qed.

Lemma error_part_is_error (msg : string) :
  is_error_part (error_part msg) = true.
Proof. unfold is_error_part, error_part. apply prefix_append. Qed.

(** The output of the bridge for any upstream: chunks that are not
    finish lines, then one closing chunk, and the output closed. The
    closing chunk is the finish line, or, when reading failed before
    any [done] line, the error part with the failure's message. *)
Lemma start_shape (up : Upstream) :
  ∃ out closing,
    start up = {| enqueued := out ++ [closing]; closed := true |}
    ∧ filter (fun c => is_finish_part c = true) out = []
    ∧ (closing = finish_line
       ∨ ∃ msg, read_error up = Some msg ∧ closing = error_part msg).
Proof.
  destruct up as [values err]. rewrite start_complete_lines.
  destruct (processLines_shape (complete_lines (concat_reads values)) fresh)
    as [out [[Hout ->]|(out' & Hout' & ->)]].
  - destruct err as [msg|].
    + exists out, (error_part msg). split_and!; [done|done|].
      right. by exists msg.
    + exists out, finish_line. split_and!; [done|done|by left].
  - exists out', finish_line. split_and!; [done|done|by left].
Qed.

(** X24. The bridge always ends what it started: for every upstream,
    however it is cut into reads, whatever its lines hold and whether
    or not reading fails, the output is closed, its last chunk is the
    finish line or an error part, and no finish line comes before the
    last chunk. *)
Theorem bridge_always_closes (up : Upstream) :
  closed (start up) = true
  ∧ ∃ out closing,
      enqueued (start up) = out ++ [closing]
      ∧ filter (fun c => is_finish_part c = true) out = []
      ∧ (is_finish_part closing = true ∨ is_error_part closing = true).
Proof.
  destruct (start_shape up) as (out & closing & -> & Hout & Hc).
  split; [done|]. exists out, closing. split_and!; [done|done|].
  destruct Hc as [->|(msg & _ & ->)]; [by left|right].
  apply error_part_is_error.
Qed.

(** X25. Only the text counts, not how it arrives: two upstreams that
    deliver the same text and end the same way give the same output. *)
Theorem bridge_ignores_read_boundaries (values1 values2 : list string)
    (err : option string) :
  concat_reads values1 = concat_reads values2 →
  start {| reads := values1; read_error := err |}
  = start {| reads := values2; read_error := err |}.
Proof. intros Heq. by rewrite !start_complete_lines, Heq. Qed.

(** X26. Nothing after [done] gets through: once a complete line is a
    [done] event, the output is what the lines before it called for and
    the finish line, whatever follows in the text and even when reading
    fails afterwards. *)
Theorem bridge_stops_at_done (values : list string) (err : option string)
    (before after : list string) (line : string) :
  complete_lines (concat_reads values) = before ++ line :: after →
  Forall (fun l => is_done_line l = false) before →
  is_done_line line = true →
  start {| reads := values; read_error := err |}
  = {| enqueued := emitted before ++ [finish_line]; closed := true |}.
Proof.
  intros Hlines Hbefore Hdone. rewrite start_complete_lines, Hlines.
  rewrite processLines_app, processLines_emitted by done.
  simpl. unfold is_done_line in Hdone.
  destruct (handle_line line); done.
Qed.

(** X27. A failed read is reported, not hidden: when reading fails and no
    complete line was a [done] event, the output is what the lines
    called for and then the error part with the failure's message; no
    finish line is sent. *)
Theorem bridge_reports_read_failure (values : list string) (msg : string) :
  Forall (fun l => is_done_line l = false)
         (complete_lines (concat_reads values)) →
  start {| reads := values; read_error := Some msg |}
  = {| enqueued := emitted (complete_lines (concat_reads values))
                   ++ [error_part msg];
       closed := true |}
  ∧ filter (fun c => is_finish_part c = true)
      (enqueued (start {| reads := values; read_error := Some msg |}))
    = [].
Proof.
  intros Hl. rewrite start_complete_lines, processLines_emitted by done.
  split; [done|]. unfold close, enqueue, fresh. cbn [enqueued app].
  rewrite filter_app, emitted_no_finish.
  by rewrite filter_cons, decide_False.
Qed.

(** X28. A request without a message is answered with 400 and the backend
    is not asked: the response is the same whatever the backend would
    have said. *)
Theorem bridge_rejects_empty_message
    (fetch1 fetch2 : string → Result BackendResponse)
    (body : BridgeRequest) :
  js_truthy (last_content body) = false →
  status (POST fetch1 body) = 400%nat
  ∧ POST fetch1 body = POST fetch2 body.
Proof. intros Hm. unfold POST. by rewrite Hm. Qed.

(** X29. A request with a message always gets a data stream that ends
    properly: status 200, the data-stream headers, and a body whose
    last chunk is the finish line or an error part, with no finish line
    before it. When the backend cannot be reached the body is the one
    error part with the failure's message and nothing else; when it
    answers with a status outside 200-299, or without a body, the body
    is the one error part [Backend error: <status>] and nothing else;
    otherwise the body is what the translation of the backend's stream
    enqueues. *)
Theorem bridge_reply_always_terminated
    (fetch : string → Result BackendResponse) (body : BridgeRequest) :
  js_truthy (last_content body) = true →
  status (POST fetch body) = 200%nat
  ∧ response_headers (POST fetch body) = data_stream_headers
  ∧ (∃ out closing,
       response_body (POST fetch body) = out ++ [closing]
       ∧ filter (fun c => is_finish_part c = true) out = []
       ∧ (is_finish_part closing = true ∨ is_error_part closing = true))
  ∧ (∀ upstream backendRes,
       fetch (JSON_stringify
                (object_literal
                   [("message", Some (last_content body));
                    ("sessionId", sessionId body);
                    ("context", context body)])) = Ok backendRes →
       backend_ok backendRes = true →
       backend_body backendRes = Some upstream →
       response_body (POST fetch body) = enqueued (start upstream))
  ∧ (∀ msg,
       fetch (JSON_stringify
                (object_literal
                   [("message", Some (last_content body));
                    ("sessionId", sessionId body);
                    ("context", context body)])) = Throw msg →
       response_body (POST fetch body) = [error_part msg])
  ∧ (∀ backendRes,
       fetch (JSON_stringify
                (object_literal
                   [("message", Some (last_content body));
                    ("sessionId", sessionId body);
                    ("context", context body)])) = Ok backendRes →
       backend_ok backendRes = false ∨ backend_body backendRes = None →
       response_body (POST fetch body)
       = [error_part
            ("Backend error: " +:+ pretty (backend_status backendRes))]).
Proof.
  intros Hm. unfold POST. rewrite Hm. cbn [negb].
  destruct (fetch _) as [backendRes|msg].
  - destruct (backend_ok backendRes) eqn:Hok.
    + destruct (backend_body backendRes) as [upstream|] eqn:Hb.
      * cbn [status response_headers response_body].
        split_and!; [done|done| | |done|].
        -- destruct (start_shape upstream)
             as (out & closing & -> & Hout & Hc).
           exists out, closing. split_and!; [done|done|].
           destruct Hc as [->|(msg & _ & ->)]; [by left|right].
           apply error_part_is_error.
        -- intros upstream0 backendRes0 Hf _ Hb0. injection Hf as <-.
           rewrite Hb in Hb0. by injection Hb0 as <-.
        -- intros backendRes0 Hf Hbad. injection Hf as <-.
           rewrite Hok, Hb in Hbad. by destruct Hbad.
      * cbn [status response_headers response_body].
        split_and!; [done|done| | |done|].
        -- exists [], (error_part ("Backend error: "
                                   +:+ pretty (backend_status backendRes))).
           split_and!; [done|done|right; apply error_part_is_error].
        -- intros upstream0 backendRes0 Hf _ Hb0. injection Hf as <-.
           by rewrite Hb in Hb0.
        -- intros backendRes0 Hf _. by injection Hf as <-.
    + cbn [status response_headers response_body].
      split_and!; [done|done| | |done|].
      * exists [], (error_part ("Backend error: "
                                +:+ pretty (backend_status backendRes))).
        split_and!; [done|done|right; apply error_part_is_error].
      * intros upstream0 backendRes0 Hf Hok0. injection Hf as <-.
        by rewrite Hok in Hok0.
      * intros backendRes0 Hf _. by injection Hf as <-.
  - cbn [status response_headers response_body].
    split_and!; [done|done| |done| |done].
    + exists [], (error_part msg).
      split_and!; [done|done|right; apply error_part_is_error].
    + intros msg0 Hf. by injection Hf as <-.
Qed.

End Codec.
End BridgeMore.

(* ===================================================================== *)
(** * From the chat route to the client: a turn through the bridge *)
(* ===================================================================== *)

Module EndToEnd.
Import ConversationManager Bridge BridgePost BridgeFacts.

Section Codec.
Context `{JSON}.

(** The bridge on the text of a run of events that holds no [done]
    before its last event. *)
Lemma start_on_events (pre : list TurnEvent) (closing : TurnEvent)
    (values : list string) :
  Forall (fun e => is_done_event e = false) pre →
  Forall (fun e => JSON_parse (JSON_stringify (sse_payload e))
                   = Some (sse_payload e)
                   ∧ has_LF (JSON_stringify (sse_payload e)) = false)
         (pre ++ [closing]) →
  concat_reads values = sse_text (pre ++ [closing]) →
  start {| reads := values; read_error := None |}
  = {| enqueued := map stage2_line pre
                   ++ (if is_done_event closing then []
                       else [stage2_line closing])
                   ++ [finish_line];
       closed := true |}.
Proof.
  intros Hnd Hcodec Htext.
  rewrite start_complete_lines, Htext. unfold complete_lines.
  rewrite split_nl_sse_text
    by (eapply Forall_impl; [exact Hcodec|]; by intros ? []).
  rewrite removelast_last. unfold frame_lines.
  rewrite flat_map_app. fold (frame_lines pre).
  apply Forall_app in Hcodec as [Hpre Hclosing].
  rewrite processLines_frames;
    [|done|eapply Forall_impl; [exact Hpre|]; by intros ? []].
  cbn [flat_map app processLines].
  apply Forall_cons in Hclosing as [[Hrt _] _].
  rewrite (handle_line_sse closing Hrt).
  change (handle_line "") with Skip.
  destruct closing; cbn [is_done_event processLines];
    unfold close, enqueue, fresh; cbn [enqueued closed app];
    rewrite <- ?app_assoc; reflexivity.
Qed.

Section Turn.
Context {C : Type} `{ChunkOps C}.
Variable env : Env C.

(** X30. What the client receives for a turn. The text the chat route wrote
    for a valid request, read by the bridge in any number of pieces, in
    a runtime whose JSON codec reads back what it wrote for these
    events on one line: the client gets the session annotation first,
    then one part per token and tool event in the order they were sent,
    and last the finish line, the only one; when the turn failed, the
    error part comes just before the finish line. *)
Theorem turn_through_bridge (body : RequestBody)
    (m : ConversationManager.t) (tick : nat) (message sid : string)
    (ctx : option json) (values : list string) :
  validateChatRequest body (uuidv4 env) = Valid message sid ctx →
  Forall (fun e => JSON_parse (JSON_stringify (sse_payload e))
                   = Some (sse_payload e)
                   ∧ has_LF (JSON_stringify (sse_payload e)) = false)
         (written (res (Chat.handle env body m tick))) →
  concat_reads values = sse_text (written (res (Chat.handle env body m tick))) →
  ∃ es closing,
    written (res (Chat.handle env body m tick))
    = EvSession sid :: es ++ [closing]
    ∧ forallb is_stream_body es = true
    ∧ start {| reads := values; read_error := None |}
      = {| enqueued :=
             stage2_line (EvSession sid) :: map stage2_line es
             ++ match closing with
                | EvError msg => [error_part msg]
                | _ => []
                end
             ++ [finish_line];
           closed := true |}
    ∧ filter (fun c => is_finish_part c = true)
        (enqueued (start {| reads := values; read_error := None |}))
      = [finish_line].
Proof.
  intros Hv.
  assert (∃ es closing,
    written (res (Chat.handle env body m tick))
    = EvSession sid :: es ++ [closing]
    ∧ forallb is_stream_body es = true
    ∧ (closing = EvDone ∨ ∃ msg, closing = EvError msg))
    as (es & closing & -> & Hes & Hclosing).
  { destruct (Requests.handle_outcome env body m tick message sid ctx Hv)
      as (es & cs & Hes & [[saved ->]|[msg ->]]).
    - rewrite Requests.res_finished, Requests.res_contextualised.
      exists es, EvDone. split_and!; [reflexivity|exact Hes|by left].
    - rewrite Requests.res_failed, Requests.res_contextualised.
      exists es, (EvError msg).
      split_and!; [reflexivity|exact Hes|right; by exists msg]. }
  intros Hcodec Htext. exists es, closing.
  assert (Forall (fun e => is_done_event e = false) (EvSession sid :: es))
    as Hnd.
  { constructor; [done|]. apply Forall_forall. intros e He.
    rewrite forallb_forall in Hes.
    assert (is_stream_body e = true) as Hb.
    { apply Hes. clear -He. induction He; simpl; auto. }
    by destruct e. }
  assert (start {| reads := values; read_error := None |}
          = {| enqueued :=
                 stage2_line (EvSession sid) :: map stage2_line es
                 ++ match closing with
                    | EvError msg => [error_part msg]
                    | _ => []
                    end
                 ++ [finish_line];
               closed := true |}) as Hstart.
  { rewrite (start_on_events (EvSession sid :: es) closing values Hnd
               Hcodec Htext).
    destruct Hclosing as [->|[msg ->]]; reflexivity. }
  split_and!; [reflexivity|exact Hes|exact Hstart|].
  rewrite Hstart. cbn [enqueued].
  change (stage2_line (EvSession sid) :: map stage2_line es
          ++ match closing with
             | EvError msg => [error_part msg]
             | _ => []
             end ++ [finish_line])
    with (map stage2_line (EvSession sid :: es)
          ++ match closing with
             | EvError msg => [error_part msg]
             | _ => []
             end ++ [finish_line]).
  rewrite !filter_app.
  assert (filter (λ c, is_finish_part c = true)
            (map stage2_line (EvSession sid :: es)) = []) as ->.
  { clear -Hnd. induction Hnd as [|e pre He Hpre IH]; [done|]. cbn [map].
    rewrite filter_cons, decide_False; [exact IH|].
    destruct (stage2_line_parts e He) as [-> _]. done. }
  destruct Hclosing as [->|[msg ->]]; [reflexivity|].
  cbn [app]. rewrite filter_cons, decide_False; [reflexivity|].
  by rewrite BridgeMore.error_part_not_finish.
Qed.

End Turn.
End Codec.
End EndToEnd.

(* ===================================================================== *)
(** * The further properties on concrete inputs *)
(* ===================================================================== *)

Module MoreExamples.
Import ConversationManager Examples.

Lemma applyMessageWindowing_settled_witness :
  applyMessageWindowing "s1" (run busy_run new) = run busy_run new.
Proof.
  destruct (SessionStoreMore.applyMessageWindowing_settled "s1"
              (run busy_run new)) as [_ H2].
  - vm_compute. discriminate.
  - apply H2. vm_compute. lia.
Defined.

Lemma invalid_request_rejected_witness :
  rejected (res (Chat.handle env_plain
                   {| body_message := Some (JNum 7);
                      body_sessionId := Some "s1"; body_context := None |}
                   new 0))
  = Some (400%nat, "Message is required and must be a string").
Proof.
  rewrite (Requests.invalid_request_rejected env_plain _ new 0
             "Message is required and must be a string").
  - reflexivity.
  - reflexivity.
Defined.

Lemma valid_request_stream_shape_witness :
  headers (res (Chat.handle env_down body_s1 new 0)) = sse_headers.
Proof.
  destruct (Requests.valid_request_stream_shape env_down body_s1 new 0
              question "s1" None) as (_ & H2 & _).
  - reflexivity.
  - exact H2.
Defined.

Lemma turn_leaves_other_sessions_witness :
  sessions (manager (Chat.handle env_tool body_s1
                       (addMessage "s2" "other" true 5 new) 0)) !! "s2"
  = sessions (addMessage "s2" "other" true 5 new) !! "s2".
Proof.
  apply (Requests.turn_leaves_other_sessions env_tool body_s1
           (addMessage "s2" "other" true 5 new) 0 question "s1" None "s2").
  - reflexivity.
  - discriminate.
Defined.

Lemma request_context_persisted_witness :
  (getSessionContext "s1"
     (manager (Chat.handle env_down
                 {| body_message := Some (JStr question);
                    body_sessionId := Some "s1";
                    body_context := Some (JObj [("bookId", JStr "b7")]) |}
                 new 0))).1
  = Some (JObj [("bookId", JStr "b7")]).
Proof.
  apply (Requests.request_context_persisted env_down _ new 0 question "s1"
           (Some (JObj [("bookId", JStr "b7")]))).
  reflexivity.
Defined.

Lemma session_reported_after_turn_witness :
  ∃ count last_access age,
    (SessionRoutes.get_session "s1" 9000
       (manager (Chat.handle env_plain body_s1 (run busy_run new) 0))).1
    = (200%nat, SessionRoutes.SessionInfo ("s1", count, last_access, age))
    ∧ (1 ≤ count)%nat
    ∧ Z.of_nat count ≤ maxMessagesPerSession (run busy_run new).
Proof.
  apply (Requests.session_reported_after_turn env_plain body_s1
           (run busy_run new) 0 question "s1" None 9000).
  - reflexivity.
  - vm_compute. discriminate.
Defined.

Lemma generated_session_id_announced_witness :
  head (written (res (Chat.handle env_plain
                        {| body_message := Some (JStr question);
                           body_sessionId := None; body_context := None |}
                        new 0)))
  = Some (EvSession "generated-id").
Proof.
  destruct (Requests.generated_session_id_announced env_plain
              {| body_message := Some (JStr question);
                 body_sessionId := None; body_context := None |}
              new 0 question) as [H1 _].
  - reflexivity.
  - discriminate.
  - left. reflexivity.
  - exact H1.
Defined.

Lemma tool_args_carry_client_context_witness :
  ∃ tc args,
    tc ∈ [call_unknown; call_summarize]
    ∧ is_Some (find_tool (tc_name tc) registry)
    ∧ CallTool "summarize_topic"
        [("topic", JStr "pricing"); ("_clientContext", JNull)]
      = CallTool (tc_name tc) args
    ∧ obj_get "_clientContext" args
      = Some (default JNull (getSessionContext "s1" new).1)
    ∧ ∀ k, k ≠ "_clientContext" → obj_get k args = obj_get k (tc_args tc).
Proof.
  apply (ToolsMore.tool_args_carry_client_context
           [call_unknown; call_summarize] registry "s1" (Chat.start new 0)).
  vm_compute. left.
Defined.

Lemma tool_messages_aligned_when_all_succeed_witness :
  ∃ content,
    ToolExecutor.buildToolMessages
      [{| tr_name := "list_documents"; tr_args := None;
          tr_result := Some "No documents have been ingested yet.";
          tr_error := None |}]
      [call_list] !! 0%nat
    = Some (ToolMessage content "call_c" "list_documents").
Proof.
  apply (ToolsMore.tool_messages_aligned_when_all_succeed
           [call_list] registry "s1" (Chat.start new 0) _ 0 call_list).
  - reflexivity.
  - reflexivity.
  - reflexivity.
  - reflexivity.
Defined.

(** A store that takes full batches and rejects the short one, on 25
    chunks: two batches stored, five chunks failed. *)
Lemma storeFile_accounts_for_every_chunk_witness :
  ∃ st,
    Ingest.storeFile
      (fun (batch : list nat) (n : nat) =>
         if (length batch <? 10)%nat then (Throw "quota exceeded", n)
         else (Ok tt, (n + length batch)%nat))
      25 "guide.pdf" (seq 0 25) 0%nat = Some st
    ∧ Ingest.successfulChunks st = 20%nat
    ∧ Ingest.failedChunks st = 5%nat
    ∧ Ingest.submitted st = [seq 0 10; seq 10 10; seq 20 5]
    ∧ Ingest.progress st
      = [Ingest.ChunksStart "guide.pdf" 25;
         Ingest.BatchStored "guide.pdf" 10 25;
         Ingest.BatchStored "guide.pdf" 20 25;
         Ingest.FileDone "guide.pdf"].
Proof.
  destruct (IngestFacts.storeFile_accounts_for_every_chunk
              (fun (batch : list nat) (n : nat) =>
                 if (length batch <? 10)%nat then (Throw "quota exceeded", n)
                 else (Ok tt, (n + length batch)%nat))
              25 "guide.pdf" (seq 0 25) 0%nat)
    as (st & H1 & _).
  - simpl. lia.
  - exists st. vm_compute in H1. injection H1 as <-.
    split_and!; reflexivity.
Defined.

Lemma storeFile_survives_a_failing_store_witness :
  ∃ st,
    Ingest.storeFile
      (fun (_ : list nat) (n : nat) => (Throw "store is down", S n))
      25 "guide.pdf" (seq 0 25) 0%nat = Some st
    ∧ Ingest.failedChunks st = 25%nat
    ∧ Ingest.progress st
      = [Ingest.ChunksStart "guide.pdf" 25; Ingest.FileDone "guide.pdf"].
Proof.
  destruct (IngestFacts.storeFile_survives_a_failing_store
              (fun (_ : list nat) (n : nat) => (Throw "store is down", S n))
              25 "guide.pdf" (seq 0 25) 0%nat)
    as (st & H1 & _ & H3 & _ & H5).
  - simpl. lia.
  - intros batch s. exists "store is down", (S s). reflexivity.
  - exists st. split_and!; [exact H1|exact H3|exact H5].
Defined.

Lemma bridge_ignores_read_boundaries_witness :
  Bridge.start (H := MiniJSON.codec)
    {| Bridge.reads := stage1_reads; Bridge.read_error := None |}
  = Bridge.start (H := MiniJSON.codec)
      {| Bridge.reads :=
           [sse_text (H := MiniJSON.codec) (stage1_events ++ [EvDone])];
         Bridge.read_error := None |}.
Proof.
  apply (BridgeMore.bridge_ignores_read_boundaries (H := MiniJSON.codec)).
  vm_compute. reflexivity.
Defined.

Lemma bridge_stops_at_done_witness :
  Bridge.start (H := MiniJSON.codec)
    {| Bridge.reads :=
         [sse_text (H := MiniJSON.codec)
            [EvToken "Key"; EvDone; EvToken "late"]];
       Bridge.read_error := Some "socket hang up" |}
  = {| Bridge.enqueued :=
         Bridge.emitted (H := MiniJSON.codec)
           [sse_line (H := MiniJSON.codec) (EvToken "Key"); ""]
         ++ [Bridge.finish_line];
       Bridge.closed := true |}.
Proof.
  apply (BridgeMore.bridge_stops_at_done (H := MiniJSON.codec) _ _
           [sse_line (H := MiniJSON.codec) (EvToken "Key"); ""]
           [""; sse_line (H := MiniJSON.codec) (EvToken "late"); ""]
           (sse_line (H := MiniJSON.codec) EvDone)).
  - vm_compute. reflexivity.
  - vm_compute. repeat constructor.
  - vm_compute. reflexivity.
Defined.

Lemma bridge_reports_read_failure_witness :
  Bridge.enqueued
    (Bridge.start (H := MiniJSON.codec)
       {| Bridge.reads := stage1_reads_without_done;
          Bridge.read_error := Some "socket hang up" |})
  = Bridge.emitted (H := MiniJSON.codec)
      (Bridge.complete_lines
         (Bridge.concat_reads stage1_reads_without_done))
    ++ [BridgePost.error_part (H := MiniJSON.codec) "socket hang up"].
Proof.
  destruct (BridgeMore.bridge_reports_read_failure (H := MiniJSON.codec)
              stage1_reads_without_done "socket hang up") as [H1 _].
  - vm_compute. repeat constructor.
  - rewrite H1. reflexivity.
Defined.

Lemma bridge_rejects_empty_message_witness :
  BridgePost.status
    (BridgePost.POST (H := MiniJSON.codec)
       (fun _ => Throw "fetch failed")
       {| BridgePost.messages := Some [JObj [("role", JStr "user")]];
          BridgePost.sessionId := None; BridgePost.context := None |})
  = 400%nat.
Proof.
  destruct (BridgeMore.bridge_rejects_empty_message (H := MiniJSON.codec)
              (fun _ => Throw "fetch failed") (fun _ => Throw "fetch failed")
              {| BridgePost.messages := Some [JObj [("role", JStr "user")]];
                 BridgePost.sessionId := None; BridgePost.context := None |})
    as [H1 _].
  - reflexivity.
  - exact H1.
Defined.

(** A backend that answers 502: the client gets a data stream that
    holds the one error part. *)
Lemma bridge_reply_always_terminated_witness :
  BridgePost.status
    (BridgePost.POST (H := MiniJSON.codec)
       (fun _ => Ok {| BridgePost.backend_status := 502;
                       BridgePost.backend_body := None |})
       {| BridgePost.messages :=
            Some [JObj [("role", JStr "user"); ("content", JStr question)]];
          BridgePost.sessionId := Some (JStr "s1");
          BridgePost.context := None |})
  = 200%nat
  ∧ BridgePost.response_body
      (BridgePost.POST (H := MiniJSON.codec)
         (fun _ => Ok {| BridgePost.backend_status := 502;
                         BridgePost.backend_body := None |})
         {| BridgePost.messages :=
              Some [JObj [("role", JStr "user");
                          ("content", JStr question)]];
            BridgePost.sessionId := Some (JStr "s1");
            BridgePost.context := None |})
    = ["3:" +:+ quoted "Backend error: 502" +:+ nl].
Proof.
  destruct (BridgeMore.bridge_reply_always_terminated (H := MiniJSON.codec)
              (fun _ => Ok {| BridgePost.backend_status := 502;
                              BridgePost.backend_body := None |})
              {| BridgePost.messages :=
                   Some [JObj [("role", JStr "user");
                               ("content", JStr question)]];
                 BridgePost.sessionId := Some (JStr "s1");
                 BridgePost.context := None |})
    as (H1 & _ & _ & _ & _ & H6).
  - reflexivity.
  - split; [exact H1|].
    rewrite (H6 {| BridgePost.backend_status := 502;
                   BridgePost.backend_body := None |}).
    + vm_compute. reflexivity.
    + reflexivity.
    + left. reflexivity.
Defined.

Lemma turn_through_bridge_witness :
  Bridge.enqueued
    (Bridge.start (H := MiniJSON.codec)
       {| Bridge.reads :=
            two_reads
              (sse_text (H := MiniJSON.codec)
                 (written (res (Chat.handle env_down body_s1 new 0))));
          Bridge.read_error := None |})
  = [Bridge.stage2_line (H := MiniJSON.codec) (EvSession "s1");
     BridgePost.error_part (H := MiniJSON.codec) "connect ECONNREFUSED";
     Bridge.finish_line].
Proof.
  destruct (EndToEnd.turn_through_bridge (H := MiniJSON.codec) env_down
              body_s1 new 0 question "s1" None
              (two_reads
                 (sse_text (H := MiniJSON.codec)
                    (written (res (Chat.handle env_down body_s1 new 0))))))
    as (es & closing & H1 & _ & H3 & _).
  - reflexivity.
  - vm_compute. repeat constructor.
  - vm_compute. reflexivity.
  - rewrite H3. vm_compute in H1.
    injection H1 as H1. destruct es as [|e es].
    + injection H1 as <-. reflexivity.
    + injection H1 as _ H1. destruct es; discriminate H1.
Defined.

End MoreExamples.
